(** * eo-learn: workflow tasks and the Ray futures joiner

    A shallow embedding of
    - [core/eolearn/core/utilities/other.py]   ([generate_uid],
      [constant_pad]),
    - [core/eolearn/core/eoworkflow_tasks.py]  ([InputTask], [OutputTask]),
    - [core/eolearn/core/extra/ray.py]         ([RayExecutor.run],
      [RayExecutor._run_execution], [parallelize_with_ray],
      [join_ray_futures], [join_ray_futures_iter]),
    - [visualization/eolearn/visualization/eoexecutor_visualization.py]
      ([EOExecutorVisualization._get_node_descriptions]),
    together with the properties the specification states about them and
    further properties read off the code.

    Python objects that are shared and mutated (the caller's list of
    futures, an [EOPatch]) live in an object store keyed by their identity
    [id(obj)]; immutable values are plain trees.  The Ray cluster is an
    oracle: which futures a bounded wait reports, and what each remote task
    produced. *)

From stdpp Require Import gmap strings list.
From Stdlib Require Import ZArith Lia Ascii.

#[local] Set Warnings "-register-all".

(** ** Python values and objects *)

(** The identity of an object, [id(obj)]. *)
Abbreviation addr := nat.

(** The name of a remote object in the cluster's object store. *)
Abbreviation ref := nat.

(** The exceptions met in this development. *)
Inductive PyExc :=
| ValueError
| TypeError
| KeyError
| IndexError
| RuntimeError
| RayTaskError
| OverflowError
| ZeroDivisionError
| ConnectionError.

(** A Python [float], an IEEE 754 double: a signed zero, a finite number
    [± mantissa * 2 ^ exponent], an infinity or a NaN. *)
Inductive Float :=
| FZero (negative : bool)
| FFinite (negative : bool) (mantissa : positive) (exponent : Z)
| FInfinity (negative : bool)
| FNaN.

(** Values whose identity plays no role.  [VObject a] stands for any other
    object, known by its identity. *)
Inductive PyVal :=
| VNone
| VBool (b : bool)
| VInt (n : Z)
| VFloat (x : Float)
| VStr (s : string)
| VBytes (b : list Byte.byte)
| VList (items : list PyVal)
| VTuple (items : list PyVal)
| VDict (items : list (PyVal * PyVal))
| VSet (items : list PyVal)
| VObject (a : addr).

(** *** Truth value testing *)

(** What a special method of the class of an object does when it is called
    on the object: the class does not define it, it returns, or it
    raises. *)
Inductive Hook (R : Type) :=
| Undefined
| Returns (r : R)
| Raises (e : PyExc).
Arguments Undefined {R}.
Arguments Returns {R} _.
Arguments Raises {R} _.

(** The two special methods the truth test of an object looks at.  The
    result of [__bool__] is [Some b] for the boolean [b] and [None] for
    anything that is no [bool]; the result of [__len__] is [Some n] for the
    integer [n] and [None] for anything that is no integer. *)
Record TruthHooks := {
  bool_hook : Hook (option bool);
  len_hook : Hook (option Z)
}.

(** [sys.maxsize], on a 64-bit platform. *)
Definition maxsize : Z := 2 ^ 63 - 1.

(** The truth test of an object that is none of the built-in values below:
    [__bool__] when the class defines it, and it must return a [bool];
    else [__len__] when the class defines it, and it must return an
    integer that is not negative and fits an index; else the object is
    true. *)
Definition object_truth (hooks : TruthHooks) : PyExc + bool :=
  match bool_hook hooks with
  | Returns (Some b) => inr b
  | Returns None => inl TypeError
  | Raises e => inl e
  | Undefined =>
    match len_hook hooks with
    | Undefined => inr true
    | Returns (Some n) =>
      if (n <? 0)%Z then inl ValueError
      else if (maxsize <? n)%Z then inl OverflowError
      else inr (negb (n =? 0)%Z)
    | Returns None => inl TypeError
    | Raises e => inl e
    end
  end.

(** Python's truth value testing, [bool(v)], as the operators [or], [and],
    [not] and the statement [if] apply it.  [hooks a] tells what the class
    of the object [a] defines. *)
Definition py_bool (hooks : addr → TruthHooks) (v : PyVal) : PyExc + bool :=
  match v with
  | VNone => inr false
  | VBool b => inr b
  | VInt n => inr (negb (n =? 0)%Z)
  | VFloat (FZero _) => inr false
  | VFloat _ => inr true
  | VStr s => inr (negb (String.eqb s EmptyString))
  | VBytes b => inr (negb (bool_decide (length b = 0)))
  | VList items => inr (negb (bool_decide (length items = 0)))
  | VTuple items => inr (negb (bool_decide (length items = 0)))
  | VDict items => inr (negb (bool_decide (length items = 0)))
  | VSet items => inr (negb (bool_decide (length items = 0)))
  | VObject a => object_truth (hooks a)
  end.

(** [a or b]: [a] is tested; the result is [a] when it is true and [b]
    otherwise, and [b] is not tested; an exception of the test is the
    exception of the expression. *)
Definition py_or (hooks : addr → TruthHooks) (a b : PyVal) : PyExc + PyVal :=
  match py_bool hooks a with
  | inl e => inl e
  | inr true => inr a
  | inr false => inr b
  end.

(** The words of the language reference on truth value testing: an object
    is considered true unless its class defines a [__bool__] method that
    returns [False] or a [__len__] method that returns zero; the built-in
    objects considered false are [None], [False], the zero of a numeric
    type and the empty sequences and collections. *)
Inductive Falsy (hooks : addr → TruthHooks) : PyVal → Prop :=
| Falsy_None : Falsy hooks VNone
| Falsy_False : Falsy hooks (VBool false)
| Falsy_int_zero : Falsy hooks (VInt 0)
| Falsy_float_zero negative : Falsy hooks (VFloat (FZero negative))
| Falsy_empty_str : Falsy hooks (VStr EmptyString)
| Falsy_empty_bytes : Falsy hooks (VBytes [])
| Falsy_empty_list : Falsy hooks (VList [])
| Falsy_empty_tuple : Falsy hooks (VTuple [])
| Falsy_empty_dict : Falsy hooks (VDict [])
| Falsy_empty_set : Falsy hooks (VSet [])
| Falsy_bool_returns_False a :
    bool_hook (hooks a) = Returns (Some false) → Falsy hooks (VObject a)
| Falsy_len_returns_zero a :
    bool_hook (hooks a) = Undefined → len_hook (hooks a) = Returns (Some 0%Z) →
    Falsy hooks (VObject a).

(** The values that are considered true: the built-in values that are not
    among the false ones, and the objects whose class defines neither
    method, or a [__bool__] that returns [True], or no [__bool__] and a
    [__len__] that returns a positive length. *)
Inductive Truthy (hooks : addr → TruthHooks) : PyVal → Prop :=
| Truthy_True : Truthy hooks (VBool true)
| Truthy_int n : n ≠ 0%Z → Truthy hooks (VInt n)
| Truthy_float_finite negative mantissa exponent :
    Truthy hooks (VFloat (FFinite negative mantissa exponent))
| Truthy_float_infinity negative : Truthy hooks (VFloat (FInfinity negative))
| Truthy_float_nan : Truthy hooks (VFloat FNaN)
| Truthy_str c s : Truthy hooks (VStr (String c s))
| Truthy_bytes x b : Truthy hooks (VBytes (x :: b))
| Truthy_list x items : Truthy hooks (VList (x :: items))
| Truthy_tuple x items : Truthy hooks (VTuple (x :: items))
| Truthy_dict x items : Truthy hooks (VDict (x :: items))
| Truthy_set x items : Truthy hooks (VSet (x :: items))
| Truthy_plain_object a :
    bool_hook (hooks a) = Undefined → len_hook (hooks a) = Undefined →
    Truthy hooks (VObject a)
| Truthy_bool_returns_True a :
    bool_hook (hooks a) = Returns (Some true) → Truthy hooks (VObject a)
| Truthy_len_returns_positive a n :
    bool_hook (hooks a) = Undefined → len_hook (hooks a) = Returns (Some n) →
    (0 < n ≤ maxsize)%Z → Truthy hooks (VObject a).

(** A feature of an [EOPatch]: its feature type and its name. *)
Abbreviation feature := (string * string)%type.

(** Objects with an identity. *)
Inductive PyObj :=
| PyList (items : list addr)
| PyTuple (items : list addr)
| PyIterator (items : list addr)
| PyObjectRef (r : ref)
| PyEOPatch (features : gmap feature addr)
| PyData (v : PyVal).

(** ** utilities/other.py *)

Module Other.

(** [s[:-n]] *)
Definition drop_last (n : nat) (s : string) : string :=
  String.substring 0 (String.length s - n) s.

(** [s[:n]] *)
Definition take_first (n : nat) (s : string) : string :=
  String.substring 0 n s.

(** [generate_uid(prefix)].  The two UUIDs drawn by the function are inputs:
    [uuid1_hex] is [uuid.uuid1(node=0).hex], [uuid4_hex] is
    [uuid.uuid4().hex]. *)
Definition generate_uid (prefix : string) (uuid1_hex uuid4_hex : string) : string :=
  let time_uid := drop_last 12 uuid1_hex in
  let random_uid := take_first 12 uuid4_hex in
  (prefix ++ "-" ++ time_uid ++ "-" ++ random_uid)%string.

(** *** constant_pad *)

(** An array: its shape and its cells, [cell X [i; j]] being [X[i, j]]. *)
Record Array (V : Type) := {
  shape : list nat;
  cell : list nat → V
}.
Arguments shape {V} _.
Arguments cell {V} _ _.

(** The double nearest to the quotient [a / b] of two positive integers,
    ties going to the even mantissa, as [mantissa * 2 ^ exponent]; [None]
    when the quotient is too large for a double.  The exponent [e] is the
    one that brings [a / (b * 2 ^ e)] between [2 ^ 52] and [2 ^ 53], and
    not below [-1074], the exponent of the subnormal numbers. *)
Definition nearest_double (a b : Z) : option (Z * Z) :=
  let scaled (e : Z) := if (0 <=? e)%Z then (a, b * 2 ^ e)%Z else (a * 2 ^ (- e), b)%Z in
  let e0 := (Z.log2 a - Z.log2 b - 53)%Z in
  let e1 := if (2 ^ 53 * (scaled e0).2 <=? (scaled e0).1)%Z then (e0 + 1)%Z else e0 in
  let e := Z.max e1 (-1074) in
  let n := (scaled e).1 in
  let d := (scaled e).2 in
  let q := (n / d)%Z in
  let r := (n mod d)%Z in
  let m := if (d <? 2 * r)%Z || ((d =? 2 * r)%Z && Z.odd q) then (q + 1)%Z else q in
  if (0 <=? e)%Z && (2 ^ 1024 <=? m * 2 ^ e)%Z then None else Some (m, e).

(** [a / b] on integers, the true division: the quotient is rounded to the
    nearest double; a zero divisor and a quotient too large for a double
    raise. *)
Definition true_div (a b : Z) : PyExc + Float :=
  if (b =? 0)%Z then inl ZeroDivisionError
  else
    let negative := xorb (a <? 0)%Z (b <? 0)%Z in
    if (a =? 0)%Z then inr (FZero negative)
    else
      match nearest_double (Z.abs a) (Z.abs b) with
      | None => inl OverflowError
      | Some (m, e) =>
        inr (if (m =? 0)%Z then FZero negative else FFinite negative (Z.to_pos m) e)
      end.

(** [int(x)] on a float: the integer part, towards zero. *)
Definition int_of_float (x : Float) : PyExc + Z :=
  match x with
  | FZero _ => inr 0%Z
  | FFinite negative m e =>
    let magnitude := if (0 <=? e)%Z then (Z.pos m * 2 ^ e)%Z else (Z.pos m / 2 ^ (- e))%Z in
    inr (if negative then (- magnitude)%Z else magnitude)
  | FInfinity _ => inl OverflowError
  | FNaN => inl ValueError
  end.

(** [int(a / b)] *)
Definition int_div (a b : Z) : PyExc + Z :=
  match true_div a b with
  | inl e => inl e
  | inr x => int_of_float x
  end.

(** The padding of one axis: none when [size % multiple] is zero, else
    [(int(size / multiple) + 1) * multiple - size]; the [%] raises on a
    zero multiple. *)
Definition axis_padding (size multiple : Z) : PyExc + Z :=
  if (multiple =? 0)%Z then inl ZeroDivisionError
  else if (size mod multiple =? 0)%Z then inr 0%Z
  else
    match int_div size multiple with
    | inl e => inl e
    | inr q => inr ((q + 1) * multiple - size)%Z
    end.

(** How a padding is shared between the two sides of an axis; the rule is
    looked at only when there is something to pad. *)
Definition split_padding (padding : Z) (rule first second : string) : PyExc + Z * Z :=
  if (0 <? padding)%Z then
    if String.eqb rule first then inr (padding, 0%Z)
    else if String.eqb rule second then inr (0%Z, padding)
    else if String.eqb rule "even" then
      match int_div padding 2 with
      | inl e => inl e
      | inr half => inr (half, (half + padding mod 2)%Z)
      end
    else inl ValueError
  else inr (0%Z, 0%Z).

Section NumPy.
Context {P V : Type}.

(** How numpy stores the Python scalar [pad_value] into an array of the
    element type of the given one: the value is converted to that type, or
    the conversion raises.  The conversion belongs to numpy and is a
    parameter. *)
Variable cast : P → PyExc + V.

(** [np.lib.pad(X, ((up, down), (left, right)), "constant",
    constant_values=((v, v), (v, v)))].  Widths that do not fit an index
    make an array that is not of an integer type and are refused with
    [TypeError], negative widths with [ValueError]; the two pairs of widths
    fit an array of two dimensions only, any other number of dimensions
    is refused with [ValueError].  The value is then converted and
    assigned to the padding on each side, also when the padding is empty.
    The result is a new array; the memory it takes is not accounted
    for. *)
Definition np_pad (X : Array V) (up down left right : Z) (pad_value : P)
    : PyExc + Array V :=
  if bool_decide (Exists (λ width, maxsize < width)%Z [up; down; left; right])
  then inl TypeError
  else if bool_decide (Exists (λ width, width < 0)%Z [up; down; left; right])
  then inl ValueError
  else
    match shape X with
    | [rows; cols] =>
      match cast pad_value with
      | inl e => inl e
      | inr value =>
        let up := Z.to_nat up in
        let left := Z.to_nat left in
        inr {| shape := [up + rows + Z.to_nat down; left + cols + Z.to_nat right];
               cell index :=
                 match index with
                 | [i; j] =>
                   if decide ((up ≤ i < up + rows) ∧ (left ≤ j < left + cols))
                   then cell X [i - up; j - left]
                   else value
                 | _ => value
                 end |}
      end
    | _ => inl ValueError
    end.

(** [constant_pad(X, multiple_of, up_down_rule, left_right_rule, pad_value)];
    [shape[0]] and [shape[1]] raise [IndexError] on an array of fewer
    dimensions. *)
Definition constant_pad (X : Array V) (multiple_of : Z * Z)
    (up_down_rule left_right_rule : string) (pad_value : P) : PyExc + Array V :=
  match shape X with
  | [] => inl IndexError
  | rows :: columns =>
    match axis_padding (Z.of_nat rows) multiple_of.1 with
    | inl e => inl e
    | inr row_padding =>
      match columns with
      | [] => inl IndexError
      | cols :: _ =>
        match axis_padding (Z.of_nat cols) multiple_of.2 with
        | inl e => inl e
        | inr col_padding =>
          match split_padding row_padding up_down_rule "up" "down" with
          | inl e => inl e
          | inr (row_padding_up, row_padding_down) =>
            match split_padding col_padding left_right_rule "left" "right" with
            | inl e => inl e
            | inr (col_padding_left, col_padding_right) =>
              np_pad X row_padding_up row_padding_down col_padding_left col_padding_right
                pad_value
            end
          end
        end
      end
    end
  end.
End NumPy.

End Other.

(** ** eoworkflow_tasks.py *)

Module EOWorkflowTasks.

(** *** InputTask *)

Record InputTask := { value : PyVal }.

(** [InputTask(value=None)] *)
Definition InputTask_init (value : option PyVal) : InputTask :=
  {| value := default VNone value |}.

(** [InputTask.execute(value=None)] (keyword only): [return value or self.value].
    The keyword argument is [None] when the caller leaves it out. *)
Definition InputTask_execute (hooks : addr → TruthHooks) (self : InputTask)
    (override : option PyVal) : PyExc + PyVal :=
  py_or hooks (default VNone override) (value self).

(** *** OutputTask *)

(** The [features] argument, as the feature parser reads it: the ellipsis
    [...] stands for every feature, a collection names the features kept. *)
Inductive FeatureSpec :=
| AllFeatures
| Features (keep : list feature).

Record OutputTask := { _name : string; features : FeatureSpec }.

(** [name or generate_uid('output')] on an [Optional[str]]: [None] and the
    empty string are falsy. *)
Definition OutputTask_init (name : option string) (features : FeatureSpec)
    (uuid1_hex uuid4_hex : string) : OutputTask :=
  {| _name := match name with
              | Some n => if String.eqb n EmptyString then Other.generate_uid "output"%string uuid1_hex uuid4_hex else n
              | None => Other.generate_uid "output"%string uuid1_hex uuid4_hex
              end;
     features := features |}.

(** The [name] property: a read of [self._name] that leaves the task as it
    is. *)
Definition OutputTask_name (self : OutputTask) : string * OutputTask :=
  (_name self, self).

(** [k] reads of the property, one after the other. *)
Fixpoint read_name (k : nat) (self : OutputTask) : list string :=
  match k with
  | 0 => []
  | S k' => let '(n, self') := OutputTask_name self in n :: read_name k' self'
  end.

Definition selects (f : FeatureSpec) (k : feature) : Prop :=
  match f with
  | AllFeatures => True
  | Features keep => k ∈ keep
  end.

#[export] Instance selects_dec f k : Decision (selects f k).
Proof. destruct f; simpl; apply _. Defined.

(** Modelled from the spec: [EOPatch.copy(features=...)] lives in eodata.py,
    which is not among the sources.  The docstring of [OutputTask.execute]
    says what it returns: a shallow copy of the patch containing only
    [features].  The copy is a new object; the kept features point to the
    very objects the original holds. *)
Definition EOPatch_copy (patch : gmap feature addr) (f : FeatureSpec)
    (h : gmap addr PyObj) : addr * gmap addr PyObj :=
  let a := fresh (dom h) in
  (a, <[a := PyEOPatch (filter (λ kv, selects f kv.1) patch)]> h).

(** [OutputTask.execute(data)] *)
Definition OutputTask_execute (self : OutputTask) (data : addr)
    (h : gmap addr PyObj) : addr * gmap addr PyObj :=
  match h !! data with
  | Some (PyEOPatch patch) => EOPatch_copy patch (features self) h
  | _ => (data, h)
  end.

End EOWorkflowTasks.

(** ** extra/ray.py *)

Module Ray.

(** *** RayExecutor.run *)

(** The part of the Ray runtime that [RayExecutor.run] looks at:
    [ray.is_initialized()] and [ray.available_resources()]. *)
Record Runtime (capacity : Type) := {
  is_initialized : bool;
  available_resources : gmap string capacity
}.
Arguments is_initialized {capacity} _.
Arguments available_resources {capacity} _.

(** What [RayExecutor.run] asks of its environment, in the order it asks. *)
Inductive Call (capacity : Type) :=
| CallIsInitialized
| CallAvailableResources
| CallSuperRun (workers : option capacity) (multiprocess : bool).
Arguments CallIsInitialized {capacity}.
Arguments CallAvailableResources {capacity}.
Arguments CallSuperRun {capacity} _ _.

Section Executor.
Context {capacity Results State : Type}.

(** [EOExecutor.run(workers=..., multiprocess=...)], the method of the
    parent class that dispatches the runs.  eoexecution.py is not among
    the sources: the method is a parameter acting on the executor's
    state. *)
Variable EOExecutor_run : option capacity → bool → State → (PyExc + Results) * State.

(** [RayExecutor.run(self)] *)
Definition RayExecutor_run (ray : Runtime capacity) (s : State)
    : list (Call capacity) * ((PyExc + Results) * State) :=
  if negb (is_initialized ray) then
    ([CallIsInitialized], (inl RuntimeError, s))
  else
    let workers := available_resources ray !! "CPU"%string in
    ([CallIsInitialized; CallAvailableResources; CallSuperRun workers true],
     EOExecutor_run workers true s).
End Executor.

(** *** The joiner *)

(** The state the joiner acts on: the object store of the Python process,
    and two records kept of the cluster, the number of bounded waits issued
    so far and the futures whose value has been fetched, in the order of
    fetching. *)
Record World := {
  heap : gmap addr PyObj;
  clock : nat;
  fetched : list addr
}.

(** The remote object a future handle names, when the object is a handle. *)
Definition deref_future (h : gmap addr PyObj) (a : addr) : option ref :=
  match h !! a with
  | Some (PyObjectRef r) => Some r
  | _ => None
  end.

(** Modelled from the spec: [_make_copy_and_empty_given] lives in
    utils/parallelize.py, which is not among the sources.  The docstrings
    of the two joiners say what it does: the given list is reduced into an
    empty list as a side effect, and the joiner goes on with its own copy of
    the items. *)
Definition _make_copy_and_empty_given (given : addr) (items : list addr)
    (w : World) : list addr * World :=
  (items, {| heap := <[given := PyList []]> (heap w); clock := clock w; fetched := fetched w |}).

(** [enumerate(l)] *)
Definition enumerate {A} (l : list A) : list (nat * A) := imap (λ i x, (i, x)) l.

(** [{id(future): index for index, future in enumerate(futures)}]: a later
    entry for the same key replaces the earlier one. *)
Definition id_to_position_map (futures : list addr) : gmap addr nat :=
  foldl (λ m '(index, future), <[future := index]> m) ∅ (enumerate futures).

(** [results[position] = result] *)
Definition set_item (results : list PyVal) (position : nat) (result : PyVal)
    : option (list PyVal) :=
  if decide (position < length results) then Some (<[position := result]> results) else None.

(** The state of the generator [join_ray_futures_iter] returns: not yet
    started; suspended at the [yield], with the identity map, the futures
    still waited for, the rest of [zip(done, ray.get(done))] and the count
    of the progress bar; or closed. *)
Inductive Generator :=
| Created (futures : addr)
| Suspended (positions : gmap addr nat) (futures : list addr)
            (pending : list (addr * PyVal)) (pbar : nat)
| Closed.

(** What resuming a generator gives. *)
Inductive Resumed :=
| Yield (item : nat * PyVal)
| StopIteration
| Raise (e : PyExc)
| Polling.

(** How a loop over the generator ends. *)
Inductive Ending :=
| Exhausted
| Raised (e : PyExc)
| Unfinished.

(** How the eager call ends. *)
Inductive Joined :=
| Returned (results : list PyVal)
| Failed (e : PyExc)
| Running.

Section Joiner.
(** [ready k r]: the [k]-th bounded wait finds the remote object [r]
    complete.  [task_value r]: what the remote task produced, [None] when
    the task raised. *)
Variable ready : nat → ref → bool.
Variable task_value : ref → option PyVal.

Definition reported (w : World) (future : addr) : bool :=
  match deref_future (heap w) future with
  | Some r => ready (clock w) r
  | None => false
  end.

(** [ray.wait(futures, num_returns=len(futures), timeout=...)].  Ray checks
    its argument: an entry that is not an [ObjectRef] is a [TypeError], a
    list that names a remote object twice is a [ValueError] (the refs have
    to be unique).  Otherwise the futures found complete within the interval
    and the others come back, each in the order of the argument.  The
    length of the interval is real time and is left to the oracle. *)
Definition ray_wait (w : World) (futures : list addr)
    : (PyExc + list addr * list addr) * World :=
  let w' := {| heap := heap w; clock := S (clock w); fetched := fetched w |} in
  match mapM (deref_future (heap w)) futures with
  | None => (inl TypeError, w')
  | Some refs =>
    if decide (NoDup refs) then
      (inr (filter (λ a, reported w a = true) futures,
            filter (λ a, reported w a ≠ true) futures), w')
    else (inl ValueError, w')
  end.

(** The value behind a future handle. *)
Definition future_value (h : gmap addr PyObj) (future : addr) : option PyVal :=
  deref_future h future ≫= task_value.

(** [ray.get(done)]: the values of the futures, in their order; a task
    that raised makes the call raise. *)
Definition ray_get (w : World) (done : list addr) : (PyExc + list PyVal) * World :=
  match mapM (future_value (heap w)) done with
  | None => (inl RayTaskError, w)
  | Some values =>
    (inr values, {| heap := heap w; clock := clock w; fetched := fetched w ++ done |})
  end.

(** [pbar.update(1); yield id_to_position_map[id(future)], result] *)
Definition yield_item (m : gmap addr nat) (futures : list addr)
    (future : addr) (result : PyVal) (pending : list (addr * PyVal)) (pbar : nat)
    (w : World) : Resumed * Generator * World :=
  match m !! future with
  | Some position => (Yield (position, result), Suspended m futures pending (S pbar), w)
  | None => (Raise KeyError, Closed, w)
  end.

(** The [while futures:] loop, up to the next [yield].  One unit of fuel
    pays for one bounded wait. *)
Fixpoint poll_loop (fuel : nat) (m : gmap addr nat) (futures : list addr)
    (pbar : nat) (w : World) : Resumed * Generator * World :=
  match futures with
  | [] => (StopIteration, Closed, w)
  | _ :: _ =>
    match fuel with
    | 0 => (Polling, Suspended m futures [] pbar, w)
    | S fuel' =>
      match ray_wait w futures with
      | (inl e, w1) => (Raise e, Closed, w1)
      | (inr (done, rest), w1) =>
        match ray_get w1 done with
        | (inl e, w2) => (Raise e, Closed, w2)
        | (inr values, w2) =>
          match zip done values with
          | [] => poll_loop fuel' m rest pbar w2
          | (future, result) :: pending => yield_item m rest future result pending pbar w2
          end
        end
      end
    end
  end.

(** [next(generator)] *)
Definition gen_next (fuel : nat) (g : Generator) (w : World)
    : Resumed * Generator * World :=
  match g with
  | Created futures =>
    match heap w !! futures with
    | Some (PyList items) =>
      let '(futures, w1) := _make_copy_and_empty_given futures items w in
      poll_loop fuel (id_to_position_map futures) futures 0 w1
    | _ => (Raise ValueError, Closed, w)
    end
  | Suspended m futures [] pbar => poll_loop fuel m futures pbar w
  | Suspended m futures ((future, result) :: pending) pbar =>
    yield_item m futures future result pending pbar w
  | Closed => (StopIteration, Closed, w)
  end.

(** [join_ray_futures_iter(futures)]: calling a generator function runs
    none of its body. *)
Definition join_ray_futures_iter (futures : addr) (w : World) : Generator * World :=
  (Created futures, w).

(** The pairs a generator emits to a consumer that runs it to its end. *)
Fixpoint emitted (fuel : nat) (g : Generator) (w : World)
    : list (nat * PyVal) * Ending * World :=
  match fuel with
  | 0 => ([], Unfinished, w)
  | S fuel' =>
    match gen_next fuel' g w with
    | (Yield item, g', w') =>
      let '(items, e, w'') := emitted fuel' g' w' in (item :: items, e, w'')
    | (StopIteration, _, w') => ([], Exhausted, w')
    | (Raise e, _, w') => ([], Raised e, w')
    | (Polling, _, w') => ([], Unfinished, w')
    end
  end.

(** [for position, result in ...: results[position] = result] *)
Fixpoint join_loop (fuel : nat) (g : Generator) (results : list PyVal) (w : World)
    : Joined * World :=
  match fuel with
  | 0 => (Running, w)
  | S fuel' =>
    match gen_next fuel' g w with
    | (Yield (position, result), g', w') =>
      match set_item results position result with
      | Some results' => join_loop fuel' g' results' w'
      | None => (Failed IndexError, w')
      end
    | (StopIteration, _, w') => (Returned results, w')
    | (Raise e, _, w') => (Failed e, w')
    | (Polling, _, w') => (Running, w')
    end
  end.

(** [len(obj)] *)
Definition py_len (h : gmap addr PyObj) (a : addr) : option nat :=
  match h !! a with
  | Some (PyList items) | Some (PyTuple items) => Some (length items)
  | Some (PyData (VStr s)) => Some (String.length s)
  | Some (PyData (VBytes b)) => Some (length b)
  | Some (PyData (VList items)) | Some (PyData (VTuple items)) => Some (length items)
  | Some (PyData (VDict items)) | Some (PyData (VSet items)) => Some (length items)
  | _ => None
  end.

(** [join_ray_futures(futures)]; the keyword arguments only reach the
    progress bar and are left out. *)
Definition join_ray_futures (fuel : nat) (futures : addr) (w : World) : Joined * World :=
  match py_len (heap w) futures with
  | None => (Failed TypeError, w)
  | Some n =>
    let results := replicate n VNone in
    let '(g, w0) := join_ray_futures_iter futures w in
    join_loop fuel g results w0
  end.

(** *** Vocabulary of the statements *)

(** Every entry is a handle and no two entries name the same remote
    object. *)
Definition distinct_futures (h : gmap addr PyObj) (futures : list addr) : Prop :=
  ∃ refs, mapM (deref_future h) futures = Some refs ∧ NoDup refs.

(** Whatever the number of waits already issued, a later wait finds the
    future complete. *)
Definition eventually_reported (h : gmap addr PyObj) (futures : list addr) : Prop :=
  ∀ a r, a ∈ futures → deref_future h a = Some r →
    ∀ k, ∃ k', k ≤ k' ∧ ready k' r = true.

(** The pair the generator emits for a future. *)
Definition emit (m : gmap addr nat) (h : gmap addr PyObj) (future : addr) : nat * PyVal :=
  (default 0 (m !! future), default VNone (future_value h future)).

(** The futures the generator still waits for. *)
Definition tracked (h : gmap addr PyObj) (g : Generator) : list addr :=
  match g with
  | Created futures =>
    match h !! futures with
    | Some (PyList items) => items
    | _ => []
    end
  | Suspended _ futures _ _ => futures
  | Closed => []
  end.
End Joiner.

(** The eager mode in the words of the specification: take every pair the
    lazy mode emits and place each value at its position.  A position no
    pair names keeps [None]; were a position named more than once, the
    value placed last would stay. *)
Definition value_placed_at (pairs : list (nat * PyVal)) (i : nat) : PyVal :=
  match last (filter (λ pv, pv.1 = i) pairs) with
  | Some (_, v) => v
  | None => VNone
  end.

Definition place_by_position (n : nat) (pairs : list (nat * PyVal)) : list PyVal :=
  value_placed_at pairs <$> seq 0 n.

(** The eager loop as a fold: the pairs are placed one after the other. *)
Definition place_all (results : list PyVal) (pairs : list (nat * PyVal)) : list PyVal :=
  foldl (λ res pv, <[pv.1 := pv.2]> res) results pairs.

(** What the eager call makes of a run of the generator. *)
Definition eager_of_lazy (n : nat) (run : list (nat * PyVal) * Ending * World)
    : Joined * World :=
  match run with
  | (pairs, Exhausted, w) => (Returned (place_by_position n pairs), w)
  | (_, Raised e, w) => (Failed e, w)
  | (_, Unfinished, w) => (Running, w)
  end.

(** *** Submitting tasks: [parallelize_with_ray] and [RayExecutor._run_execution] *)

(** The remote objects the handles of a store name. *)
Definition refs_in (h : gmap addr PyObj) : gset ref :=
  list_to_set
    (omap (λ ao, match ao.2 with PyObjectRef r => Some r | _ => None end) (map_to_list h)).

(** What the cluster holds for a remote object: the outcome of a task
    submitted here, recorded in [table], or else what was there before. *)
Definition submitted_value (table : gmap ref (option PyVal))
    (task_value : ref → option PyVal) (r : ref) : option PyVal :=
  match table !! r with
  | Some outcome => outcome
  | None => task_value r
  end.

(** [zip( *params )]: the rows of the given iterables, as many as the
    shortest of them has; none when no iterable is given. *)
Definition zip_star {A} (params : list (list A)) : list (list A) :=
  match params with
  | [] => []
  | p :: ps =>
    let n := foldr (λ q acc, min (length q) acc) (length p) ps in
    (λ i, omap (λ q, q !! i) params) <$> seq 0 n
  end.

(** What [zip] leaves of the columns it has drawn its rows from, when the
    columns are iterators: with [n] rows, every column has given [n] items,
    and the columns before the first that was found exhausted have given
    one more. *)
Definition zip_leftover {A} (columns : list (list A)) : list (list A) :=
  let n := length (zip_star columns) in
  imap (λ i column,
          drop (if bool_decide (Forall (λ c, n < length c) (take (S i) columns))
                then S n else n) column)
    columns.

(** How the progress of a generator adds up: the pairs already emitted (the
    count of the progress bar), the values fetched and not yet emitted, and
    the futures still waited for. *)
Definition accounted (h : gmap addr PyObj) (g : Generator) : nat :=
  match g with
  | Created futures =>
    match h !! futures with
    | Some (PyList items) => length items
    | _ => 0
    end
  | Suspended _ futures pending pbar => pbar + length pending + length futures
  | Closed => 0
  end.

(** The count of the progress bar. *)
Definition progress (g : Generator) : nat :=
  match g with
  | Suspended _ _ _ pbar => pbar
  | _ => 0
  end.

(** The generator after [k] pairs have been taken from it, when it has as
    many to give. *)
Fixpoint resumed (ready : nat → ref → bool) (task_value : ref → option PyVal)
    (fuel k : nat) (g : Generator) (w : World) : option (Generator * World) :=
  match k with
  | 0 => Some (g, w)
  | S k' =>
    match gen_next ready task_value fuel g w with
    | (Yield _, g', w') => resumed ready task_value fuel k' g' w'
    | _ => None
    end
  end.

(** The wait, counted from wait [c] on, that is the first to report the
    remote object [r]. *)
Definition first_reported (ready : nat → ref → bool) (c k : nat) (r : ref) : Prop :=
  c ≤ k ∧ ready k r = true ∧ ∀ k', c ≤ k' < k → ready k' r = false.

(** [x] comes before [y] in [l]. *)
Definition before {X} (l : list X) (x y : X) : Prop :=
  ∃ l1 l2 l3, l = l1 ++ x :: l2 ++ y :: l3.

(** An iterator that [zip] draws from: a new iterator over the items of a
    sequence or collection, which only [zip] knows, or an iterator object
    of the store, which is its own iterator. *)
Inductive Source :=
| SequenceIterator (remaining : list PyVal)
| IteratorObject (it : addr).

(** What iterating over an object yields, for the objects that are iterated
    from a new iterator and are not changed by it: the items of a list or
    tuple, the keys of a dictionary, the characters of a string, the bytes
    of a bytes object. *)
Definition sequence_items (o : PyObj) : option (list PyVal) :=
  match o with
  | PyList items | PyTuple items => Some (VObject <$> items)
  | PyData (VList items) | PyData (VTuple items) | PyData (VSet items) => Some items
  | PyData (VDict items) => Some (items.*1)
  | PyData (VStr s) =>
    Some ((λ c, VStr (String c EmptyString)) <$> String.list_ascii_of_string s)
  | PyData (VBytes b) => Some ((λ x, VInt (Z.of_N (Byte.to_N x))) <$> b)
  | _ => None
  end.

(** [iter(obj)], as [zip] calls it on each argument.  Numbers, [None] and
    handles do not support iteration.  The result is [None] for the
    objects whose iteration is not described here: an [EOPatch], whose
    class is defined in eodata.py, and the objects known by their
    identity only. *)
Definition py_iter (h : gmap addr PyObj) (a : addr) : option (PyExc + Source) :=
  match h !! a with
  | Some (PyIterator _) => Some (inr (IteratorObject a))
  | Some (PyObjectRef _) => Some (inl TypeError)
  | Some (PyData VNone) | Some (PyData (VBool _)) | Some (PyData (VInt _))
  | Some (PyData (VFloat _)) => Some (inl TypeError)
  | Some (PyEOPatch _) | Some (PyData (VObject _)) | None => None
  | Some o => inr <$> (SequenceIterator <$> sequence_items o)
  end.

(** [zip( *params )]: [iter] is called on the arguments in their order, and
    the first that does not support iteration makes [zip] raise. *)
Fixpoint zip_init (h : gmap addr PyObj) (params : list addr)
    : option (PyExc + list Source) :=
  match params with
  | [] => Some (inr [])
  | p :: params' =>
    match py_iter h p with
    | None => None
    | Some (inl e) => Some (inl e)
    | Some (inr src) =>
      match zip_init h params' with
      | None => None
      | Some (inl e) => Some (inl e)
      | Some (inr srcs) => Some (inr (src :: srcs))
      end
    end
  end.

(** [next(it)] on one of the iterators of [zip]: the item and what is left,
    or [None] when the iterator is exhausted.  An iterator object of the
    store loses the item it gives. *)
Definition pull (src : Source) (h : gmap addr PyObj)
    : option (PyVal * Source * gmap addr PyObj) :=
  match src with
  | SequenceIterator [] => None
  | SequenceIterator (x :: remaining) => Some (x, SequenceIterator remaining, h)
  | IteratorObject it =>
    match h !! it with
    | Some (PyIterator (x :: remaining)) =>
      Some (VObject x, IteratorObject it, <[it := PyIterator remaining]> h)
    | _ => None
    end
  end.

(** One row of [zip]: an item is drawn from each iterator in turn, and the
    first iterator that is exhausted ends the rows; the iterators before
    it have given an item by then. *)
Fixpoint zip_pull (srcs : list Source) (h : gmap addr PyObj)
    : option (list PyVal) * list Source * gmap addr PyObj :=
  match srcs with
  | [] => (Some [], [], h)
  | src :: srcs' =>
    match pull src h with
    | None => (None, srcs, h)
    | Some (x, src', h1) =>
      let '(row, srcs'', h2) := zip_pull srcs' h1 in
      (cons x <$> row, src' :: srcs'', h2)
    end
  end.

(** [next] on the [zip] object; [zip()] of no iterable has no row. *)
Definition zip_next (srcs : list Source) (h : gmap addr PyObj)
    : option (list PyVal) * list Source * gmap addr PyObj :=
  match srcs with
  | [] => (None, [], h)
  | _ => zip_pull srcs h
  end.

Section Remote.
Context {A : Type}.

(** Whether the arguments of a call can be bound to the parameters of the
    Python function; Ray checks it when the task is submitted. *)
Variable binds : A → bool.

(** [function] is the Python function the tasks run: its result on the
    arguments of a call, [None] when it raises. *)
Variable function : A → option PyVal.

(** [ray_function.remote(...)]: arguments that do not fit the signature of
    the function raise [TypeError] in the caller; else the task is
    submitted, the cluster names a new remote object for its result, and a
    new handle naming it comes back. *)
Definition remote (args : A) (h : gmap addr PyObj) (table : gmap ref (option PyVal))
    : PyExc + addr * gmap addr PyObj * gmap ref (option PyVal) :=
  if binds args then
    let r := fresh (refs_in h) in
    let future := fresh (dom h) in
    inr (future, <[future := PyObjectRef r]> h, <[r := function args]> table)
  else inl TypeError.

(** [[ray_function.remote(...) for ... in calls]] over a list of calls: the
    handles, or the exception of the first call that raises, with the
    store and the cluster as they are by then. *)
Fixpoint remote_all (calls : list A) (h : gmap addr PyObj)
    (table : gmap ref (option PyVal))
    : (PyExc + list addr) * gmap addr PyObj * gmap ref (option PyVal) :=
  match calls with
  | [] => (inr [], h, table)
  | args :: calls' =>
    match remote args h table with
    | inl e => (inl e, h, table)
    | inr (future, h1, table1) =>
      let '(futures, h2, table2) := remote_all calls' h1 table1 in
      (sum_map id (cons future) futures, h2, table2)
    end
  end.

(** [futures = [...]; return join_ray_futures(futures)]: the handles
    collected become a new list object of the store, which is joined. *)
Definition join_submitted (ready : nat → ref → bool) (task_value : ref → option PyVal)
    (fuel : nat) (items : list addr) (h1 : gmap addr PyObj)
    (table : gmap ref (option PyVal)) (w : World) : Joined * World :=
  let futures := fresh (dom h1) in
  let w1 := {| heap := <[futures := PyList items]> h1; clock := clock w; fetched := fetched w |} in
  join_ray_futures ready (submitted_value table task_value) fuel futures w1.

(** A list comprehension of submissions over a list of calls, and the join
    of its handles. *)
Definition submit_and_join (ready : nat → ref → bool) (task_value : ref → option PyVal)
    (fuel : nat) (calls : list A) (w : World) : Joined * World :=
  match remote_all calls (heap w) ∅ with
  | (inl e, h1, _) => (Failed e, {| heap := h1; clock := clock w; fetched := fetched w |})
  | (inr items, h1, table) => join_submitted ready task_value fuel items h1 table w
  end.
End Remote.

(** [[ray_function.remote( *row ) for row in zip( *params )]]: [zip] is
    lazy, a row is drawn and its task submitted before the next row is
    drawn.  The first component is [None] while the comprehension is still
    running when the fuel is used up. *)
Fixpoint submit_rows (binds : nat → bool) (function : list PyVal → option PyVal)
    (fuel : nat) (srcs : list Source) (h : gmap addr PyObj)
    (table : gmap ref (option PyVal))
    : option (PyExc + list addr) * gmap addr PyObj * gmap ref (option PyVal) :=
  match fuel with
  | 0 => (None, h, table)
  | S fuel' =>
    match zip_next srcs h with
    | (None, _, h1) => (Some (inr []), h1, table)
    | (Some row, srcs', h1) =>
      match remote (λ row, binds (length row)) function row h1 table with
      | inl e => (Some (inl e), h1, table)
      | inr (future, h2, table2) =>
        let '(outcome, h3, table3) := submit_rows binds function fuel' srcs' h2 table2 in
        (sum_map id (cons future) <$> outcome, h3, table3)
      end
    end
  end.

(** [parallelize_with_ray(function, *params)] on the objects [params] of
    the store.  [connected] tells whether
    [ray.init(address="auto", ignore_reinit_error=True)] finds a running
    cluster or an existing connection; without one it raises
    [ConnectionError].  [binds n] tells whether [function] can be called
    with [n] positional arguments.  The result is [None] when a parameter
    is an object whose iteration is not described here. *)
Definition parallelize_with_ray (ready : nat → ref → bool) (task_value : ref → option PyVal)
    (fuel : nat) (connected : bool) (binds : nat → bool)
    (function : list PyVal → option PyVal) (params : list addr) (w : World)
    : option (Joined * World) :=
  if connected then
    match zip_init (heap w) params with
    | None => None
    | Some (inl e) => Some (Failed e, w)
    | Some (inr srcs) =>
      match submit_rows binds function fuel srcs (heap w) ∅ with
      | (None, h1, _) =>
        Some (Running, {| heap := h1; clock := clock w; fetched := fetched w |})
      | (Some (inl e), h1, _) =>
        Some (Failed e, {| heap := h1; clock := clock w; fetched := fetched w |})
      | (Some (inr items), h1, table) =>
        Some (join_submitted ready task_value fuel items h1 table w)
      end
    end
  else Some (Failed ConnectionError, w).

(** [RayExecutor._run_execution(processing_args)].  [_execute_workflow] is
    the method of [EOExecutor] a worker runs in [_ray_workflow_executor];
    eoexecution.py is not among the sources and the method is a
    parameter.  [_ray_workflow_executor] has one parameter and is called
    with one argument, which always binds. *)
Definition RayExecutor_run_execution (ready : nat → ref → bool)
    (task_value : ref → option PyVal) (_execute_workflow : PyVal → option PyVal)
    (fuel : nat) (processing_args : list PyVal) (w : World) : Joined * World :=
  submit_and_join (λ _, true) _execute_workflow ready task_value fuel processing_args w.

End Ray.

(** ** visualization/eoexecutor_visualization.py *)

Module EOExecutorVisualization.

(** [s.replace(old, new)] when [old] is a single character: every
    occurrence is replaced, from left to right. *)
Fixpoint replace_char (old : Ascii.ascii) (new : string) (s : string) : string :=
  match s with
  | EmptyString => EmptyString
  | String c s' =>
    if Ascii.eqb c old then (new ++ replace_char old new s')%string
    else String c (replace_char old new s')
  end.

(** [value.replace('<', '&lt;').replace('>', '&gt;')] *)
Definition escape (value : string) : string :=
  replace_char ">"%char "&gt;" (replace_char "<"%char "&lt;" value).

(** What [_get_node_descriptions] reads of a node: [node.name], [node.uid]
    and the items of [node.task.private_task_config.init_args], in the
    order of the dictionary. *)
Record Node := {
  node_name : string;
  node_uid : string;
  init_args : list (string * string)
}.

(** An entry of the list [_get_node_descriptions] returns, a dictionary
    with the keys ['name'], ['uid'] and ['args']. *)
Record Description := {
  name : string;
  uid : string;
  args : list (string * string)
}.

Section Descriptions.
(** [node.get_custom_name(number)], as a function of the name of the node
    and the number; eonode.py is not among the sources. *)
Variable get_custom_name : string → nat → string.

(** The body of the loop for one node, with the count the dictionary
    [name_counts] gives for its name. *)
Definition describe (node : Node) (count : nat) : Description :=
  {| name := (get_custom_name (node_name node) count ++ " (" ++ node_uid node ++ ")")%string;
     uid := node_uid node;
     args := (λ kv, (kv.1, escape kv.2)) <$> init_args node |}.

(** The loop over the nodes; [name_counts] is the [defaultdict] with
    default [0]. *)
Fixpoint describe_all (nodes : list Node) (name_counts : gmap string nat)
    : list Description :=
  match nodes with
  | [] => []
  | node :: nodes' =>
    let count := default 0 (name_counts !! node_name node) in
    describe node count
      :: describe_all nodes' (<[node_name node := S count]> name_counts)
  end.

(** [EOExecutorVisualization._get_node_descriptions()], on the nodes
    [self.eoexecutor.workflow.get_nodes()] gives. *)
Definition _get_node_descriptions (nodes : list Node) : list Description :=
  describe_all nodes ∅.
End Descriptions.

(** The number of entries of [l] equal to [x]. *)
Definition occurrences (x : string) (l : list string) : nat :=
  length (filter (λ y, y = x) l).

End EOExecutorVisualization.

(** ** A small cluster to run the joiner on *)

Module Scenario.
(** The wait at which a remote object is first found complete: of the
    five objects [0..4], object [3] is the last. *)
Definition due (r : ref) : nat :=
  match r with
  | 0 => 0
  | 3 => 4
  | 4 => 2
  | _ => 1
  end.

Definition ready (k : nat) (r : ref) : bool := bool_decide (due r ≤ k).

Definition task_value (r : ref) : option PyVal := Some (VInt (100 + Z.of_nat r)).

(** Object [1] is a list of five handles, object [2] a tuple of two of
    them, object [3] a list that holds the same handle twice. *)
Definition store : gmap addr PyObj :=
  list_to_map
    [(1, PyList [10; 11; 12; 13; 14]); (2, PyTuple [10; 11]); (3, PyList [10; 10]);
     (10, PyObjectRef 0); (11, PyObjectRef 1); (12, PyObjectRef 2);
     (13, PyObjectRef 3); (14, PyObjectRef 4)].

Definition world : Ray.World :=
  {| Ray.heap := store; Ray.clock := 0; Ray.fetched := [] |}.
End Scenario.

(** ** Sample inputs *)

Module Examples.
(** The classes of three objects: object [7] is an empty container of a
    class that defines [__len__] only, object [8] an array of several
    elements, whose [__bool__] raises [ValueError], object [9] a number of
    a class whose [__bool__] returns [True]; the other objects define
    neither method. *)
Definition hooks (a : addr) : TruthHooks :=
  match a with
  | 7 => {| bool_hook := Undefined; len_hook := Returns (Some 0%Z) |}
  | 8 => {| bool_hook := Raises ValueError; len_hook := Returns (Some 3%Z) |}
  | 9 => {| bool_hook := Returns (Some true); len_hook := Undefined |}
  | _ => {| bool_hook := Undefined; len_hook := Undefined |}
  end.

(** The small cluster when the task of object [2] raised. *)
Definition failing_task_value (r : ref) : option PyVal :=
  if decide (r = 2) then None else Scenario.task_value r.

(** A function of two integers that returns their sum and raises on
    anything else. *)
Definition add (row : list PyVal) : option PyVal :=
  match row with
  | [VInt a; VInt b] => Some (VInt (a + b))
  | _ => None
  end.

(** [add] has two parameters. *)
Definition add_binds (n : nat) : bool := bool_decide (n = 2).

(** A store with the parameters of parallel calls: object [20] is a list
    of three integers, object [21] a tuple of two, object [22] a list with
    a string where [add] wants an integer. *)
Definition params_store : gmap addr PyObj :=
  list_to_map
    [(20, PyData (VList [VInt 1; VInt 2; VInt 3]));
     (21, PyData (VTuple [VInt 10; VInt 20]));
     (22, PyData (VList [VInt 1; VStr "two"; VInt 3]))].

Definition params_world : Ray.World :=
  {| Ray.heap := params_store; Ray.clock := 0; Ray.fetched := [] |}.

(** [add] on two objects of the store of [iterators_world] below, where
    object [30 + n] stands for the integer [n]. *)
Definition add_objects (row : list PyVal) : option PyVal :=
  match row with
  | [VObject a; VObject b] => Some (VInt (Z.of_nat (a - 30) + Z.of_nat (b - 30)))
  | _ => None
  end.

(** A store with two iterators: object [40] has three items left, object
    [41] two. *)
Definition iterators_store : gmap addr PyObj :=
  list_to_map
    [(31, PyData (VInt 1)); (32, PyData (VInt 2)); (33, PyData (VInt 3));
     (34, PyData (VInt 4)); (35, PyData (VInt 5));
     (40, PyIterator [31; 32; 33]); (41, PyIterator [34; 35])].

Definition iterators_world : Ray.World :=
  {| Ray.heap := iterators_store; Ray.clock := 0; Ray.fetched := [] |}.

(** A workflow that doubles its argument. *)
Definition double (args : PyVal) : option PyVal :=
  match args with
  | VInt a => Some (VInt (2 * a))
  | _ => None
  end.

(** An array of 3 rows and 5 columns. *)
Definition image : Other.Array Z :=
  {| Other.shape := [3; 5];
     Other.cell index :=
       match index with
       | [i; j] => (10 * Z.of_nat i + Z.of_nat j)%Z
       | _ => 0%Z
       end |}.

(** A conversion of a Python integer to an array of 8-bit signed integers
    that wraps around. *)
Definition int8 (n : Z) : PyExc + Z := inr ((n + 128) mod 256 - 128)%Z.

(** The nodes of a workflow in which two nodes share a name. *)
Definition nodes : list EOExecutorVisualization.Node :=
  [ {| EOExecutorVisualization.node_name := "LoadTask";
       EOExecutorVisualization.node_uid := "LoadTask-1";
       EOExecutorVisualization.init_args := [("path"%string, "'<tmp>'"%string)] |};
    {| EOExecutorVisualization.node_name := "MapTask";
       EOExecutorVisualization.node_uid := "MapTask-1";
       EOExecutorVisualization.init_args := [("factor"%string, "2"%string)] |};
    {| EOExecutorVisualization.node_name := "LoadTask";
       EOExecutorVisualization.node_uid := "LoadTask-2";
       EOExecutorVisualization.init_args := [] |} ].

(** A numbering of the names: the number is appended when it is not zero. *)
Definition numbered (name : string) (number : nat) : string :=
  match number with
  | 0 => name
  | _ => (name ++ "_" ++ String (Ascii.ascii_of_nat (48 + number)) EmptyString)%string
  end.
End Examples.

(** * Properties *)

Import EOWorkflowTasks Ray.

(** ** Workflow tasks *)

Example generate_uid_example :
  Other.generate_uid "output" "0123456789abcdef0123000000000000"
    "fedcba9876543210fedcba9876543210"
  = "output-0123456789abcdef0123-fedcba987654"%string.
Proof. reflexivity. Qed.

(** The open question of the specification: a zero override is dropped for
    the default. *)
Example input_task_zero_override hooks :
  InputTask_execute hooks (InputTask_init (Some (VInt 5))) (Some (VInt 0)) = inr (VInt 5)
  ∧ InputTask_execute hooks (InputTask_init (Some (VInt 5))) (Some (VInt 7)) = inr (VInt 7)
  ∧ InputTask_execute hooks (InputTask_init None) None = inr VNone.
Proof. done. Qed.

(** The truth test agrees with the words of the language reference: it
    gives [False] on the values considered false, [True] on the values
    considered true, and raises on all the others. *)
Lemma py_bool_Falsy hooks o : Falsy hooks o ↔ py_bool hooks o = inr false.
Proof.
  split.
  - destruct 1 as [| | | | | | | | | |a Hb|a Hb Hl]; try done;
      simpl; unfold object_truth; rewrite Hb; [done|]. by rewrite Hl.
  - destruct o as [|[]|n|[]|[|]|[|]|[|]|[|]|[|]|[|]|a]; simpl; try done;
      try (by intros _; constructor).
    + destruct (Z.eqb_spec n 0) as [->|]; [constructor|done].
    + unfold object_truth.
      destruct (bool_hook (hooks a)) as [|[[]|]|] eqn:Hb; try done.
      * destruct (len_hook (hooks a)) as [|[n|]|] eqn:Hl; try done.
        destruct (Z.ltb_spec n 0); [done|]. destruct (Z.ltb_spec maxsize n); [done|].
        destruct (Z.eqb_spec n 0) as [->|]; [|done]. intros _. by apply Falsy_len_returns_zero.
      * intros _. by apply Falsy_bool_returns_False.
Qed.

Lemma py_bool_Truthy hooks o : Truthy hooks o ↔ py_bool hooks o = inr true.
Proof.
  split.
  - destruct 1 as [|n Hn| | | | | | | | | |a Hb Hl|a Hb|a n Hb Hl Hn]; try done; simpl.
    + by destruct (Z.eqb_spec n 0).
    + unfold object_truth. by rewrite Hb, Hl.
    + unfold object_truth. by rewrite Hb.
    + unfold object_truth. rewrite Hb, Hl.
      destruct (Z.ltb_spec n 0); [lia|]. destruct (Z.ltb_spec maxsize n); [lia|].
      destruct (Z.eqb_spec n 0); [lia|done].
  - destruct o as [|[]|n|[]|[|]|[|]|[|]|[|]|[|]|[|]|a]; simpl; try done;
      try (by intros _; constructor).
    + destruct (Z.eqb_spec n 0) as [->|]; [done|]. intros _. by constructor.
    + unfold object_truth.
      destruct (bool_hook (hooks a)) as [|[[]|]|] eqn:Hb; try done.
      * destruct (len_hook (hooks a)) as [|[n|]|] eqn:Hl; try done.
        -- intros _. by apply Truthy_plain_object.
        -- destruct (Z.ltb_spec n 0); [done|]. destruct (Z.ltb_spec maxsize n); [done|].
           destruct (Z.eqb_spec n 0) as [->|]; [done|]. intros _.
           apply (Truthy_len_returns_positive hooks a n); [done..|lia].
      * intros _. by apply Truthy_bool_returns_True.
Qed.

(** C5: an [InputTask] built with default value [v] returns [v] when the
    override is falsy and the override itself when it is truthy; with no
    override it returns [v]; [None], [False], zero, the empty string and
    the empty containers all count as no override.  An override is falsy,
    truthy, or such that its truth test raises, and then [execute] raises
    the same exception. *)
Theorem C5_input_task_execute (hooks : addr → TruthHooks) (v o : PyVal) :
  let task := InputTask_init (Some v) in
  (Falsy hooks o → InputTask_execute hooks task (Some o) = inr v)
  ∧ (Truthy hooks o → InputTask_execute hooks task (Some o) = inr o)
  ∧ InputTask_execute hooks task None = inr v
  ∧ Forall (λ falsy, InputTask_execute hooks task (Some falsy) = inr v)
      [VNone; VBool false; VInt 0; VFloat (FZero false); VFloat (FZero true);
       VStr EmptyString; VBytes []; VList []; VTuple []; VDict []; VSet []]
  ∧ (Falsy hooks o ∨ Truthy hooks o
     ∨ ∃ e, py_bool hooks o = inl e ∧ InputTask_execute hooks task (Some o) = inl e)
  ∧ ¬ (Falsy hooks o ∧ Truthy hooks o).
Proof.
  intros task. unfold InputTask_execute, py_or. simpl.
  split_and!.
  - intros Ho%py_bool_Falsy. by rewrite Ho.
  - intros Ho%py_bool_Truthy. by rewrite Ho.
  - done.
  - repeat constructor.
  - destruct (py_bool hooks o) as [e|[]] eqn:Ho.
    + right. right. by exists e.
    + right. left. by apply py_bool_Truthy.
    + left. by apply py_bool_Falsy.
  - intros [Hf%py_bool_Falsy Ht%py_bool_Truthy]. congruence.
Qed.

Lemma generate_uid_prefix prefix u1 u4 :
  String.prefix (prefix ++ "-")%string (Other.generate_uid prefix u1 u4) = true.
Proof.
  unfold Other.generate_uid.
  generalize (Other.drop_last 12 u1 ++ "-" ++ Other.take_first 12 u4)%string as rest.
  induction prefix as [|c prefix IH]; intros rest; simpl.
  - by destruct rest.
  - destruct (Ascii.ascii_dec c c); [apply IH|done].
Qed.

Lemma read_name_replicate k task : read_name k task = replicate k (_name task).
Proof. induction k as [|k IH]; simpl; [done|by rewrite IH]. Qed.

(** C10: the name of an [OutputTask] is never empty; built without a name
    (or with the empty one) it is a generated identifier starting with
    [output-], built with a name [n] it is [n]; every read of the property
    gives the same string. *)
Theorem C10_output_task_name (name : option string) (fs : FeatureSpec)
    (uuid1_hex uuid4_hex : string) (k : nat) :
  let task := OutputTask_init name fs uuid1_hex uuid4_hex in
  let n := (OutputTask_name task).1 in
  n ≠ EmptyString
  ∧ match name with
    | Some s => if String.eqb s EmptyString then String.prefix "output-"%string n = true else n = s
    | None => String.prefix "output-"%string n = true
    end
  ∧ read_name k task = replicate k n.
Proof.
  intros task n. subst n task. rewrite read_name_replicate. simpl.
  pose proof (generate_uid_prefix "output"%string uuid1_hex uuid4_hex) as Hp.
  destruct name as [s|]; [destruct (String.eqb s EmptyString) eqn:Hs|].
  - split_and!; [|done..]. by intros Hn; rewrite Hn in Hp.
  - split_and!; [|done..]. intros ->. by rewrite String.eqb_refl in Hs.
  - split_and!; [|done..]. by intros Hn; rewrite Hn in Hp.
Qed.

(** C6: on an [EOPatch] an [OutputTask] returns a new object, a patch that
    holds exactly the features of the original that the task keeps, each
    pointing to the object the original points to, and the original stays
    as it is; on anything else it returns the very object it was given and
    the store is untouched. *)
Theorem C6_output_task_execute (task : OutputTask) (data : addr) (h : gmap addr PyObj) :
  match h !! data with
  | Some (PyEOPatch patch) =>
    ∃ out copy,
      OutputTask_execute task data h = (out, <[out := PyEOPatch copy]> h)
      ∧ h !! out = None
      ∧ out ≠ data
      ∧ (∀ k a, copy !! k = Some a ↔ patch !! k = Some a ∧ selects (features task) k)
  | _ => OutputTask_execute task data h = (data, h)
  end.
Proof.
  unfold OutputTask_execute.
  destruct (h !! data) as [[| | | |patch|]|] eqn:Hd; try done.
  unfold EOPatch_copy. eexists _, _. split; [done|].
  assert (h !! fresh (dom h) = None) as Hfresh
    by (apply not_elem_of_dom, is_fresh).
  split_and!; [done| |].
  - intros Heq. rewrite Heq in Hfresh. congruence.
  - intros k a. by rewrite map_lookup_filter_Some.
Qed.

(** ** RayExecutor *)

(** C4: without an initialized cluster [run] raises and never reaches the
    dispatching [run] of the parent class, so the executor's state is as
    before; with a cluster it first asks for the available resources and
    then dispatches with the reported CPU capacity as the worker count. *)
Theorem C4_ray_executor_run {capacity Results State : Type}
    (EOExecutor_run : option capacity → bool → State → (PyExc + Results) * State)
    (ray : Runtime capacity) (s : State) :
  let '(calls, outcome) := RayExecutor_run EOExecutor_run ray s in
  if is_initialized ray then
    calls = [CallIsInitialized; CallAvailableResources;
             CallSuperRun (available_resources ray !! "CPU"%string) true]
    ∧ outcome = EOExecutor_run (available_resources ray !! "CPU"%string) true s
  else
    outcome = (inl RuntimeError, s)
    ∧ ∀ workers multiprocess, CallSuperRun workers multiprocess ∉ calls.
Proof.
  unfold RayExecutor_run. destruct (is_initialized ray); simpl; [done|].
  split; [done|]. intros workers mp Hin.
  apply list_elem_of_singleton in Hin. discriminate.
Qed.

(** ** The joiner: what it does to the object store *)

Section JoinerStore.
Variable ready : nat → ref → bool.
Variable task_value : ref → option PyVal.

Lemma ray_wait_world w futures r w' :
  ray_wait ready w futures = (r, w') →
  heap w' = heap w ∧ clock w' = S (clock w) ∧ fetched w' = fetched w.
Proof.
  unfold ray_wait. intros Hw.
  destruct (mapM _ futures); [case_decide|]; by simplify_eq.
Qed.

Lemma ray_get_world w dn r w' :
  ray_get task_value w dn = (r, w') → heap w' = heap w ∧ clock w' = clock w.
Proof. unfold ray_get. intros Hg. destruct (mapM _ dn); by simplify_eq. Qed.

Lemma yield_item_world m futures future result pending pbar w :
  (yield_item m futures future result pending pbar w).2 = w.
Proof. unfold yield_item. by destruct (m !! future). Qed.

Lemma yield_item_not_created m futures future result pending pbar w arg :
  (yield_item m futures future result pending pbar w).1.2 ≠ Created arg.
Proof. unfold yield_item. by destruct (m !! future). Qed.

Lemma poll_loop_heap fuel m futures pbar w :
  heap (poll_loop ready task_value fuel m futures pbar w).2 = heap w.
Proof.
  revert futures pbar w. induction fuel as [|fuel IH]; intros [|a futures] pbar w; simpl; try done.
  destruct (ray_wait _ _ _) as [[e|[dn rest]] w1] eqn:Hw;
    apply ray_wait_world in Hw as (Hh1 & _ & _); [by simpl|].
  destruct (ray_get _ _ _) as [[e|values] w2] eqn:Hg;
    apply ray_get_world in Hg as (Hh2 & _); [simpl; congruence|].
  destruct (zip dn values) as [|[future result] pending].
  - rewrite IH. congruence.
  - rewrite yield_item_world. congruence.
Qed.

Lemma poll_loop_not_created fuel m futures pbar w arg :
  (poll_loop ready task_value fuel m futures pbar w).1.2 ≠ Created arg.
Proof.
  revert futures pbar w. induction fuel as [|fuel IH]; intros [|a futures] pbar w; simpl; try done.
  destruct (ray_wait _ _ _) as [[e|[dn rest]] w1]; [done|].
  destruct (ray_get _ _ _) as [[e|values] w2]; [done|].
  destruct (zip dn values) as [|[future result] pending]; [apply IH|].
  apply yield_item_not_created.
Qed.

(** The store once the generator has been resumed for the first time. *)
Lemma gen_next_heap fuel g w :
  heap (gen_next ready task_value fuel g w).2 =
  match g with
  | Created arg =>
    match heap w !! arg with
    | Some (PyList _) => <[arg := PyList []]> (heap w)
    | _ => heap w
    end
  | _ => heap w
  end.
Proof.
  destruct g as [arg|m futures [|[future result] pending] pbar|]; simpl; try done.
  - destruct (heap w !! arg) as [[items| | | | |]|]; try done.
    by rewrite poll_loop_heap.
  - apply poll_loop_heap.
  - by rewrite yield_item_world.
Qed.

Lemma gen_next_not_created fuel g w arg :
  (gen_next ready task_value fuel g w).1.2 ≠ Created arg.
Proof.
  destruct g as [arg'|m futures [|[future result] pending] pbar|]; simpl; try done.
  - destruct (heap w !! arg') as [[items| | | | |]|]; try done.
    apply poll_loop_not_created.
  - apply poll_loop_not_created.
  - apply yield_item_not_created.
Qed.

Lemma emitted_heap_started fuel g w :
  (∀ arg, g ≠ Created arg) →
  heap (emitted ready task_value fuel g w).2 = heap w.
Proof.
  revert g w. induction fuel as [|fuel IH]; intros g w Hg; simpl; [done|].
  pose proof (gen_next_heap fuel g w) as Hh.
  pose proof (gen_next_not_created fuel g w) as Hn.
  destruct (gen_next _ _ _ _ _) as [[[item| |e|] g'] w'] eqn:Hnext; simpl in *;
    (assert (heap w' = heap w) as Hw' by (destruct g; naive_solver)); try done.
  specialize (IH g' w' Hn).
  destruct (emitted _ _ _ _ _) as [[items e] w'']. simpl in *. congruence.
Qed.

Lemma join_loop_heap_started fuel g results w :
  (∀ arg, g ≠ Created arg) →
  heap (join_loop ready task_value fuel g results w).2 = heap w.
Proof.
  revert g results w. induction fuel as [|fuel IH]; intros g results w Hg; simpl; [done|].
  pose proof (gen_next_heap fuel g w) as Hh.
  pose proof (gen_next_not_created fuel g w) as Hn.
  destruct (gen_next _ _ _ _ _) as [[[[position result]| |e|] g'] w'] eqn:Hnext; simpl in *;
    (assert (heap w' = heap w) as Hw' by (destruct g; naive_solver)); try done.
  destruct (set_item results position result) as [results'|]; [|done].
  rewrite IH; done.
Qed.

(** C3: once the generator has been resumed, and once the eager call has
    been entered, the list object the caller passed is empty and every
    other object of the store is what it was; this stays so up to the end
    of the iteration and of the call, however they end. *)
Theorem C3_joiners_empty_the_given_list (fuel : nat) (futures : addr)
    (items : list addr) (w : World) :
  heap w !! futures = Some (PyList items) →
  let emptied := <[futures := PyList []]> (heap w) in
  heap (gen_next ready task_value fuel (join_ray_futures_iter futures w).1 w).2 = emptied
  ∧ heap (emitted ready task_value (S fuel) (join_ray_futures_iter futures w).1 w).2 = emptied
  ∧ heap (join_ray_futures ready task_value (S fuel) futures w).2 = emptied
  ∧ emptied !! futures = Some (PyList [])
  ∧ ∀ other, other ≠ futures → emptied !! other = heap w !! other.
Proof.
  intros Hl emptied. unfold join_ray_futures_iter. simpl fst.
  assert (heap (gen_next ready task_value fuel (Created futures) w).2 = emptied) as Hstart
    by (by rewrite gen_next_heap, Hl).
  split_and!.
  - done.
  - cbn [emitted].
    pose proof (gen_next_not_created fuel (Created futures) w) as Hn.
    destruct (gen_next _ _ _ _ _) as [[[item| |e|] g'] w'] eqn:Hnext; simpl in *; try done.
    pose proof (emitted_heap_started fuel g' w' Hn) as He.
    destruct (emitted _ _ _ _ _) as [[its e] w'']. simpl in *. congruence.
  - unfold join_ray_futures, py_len, join_ray_futures_iter. rewrite Hl. cbn [join_loop].
    pose proof (gen_next_not_created fuel (Created futures) w) as Hn.
    destruct (gen_next _ _ _ _ _) as [[[[position result]| |e|] g'] w'] eqn:Hnext;
      simpl in *; try done.
    destruct (set_item _ position result) as [results'|]; [|done].
    rewrite join_loop_heap_started; done.
  - apply lookup_insert_eq.
  - intros other Hne. by apply lookup_insert_ne.
Qed.

End JoinerStore.

(** ** The joiner: runs *)

Section JoinerRuns.
Variable ready : nat → ref → bool.
Variable task_value : ref → option PyVal.

Lemma filter_partition_length {A} (P : A → Prop) `{∀ x, Decision (P x)} (l : list A) :
  length (filter P l) + length (filter (λ x, ¬ P x) l) = length l.
Proof. rewrite <-length_app. by rewrite filter_app_complement. Qed.

Lemma filter_none_complement {A} (P : A → Prop) `{∀ x, Decision (P x)} (l : list A) :
  filter P l = [] → filter (λ x, ¬ P x) l = l.
Proof.
  intros Hnil. induction l as [|x l IH]; [done|].
  rewrite filter_cons in Hnil. rewrite filter_cons.
  destruct (decide (P x)) as [Hx|Hx]; [done|].
  destruct (decide (¬ P x)); [|done]. by rewrite IH.
Qed.

(** What one bounded wait returns. *)
Lemma ray_wait_inr w futures dn rest w1 :
  ray_wait ready w futures = (inr (dn, rest), w1) →
  dn = filter (λ a, reported ready w a = true) futures
  ∧ rest = filter (λ a, reported ready w a ≠ true) futures
  ∧ distinct_futures (heap w) futures.
Proof.
  unfold ray_wait, distinct_futures. intros Hw.
  destruct (mapM _ futures) as [refs|] eqn:Hrefs; [|done].
  case_decide; [|done]. simplify_eq. eauto.
Qed.

Lemma ray_get_inr w dn values w2 :
  ray_get task_value w dn = (inr values, w2) →
  Forall2 (λ a v, future_value task_value (heap w) a = Some v) dn values
  ∧ heap w2 = heap w ∧ clock w2 = clock w ∧ fetched w2 = fetched w ++ dn.
Proof.
  unfold ray_get. intros Hg.
  destruct (mapM _ dn) as [vs|] eqn:Hvs; [|done]. simplify_eq.
  by apply mapM_Some in Hvs.
Qed.

Lemma poll_loop_cons fuel m a l pbar w :
  poll_loop ready task_value (S fuel) m (a :: l) pbar w =
  match ray_wait ready w (a :: l) with
  | (inl e, w1) => (Raise e, Closed, w1)
  | (inr (dn, rest), w1) =>
    match ray_get task_value w1 dn with
    | (inl e, w2) => (Raise e, Closed, w2)
    | (inr values, w2) =>
      match zip dn values with
      | [] => poll_loop ready task_value fuel m rest pbar w2
      | (future, result) :: pending => yield_item m rest future result pending pbar w2
      end
    end
  end.
Proof. done. Qed.

(** A poll that is bound to find some tracked future complete within
    [d] further waits ends with something other than [Polling], and if it
    yields, fewer futures are left to emit. *)
Lemma poll_progress (d : nat) m futures pbar w :
  futures ≠ [] →
  (distinct_futures (heap w) futures →
   ∃ a r, a ∈ futures ∧ deref_future (heap w) a = Some r ∧ ready (clock w + d) r = true) →
  ∃ res,
    (∀ fuel, d < fuel → poll_loop ready task_value fuel m futures pbar w = res)
    ∧ match res with
      | (Yield _, Suspended m' rest pend _, w1) =>
        m' = m ∧ sublist rest futures
        ∧ length rest + length pend < length futures ∧ heap w1 = heap w
      | (Yield _, _, _) | (Polling, _, _) => False
      | _ => True
      end.
Proof.
  revert w. induction d as [|d IH]; intros w Hne Hev;
    (destruct futures as [|a0 l]; [done|]);
    destruct (ray_wait ready w (a0 :: l)) as [[e|[dn rest]] w1] eqn:Hw.
  1,3: exists (Raise e, Closed, w1); split; [|done];
    intros [|fuel] ?; [lia|]; by rewrite poll_loop_cons, Hw.
  all: pose proof Hw as Hw'; apply ray_wait_inr in Hw' as (Hdn & Hrest & Hdist);
    apply ray_wait_world in Hw as Hw1; destruct Hw1 as (Hh1 & Hc1 & Hf1);
    destruct (ray_get task_value w1 dn) as [[e|values] w2] eqn:Hg.
  1,3: exists (Raise e, Closed, w2); split; [|done];
    intros [|fuel] ?; [lia|]; by rewrite poll_loop_cons, Hw, Hg.
  all: pose proof Hg as Hg'; apply ray_get_inr in Hg' as (Hvals & Hh2 & Hc2 & Hf2);
    destruct Hvals as [|a v dn' values' Hav Hvals].
  - (* nothing reported although some future is due now *)
    destruct (Hev Hdist) as (a & r & Hin & Hr & Hready).
    assert (a ∈ filter (λ a, reported ready w a = true) (a0 :: l)) as Hin'.
    { apply list_elem_of_filter. split; [|done].
      unfold reported. rewrite Hr. by rewrite Nat.add_0_r in Hready. }
    rewrite <-Hdn in Hin'. by apply elem_of_nil in Hin'.
  - exists (yield_item m rest a v (zip dn' values') pbar w2). split.
    + intros [|fuel] ?; [lia|]. by rewrite poll_loop_cons, Hw, Hg.
    + unfold yield_item. destruct (m !! a); [|done].
      split_and!; [done| | |congruence].
      * rewrite Hrest. apply sublist_filter.
      * pose proof (filter_partition_length (λ a, reported ready w a = true) (a0 :: l)) as Hlen.
        rewrite <-Hdn, <-Hrest in Hlen. rewrite length_zip. simpl in *. lia.
  - (* nothing reported: the same futures are polled again *)
    assert (rest = a0 :: l) as ->.
    { rewrite Hrest. apply filter_none_complement. by rewrite <-Hdn. }
    destruct (IH w2) as (res & Hres & Hshape); [done| |].
    { rewrite Hh2, Hh1, Hc2, Hc1. intros Hd. destruct (Hev Hdist) as (a & r & ? & ? & Hready).
      exists a, r. split_and!; [done..|].
      by replace (S (clock w) + d) with (clock w + S d) by lia. }
    exists res. split.
    + intros [|fuel] ?; [lia|]. rewrite poll_loop_cons, Hw, Hg. simpl. apply Hres. lia.
    + destruct res as [[[item| |e|] [|m' rest' pend pb|]] w3]; try done.
      rewrite Hh2, Hh1 in Hshape. done.
  - exists (yield_item m rest a v (zip dn' values') pbar w2). split.
    + intros [|fuel] ?; [lia|]. by rewrite poll_loop_cons, Hw, Hg.
    + unfold yield_item. destruct (m !! a); [|done].
      split_and!; [done| | |congruence].
      * rewrite Hrest. apply sublist_filter.
      * pose proof (filter_partition_length (λ a, reported ready w a = true) (a0 :: l)) as Hlen.
        rewrite <-Hdn, <-Hrest in Hlen. rewrite length_zip. simpl in *. lia.
Qed.

Lemma eventually_reported_sublist h l1 l2 :
  sublist l1 l2 → eventually_reported ready h l2 → eventually_reported ready h l1.
Proof.
  intros Hsub Hev a r Hin. apply Hev.
  by apply (sublist_subseteq _ _ Hsub).
Qed.

Lemma distinct_futures_head h a l :
  distinct_futures h (a :: l) → is_Some (deref_future h a).
Proof.
  intros (refs & Hrefs & _). apply mapM_Some in Hrefs.
  inversion Hrefs; simplify_eq. eauto.
Qed.

(** Under the fairness hypothesis a consumer of the generator reaches the
    end of the iteration: with enough fuel the run no longer depends on
    the fuel and is not left unfinished. *)
Lemma emitted_terminates (n : nat) m futures pending pbar w :
  length futures + length pending < n →
  eventually_reported ready (heap w) futures →
  ∃ fuel0 res,
    res.1.2 ≠ Unfinished
    ∧ ∀ fuel, fuel0 ≤ fuel →
        emitted ready task_value fuel (Suspended m futures pending pbar) w = res.
Proof.
  revert futures pending pbar w.
  induction n as [|n IH]; intros futures pending pbar w Hlen Hev; [lia|].
  destruct pending as [|[a v] pending].
  - destruct futures as [|a0 l].
    { exists 1, ([], Exhausted, w). split; [done|].
      intros [|fuel] ?; [lia|]. by destruct fuel. }
    assert (∃ d, distinct_futures (heap w) (a0 :: l) →
              ∃ a r, a ∈ a0 :: l ∧ deref_future (heap w) a = Some r
                     ∧ ready (clock w + d) r = true) as [d Hd].
    { destruct (deref_future (heap w) a0) as [r0|] eqn:Hr0.
      - destruct (Hev a0 r0 ltac:(left) Hr0 (clock w)) as (k' & Hk' & Hready).
        exists (k' - clock w). intros _. exists a0, r0.
        split_and!; [left|done|]. by replace (clock w + (k' - clock w)) with k' by lia.
      - exists 0. intros Hdist%distinct_futures_head. rewrite Hr0 in Hdist.
        by destruct Hdist. }
    destruct (poll_progress d m (a0 :: l) pbar w ltac:(done) Hd) as (res & Hres & Hshape).
    destruct res as [[[item| |e|] g'] w1].
    + destruct g' as [|m' rest pend pb|]; [done| |done].
      destruct Hshape as (-> & Hsub & Hless & Hh).
      destruct (IH rest pend pb w1) as (fuel0 & [[items e] w'] & Hfin & Hrun).
      { simpl in *. lia. }
      { rewrite Hh. by eapply eventually_reported_sublist. }
      exists (S (max (S d) fuel0)), (item :: items, e, w'). split; [done|].
      intros [|fuel] ?; [lia|]. cbn [emitted gen_next].
      rewrite Hres by lia. by rewrite Hrun by lia.
    + exists (S (S d)), ([], Exhausted, w1). split; [done|].
      intros [|fuel] ?; [lia|]. cbn [emitted gen_next]. by rewrite Hres by lia.
    + exists (S (S d)), ([], Raised e, w1). split; [done|].
      intros [|fuel] ?; [lia|]. cbn [emitted gen_next]. by rewrite Hres by lia.
    + done.
  - destruct (m !! a) as [position|] eqn:Hm.
    + destruct (IH futures pending (S pbar) w) as (fuel0 & [[items e] w'] & Hfin & Hrun);
        [simpl in *; lia|done|].
      exists (S fuel0), ((position, v) :: items, e, w'). split; [done|].
      intros [|fuel] ?; [lia|]. cbn [emitted gen_next]. unfold yield_item. rewrite Hm.
      by rewrite Hrun by lia.
    + exists 1, ([], Raised KeyError, w). split; [done|].
      intros [|fuel] ?; [lia|]. cbn [emitted gen_next]. unfold yield_item. by rewrite Hm.
Qed.

(** *** The run of a well-formed list *)

Lemma mapM_Some_fmap {A B} (f : A → option B) l k :
  mapM f l = Some k ↔ f <$> l = Some <$> k.
Proof.
  rewrite mapM_Some. split.
  - induction 1; csimpl; congruence.
  - revert k. induction l as [|x l IH]; intros [|y k] Heq; simplify_eq/=; constructor; auto.
Qed.

Lemma distinct_futures_alt h l :
  distinct_futures h l ↔
  Forall (λ a, is_Some (deref_future h a)) l ∧ NoDup (deref_future h <$> l).
Proof.
  unfold distinct_futures. split.
  - intros (refs & Hrefs & Hnd). split.
    + by apply (mapM_is_Some_1 (deref_future h)); rewrite Hrefs.
    + apply mapM_Some_fmap in Hrefs. rewrite Hrefs. by apply (NoDup_fmap_2 Some).
  - intros [Hall Hnd]. destruct (mapM_is_Some_2 (deref_future h) l Hall) as [refs Hrefs].
    exists refs. split; [done|]. apply mapM_Some_fmap in Hrefs.
    rewrite Hrefs in Hnd. by apply NoDup_fmap_1 in Hnd.
Qed.

Lemma distinct_futures_sublist h l1 l2 :
  sublist l1 l2 → distinct_futures h l2 → distinct_futures h l1.
Proof.
  rewrite !distinct_futures_alt. intros Hsub [Hall Hnd]. split.
  - rewrite Forall_forall in *. intros a Ha. by apply Hall, (sublist_subseteq _ _ Hsub).
  - eapply sublist_NoDup; [done|]. by apply fmap_sublist.
Qed.

Lemma distinct_futures_NoDup h l : distinct_futures h l → NoDup l.
Proof. rewrite distinct_futures_alt. intros [_ Hnd]. by apply NoDup_fmap_1 in Hnd. Qed.

Lemma ray_wait_inl w futures e w1 :
  ray_wait ready w futures = (inl e, w1) → ¬ distinct_futures (heap w) futures.
Proof.
  unfold ray_wait, distinct_futures. intros Hw (refs & Hrefs & Hnd).
  rewrite Hrefs in Hw. by case_decide.
Qed.

Lemma ray_get_inl w dn e w2 :
  ray_get task_value w dn = (inl e, w2) →
  ¬ Forall (λ a, is_Some (future_value task_value (heap w) a)) dn.
Proof.
  unfold ray_get. intros Hg Hall.
  apply (mapM_is_Some_2 (future_value task_value (heap w))) in Hall as [vs Hvs].
  by rewrite Hvs in Hg.
Qed.

Lemma Forall2_zip_fst {A B} (R : A → B → Prop) l k :
  Forall2 R l k → Forall (λ xy, R xy.1 xy.2) (zip l k) ∧ (zip l k).*1 = l.
Proof.
  induction 1 as [|x y l k ? ? [IH1 IH2]]; csimpl; [done|].
  split; [by constructor|congruence].
Qed.

(** One resumption at a poll point, when all tracked futures are distinct
    handles with a value. *)
Lemma poll_loop_correct h m fuel futures pbar w :
  heap w = h →
  distinct_futures h futures →
  Forall (λ a, is_Some (future_value task_value h a)) futures →
  (∀ a, a ∈ futures → is_Some (m !! a)) →
  match poll_loop ready task_value fuel m futures pbar w with
  | (StopIteration, _, w1) => futures = [] ∧ w1 = w
  | (Polling, _, _) => futures ≠ []
  | (Raise _, _, _) => False
  | (Yield item, g, w1) =>
    ∃ a pend rest,
      item = emit task_value m h a
      ∧ g = Suspended m rest pend (S pbar)
      ∧ heap w1 = h
      ∧ fetched w1 = fetched w ++ a :: pend.*1
      ∧ a :: pend.*1 ++ rest ≡ₚ futures
      ∧ sublist rest futures
      ∧ Forall (λ av, future_value task_value h av.1 = Some av.2) pend
  end.
Proof.
  revert w. induction fuel as [|fuel IH]; intros w Hh Hdist Hval Hdom;
    (destruct futures as [|a0 l]; [done|]); [done|].
  rewrite poll_loop_cons.
  destruct (ray_wait ready w (a0 :: l)) as [[e|[dn rest]] w1] eqn:Hw.
  { apply ray_wait_inl in Hw. by rewrite Hh in Hw. }
  pose proof Hw as Hw'. apply ray_wait_inr in Hw' as (Hdn & Hrest & _).
  apply ray_wait_world in Hw as (Hh1 & Hc1 & Hf1).
  assert (dn ++ rest ≡ₚ a0 :: l) as Hperm by (rewrite Hdn, Hrest; apply filter_app_complement).
  assert (sublist dn (a0 :: l)) as Hsubdn by (rewrite Hdn; apply sublist_filter).
  assert (sublist rest (a0 :: l)) as Hsubrest by (rewrite Hrest; apply sublist_filter).
  destruct (ray_get task_value w1 dn) as [[e|values] w2] eqn:Hg.
  { apply ray_get_inl in Hg. destruct Hg. rewrite Hh1, Hh.
    rewrite Forall_forall in *. intros a Ha. by apply Hval, (sublist_subseteq _ _ Hsubdn). }
  apply ray_get_inr in Hg as (Hvals & Hh2 & Hc2 & Hf2).
  rewrite Hh1, Hh in Hvals.
  destruct Hvals as [|a v dn' values' Hav Hvals]; simpl.
  - assert (rest = a0 :: l) as ->.
    { rewrite Hrest. apply filter_none_complement. by rewrite <-Hdn. }
    specialize (IH w2 ltac:(congruence) Hdist Hval Hdom).
    destruct (poll_loop _ _ _ _ _ _ _) as [[[item| |e|] g] w3]; [|by destruct IH|done..].
    destruct IH as (a & pend & rest & -> & -> & Hh3 & Hf3 & ? & ? & ?).
    exists a, pend, rest. split_and!; try done.
    by rewrite Hf3, Hf2, Hf1, app_nil_r.
  - apply Forall2_zip_fst in Hvals as [Hwf Hfst].
    unfold yield_item.
    destruct (Hdom a) as [position Hpos].
    { apply (sublist_subseteq _ _ Hsubdn). left. }
    rewrite Hpos. exists a, (zip dn' values'), rest.
    unfold emit. rewrite Hpos, Hav. simpl. rewrite Hfst.
    split_and!; try done; congruence.
Qed.

(** The whole run from a suspended generator. *)
Lemma emitted_correct h m fuel futures pending pbar w :
  heap w = h →
  distinct_futures h futures →
  Forall (λ a, is_Some (future_value task_value h a)) futures →
  Forall (λ av, future_value task_value h av.1 = Some av.2) pending →
  (∀ a, a ∈ futures ∨ a ∈ pending.*1 → is_Some (m !! a)) →
  match emitted ready task_value fuel (Suspended m futures pending pbar) w with
  | (pairs, Exhausted, w') =>
    ∃ order,
      pairs = emit task_value m h <$> (pending.*1 ++ order)
      ∧ order ≡ₚ futures
      ∧ fetched w' = fetched w ++ order
      ∧ heap w' = h
  | (_, Raised _, _) => False
  | (_, Unfinished, _) => True
  end.
Proof.
  revert futures pending pbar w.
  induction fuel as [|fuel IH]; intros futures pending pbar w Hh Hdist Hval Hwf Hdom; [done|].
  cbn [emitted gen_next]. destruct pending as [|[a v] pending].
  - pose proof (poll_loop_correct h m fuel futures pbar w Hh Hdist Hval
                  ltac:(naive_solver)) as Hpoll.
    destruct (poll_loop _ _ _ _ _ _ _) as [[[item| |e|] g] w1]; [| |done..].
    + destruct Hpoll as (a & pend & rest & -> & -> & Hh1 & Hf1 & Hperm & Hsub & Hwf').
      assert (distinct_futures h rest) as Hdist' by (by eapply distinct_futures_sublist).
      assert (Forall (λ a, is_Some (future_value task_value h a)) rest) as Hval'.
      { rewrite Forall_forall in Hval |- *. intros x Hx.
        by apply Hval, (sublist_subseteq _ _ Hsub). }
      assert (∀ x, x ∈ rest ∨ x ∈ pend.*1 → is_Some (m !! x)) as Hdom'.
      { intros x Hx. apply Hdom. left. rewrite <-Hperm.
        rewrite elem_of_cons, elem_of_app. tauto. }
      specialize (IH rest pend (S pbar) w1 Hh1 Hdist' Hval' Hwf' Hdom').
      destruct (emitted _ _ _ _ _) as [[items [|e|]] w']; [|done..].
      destruct IH as (order & -> & Hord & Hf' & Hh').
      exists (a :: pend.*1 ++ order). split_and!; [done| | |done].
      * by rewrite <-Hperm, Hord.
      * rewrite Hf', Hf1. by rewrite <-app_assoc.
    + destruct Hpoll as [-> ->]. exists []. split_and!; [done..| |done].
      by rewrite app_nil_r.
  - apply Forall_cons in Hwf as [Hav Hwf]. simpl in Hav.
    unfold yield_item. destruct (Hdom a) as [position Hpos]; [right; left|].
    rewrite Hpos.
    specialize (IH futures pending (S pbar) w Hh Hdist Hval Hwf).
    destruct (emitted _ _ _ _ _) as [[items [|e|]] w']; [|apply IH|done].
    + destruct IH as (order & -> & Hord & Hf' & Hh').
      { intros x [Hx|Hx]; apply Hdom; [by left|right; by right]. }
      exists order. split_and!; try done.
      csimpl. f_equal. unfold emit. by rewrite Hpos, Hav.
    + intros x [Hx|Hx]; apply Hdom; [by left|right; by right].
Qed.

(** *** The identity map *)

Lemma id_to_position_map_snoc l x :
  id_to_position_map (l ++ [x]) = <[x := length l]> (id_to_position_map l).
Proof.
  unfold id_to_position_map, enumerate. rewrite imap_app, foldl_app. simpl.
  by rewrite Nat.add_0_r.
Qed.

Lemma id_to_position_map_Some l a i :
  id_to_position_map l !! a = Some i → l !! i = Some a.
Proof.
  revert i. induction l as [|x l IH] using rev_ind; intros i; [done|].
  rewrite id_to_position_map_snoc. destruct (decide (x = a)) as [->|Hne].
  - rewrite lookup_insert_eq. intros [= <-]. by rewrite list_lookup_middle.
  - rewrite lookup_insert_ne by done. intros Hi%IH. by apply lookup_app_l_Some.
Qed.

Lemma id_to_position_map_elem_of l a : a ∈ l → is_Some (id_to_position_map l !! a).
Proof.
  induction l as [|x l IH] using rev_ind; [by intros ?%elem_of_nil|].
  rewrite id_to_position_map_snoc, elem_of_app, list_elem_of_singleton.
  destruct (decide (x = a)) as [->|Hne].
  - rewrite lookup_insert_eq. eauto.
  - rewrite lookup_insert_ne by done. intros [Hin| ->]; [by apply IH|done].
Qed.

Lemma id_to_position_map_NoDup l a i :
  NoDup l → l !! i = Some a → id_to_position_map l !! a = Some i.
Proof.
  intros Hnd Hi.
  destruct (id_to_position_map_elem_of l a) as [j Hj]; [by eapply list_elem_of_lookup_2|].
  rewrite Hj. f_equal. apply id_to_position_map_Some in Hj. by eapply NoDup_lookup.
Qed.

Lemma id_to_position_map_lt l a i : id_to_position_map l !! a = Some i → i < length l.
Proof. intros Hi%id_to_position_map_Some. by eapply lookup_lt_Some. Qed.

(** *** Emptying the given list does not touch the handles *)

Lemma deref_future_emptied h futures items a :
  h !! futures = Some (PyList items) →
  deref_future (<[futures := PyList []]> h) a = deref_future h a.
Proof.
  intros Hl. unfold deref_future. destruct (decide (futures = a)) as [->|Hne].
  - by rewrite lookup_insert_eq, Hl.
  - by rewrite lookup_insert_ne.
Qed.

Lemma future_value_emptied h futures items a :
  h !! futures = Some (PyList items) →
  future_value task_value (<[futures := PyList []]> h) a = future_value task_value h a.
Proof. intros Hl. unfold future_value. by erewrite deref_future_emptied. Qed.

Lemma distinct_futures_emptied h futures items l :
  h !! futures = Some (PyList items) →
  distinct_futures h l → distinct_futures (<[futures := PyList []]> h) l.
Proof.
  intros Hl (refs & Hrefs & Hnd). exists refs. split; [|done].
  rewrite <-Hrefs. apply mapM_ext. intros a. by eapply deref_future_emptied.
Qed.

Lemma eventually_reported_emptied h futures items l :
  h !! futures = Some (PyList items) →
  eventually_reported ready h l → eventually_reported ready (<[futures := PyList []]> h) l.
Proof.
  intros Hl Hev a r Hin Hr. apply (Hev a r Hin).
  by erewrite deref_future_emptied in Hr.
Qed.

Lemma emitted_created fuel futures items w :
  heap w !! futures = Some (PyList items) →
  emitted ready task_value (S fuel) (Created futures) w =
  emitted ready task_value (S fuel) (Suspended (id_to_position_map items) items [] 0)
    (_make_copy_and_empty_given futures items w).2.
Proof. intros Hl. cbn [emitted gen_next]. by rewrite Hl. Qed.

(** The pairs a complete run of the generator is made of. *)
Lemma emit_enumerate h items values :
  NoDup items →
  mapM (future_value task_value h) items = Some values →
  emit task_value (id_to_position_map items) h <$> items = enumerate values.
Proof.
  intros Hnd Hvals%mapM_Some. apply list_eq. intros i.
  unfold enumerate. rewrite list_lookup_fmap, list_lookup_imap.
  destruct (items !! i) as [a|] eqn:Ha; simpl.
  - destruct (Forall2_lookup_l _ _ _ _ _ Hvals Ha) as (v & -> & Hv). simpl.
    unfold emit. by rewrite (id_to_position_map_NoDup _ _ _ Hnd Ha), Hv.
  - apply lookup_ge_None in Ha. rewrite (Forall2_length _ _ _ Hvals) in Ha.
    apply lookup_ge_None in Ha. by rewrite Ha.
Qed.

Lemma enumerate_fst {A} (l : list A) : (enumerate l).*1 = seq 0 (length l).
Proof.
  apply list_eq. intros i. unfold enumerate.
  rewrite list_lookup_fmap, list_lookup_imap.
  destruct (l !! i) as [x|] eqn:Hx; simpl.
  - by rewrite lookup_seq_lt by (by eapply lookup_lt_Some).
  - apply lookup_ge_None in Hx. by rewrite lookup_seq_ge.
Qed.

Lemma run_of_distinct_futures fuel futures items values w pairs w' :
  heap w !! futures = Some (PyList items) →
  distinct_futures (heap w) items →
  mapM (future_value task_value (heap w)) items = Some values →
  emitted ready task_value fuel (Created futures) w = (pairs, Exhausted, w') →
  pairs ≡ₚ enumerate values
  ∧ fetched w' ≡ₚ fetched w ++ items
  ∧ heap w' = <[futures := PyList []]> (heap w).
Proof.
  intros Hl Hdist Hvals Hrun. destruct fuel as [|fuel]; [done|].
  rewrite (emitted_created _ _ _ _ Hl) in Hrun.
  set (h := <[futures := PyList []]> (heap w)) in *.
  set (w1 := {| heap := h; clock := clock w; fetched := fetched w |}).
  change (_make_copy_and_empty_given futures items w).2 with w1 in Hrun.
  pose proof (emitted_correct h (id_to_position_map items) (S fuel) items [] 0 w1) as Hrun'.
  rewrite Hrun in Hrun'.
  destruct Hrun' as (order & -> & Hord & Hf & Hh); try done.
  - by eapply distinct_futures_emptied.
  - eapply Forall_impl; [apply (mapM_is_Some_1 (future_value task_value (heap w))); eauto|].
    intros a Ha. simpl in Ha. unfold h. by rewrite (future_value_emptied _ _ _ _ Hl).
  - intros a [Ha|Ha]; [by apply id_to_position_map_elem_of|by apply elem_of_nil in Ha].
  - split_and!; [|by rewrite Hf, Hord|done].
    simpl. rewrite Hord. rewrite <-(emit_enumerate h items values); [done| |].
    + by eapply distinct_futures_NoDup.
    + rewrite <-Hvals. apply mapM_ext. intros a. unfold h.
      by rewrite (future_value_emptied _ _ _ _ Hl).
Qed.

Lemma run_of_distinct_futures_not_raised fuel futures items values w pairs e w' :
  heap w !! futures = Some (PyList items) →
  distinct_futures (heap w) items →
  mapM (future_value task_value (heap w)) items = Some values →
  emitted ready task_value fuel (Created futures) w ≠ (pairs, Raised e, w').
Proof.
  intros Hl Hdist Hvals Hrun. destruct fuel as [|fuel]; [done|].
  rewrite (emitted_created _ _ _ _ Hl) in Hrun.
  pose proof (emitted_correct (<[futures := PyList []]> (heap w)) (id_to_position_map items)
                (S fuel) items [] 0 (_make_copy_and_empty_given futures items w).2
                eq_refl) as Hok.
  rewrite Hrun in Hok. apply Hok; try done.
  - by eapply distinct_futures_emptied.
  - eapply Forall_impl; [apply (mapM_is_Some_1 (future_value task_value (heap w))); eauto|].
    intros a Ha. simpl in Ha. by rewrite (future_value_emptied _ _ _ _ Hl).
  - intros a [Ha|Ha]; [by apply id_to_position_map_elem_of|by apply elem_of_nil in Ha].
Qed.

Lemma created_terminates futures items w :
  heap w !! futures = Some (PyList items) →
  eventually_reported ready (heap w) items →
  ∃ fuel0 run,
    run.1.2 ≠ Unfinished
    ∧ ∀ fuel, fuel0 ≤ fuel → emitted ready task_value fuel (Created futures) w = run.
Proof.
  intros Hl Hev.
  destruct (emitted_terminates (S (length items + 0)) (id_to_position_map items) items [] 0
              (_make_copy_and_empty_given futures items w).2)
    as (fuel0 & run & Hfin & Hrun); [simpl; lia| |].
  { simpl. by eapply eventually_reported_emptied. }
  exists (S fuel0), run. split; [done|].
  intros [|fuel] ?; [lia|]. rewrite (emitted_created _ _ _ _ Hl). apply Hrun. lia.
Qed.

(** *** The eager loop over the generator *)

Lemma poll_loop_yield fuel m futures pbar w position result g' w' :
  poll_loop ready task_value fuel m futures pbar w = (Yield (position, result), g', w') →
  (∃ a, m !! a = Some position) ∧ ∃ rest pend pb, g' = Suspended m rest pend pb.
Proof.
  revert futures w. induction fuel as [|fuel IH]; intros [|a0 l] w; try done.
  rewrite poll_loop_cons.
  destruct (ray_wait _ _ _) as [[e|[dn rest]] w1]; [done|].
  destruct (ray_get _ _ _) as [[e|values] w2]; [done|].
  destruct (zip dn values) as [|[future v] pending]; [apply IH|].
  unfold yield_item. destruct (m !! future) eqn:Hm; [|done].
  intros [= <- <- <- <-]. eauto 10.
Qed.

Lemma gen_next_yield fuel m futures pending pbar w position result g' w' :
  gen_next ready task_value fuel (Suspended m futures pending pbar) w
    = (Yield (position, result), g', w') →
  (∃ a, m !! a = Some position) ∧ ∃ rest pend pb, g' = Suspended m rest pend pb.
Proof.
  destruct pending as [|[future v] pending]; simpl; [apply poll_loop_yield|].
  unfold yield_item. destruct (m !! future) eqn:Hm; [|done].
  intros [= <- <- <- <-]. eauto 10.
Qed.

Lemma place_all_length (results : list PyVal) pairs :
  length (place_all results pairs) = length results.
Proof.
  revert results. induction pairs as [|[p v] pairs IH]; intros results; [done|].
  simpl. by rewrite IH, length_insert.
Qed.

(** The eager loop is the lazy run followed by the placing of the pairs. *)
Lemma join_loop_emitted n m fuel futures pending pbar results w :
  length results = n →
  (∀ a p, m !! a = Some p → p < n) →
  let run := emitted ready task_value fuel (Suspended m futures pending pbar) w in
  join_loop ready task_value fuel (Suspended m futures pending pbar) results w =
    (match run.1.2 with
     | Exhausted => Returned (place_all results run.1.1)
     | Raised e => Failed e
     | Unfinished => Running
     end, run.2)
  ∧ Forall (λ pv, pv.1 < n) run.1.1.
Proof.
  intros Hlen Hm. revert futures pending pbar results w Hlen.
  induction fuel as [|fuel IH]; intros futures pending pbar results w Hlen; [done|].
  cbn [join_loop emitted].
  destruct (gen_next _ _ _ _ _) as [[[[position result]| |e|] g'] w'] eqn:Hnext; try done.
  apply gen_next_yield in Hnext as [[a Ha] (rest & pend & pb & ->)].
  apply Hm in Ha. unfold set_item. rewrite decide_True by lia.
  destruct (IH rest pend pb (<[position := result]> results) w') as [IH1 IH2].
  { by rewrite length_insert. }
  rewrite IH1. destruct (emitted _ _ _ _ _) as [[items e] w'']. simpl in *.
  split; [done|]. by constructor.
Qed.

Lemma place_all_snoc (results : list PyVal) pairs p v :
  place_all results (pairs ++ [(p, v)]) = <[p := v]> (place_all results pairs).
Proof. unfold place_all. by rewrite foldl_snoc. Qed.

Lemma place_all_lookup (results : list PyVal) pairs i :
  Forall (λ pv, pv.1 < length results) pairs →
  place_all results pairs !! i =
  match last (filter (λ pv, pv.1 = i) pairs) with
  | Some (_, v) => Some v
  | None => results !! i
  end.
Proof.
  induction pairs as [|[p v] pairs IH] using rev_ind; intros Hlt; [done|].
  apply Forall_app in Hlt as [Hlt Hp]. rewrite Forall_singleton in Hp. simpl in Hp.
  rewrite place_all_snoc, filter_app, filter_cons, filter_nil. simpl.
  destruct (decide (p = i)) as [->|Hne].
  - rewrite last_snoc. apply list_lookup_insert_eq. by rewrite place_all_length.
  - rewrite app_nil_r, list_lookup_insert_ne by done. by apply IH.
Qed.

Lemma place_all_by_position n pairs :
  Forall (λ pv, pv.1 < n) pairs →
  place_all (replicate n VNone) pairs = place_by_position n pairs.
Proof.
  intros Hlt. apply list_eq. intros i.
  rewrite place_all_lookup by (by rewrite length_replicate).
  unfold place_by_position, value_placed_at. rewrite list_lookup_fmap.
  destruct (decide (i < n)) as [Hi|Hi].
  - rewrite lookup_seq_lt by done. simpl.
    destruct (last _) as [[? v]|]; [done|]. by apply lookup_replicate_2.
  - rewrite lookup_seq_ge by lia. simpl.
    destruct (last _) as [[p v]|] eqn:Hlast.
    + apply last_Some_elem_of, list_elem_of_filter in Hlast as [Hp Hin].
      rewrite Forall_forall in Hlt. apply Hlt in Hin. simpl in *. lia.
    + apply lookup_replicate_None. lia.
Qed.

Lemma join_ray_futures_eager_of_lazy fuel futures items w :
  heap w !! futures = Some (PyList items) →
  join_ray_futures ready task_value fuel futures w =
  eager_of_lazy (length items) (emitted ready task_value fuel (Created futures) w).
Proof.
  intros Hl. unfold join_ray_futures, py_len, join_ray_futures_iter. rewrite Hl.
  destruct fuel as [|fuel]; [done|].
  rewrite (emitted_created _ _ _ _ Hl).
  transitivity (join_loop ready task_value (S fuel)
                  (Suspended (id_to_position_map items) items [] 0)
                  (replicate (length items) VNone)
                  (_make_copy_and_empty_given futures items w).2).
  { cbn [join_loop gen_next]. by rewrite Hl. }
  destruct (join_loop_emitted (length items) (id_to_position_map items) (S fuel) items [] 0
              (replicate (length items) VNone)
              (_make_copy_and_empty_given futures items w).2) as [Hjoin Hlt].
  { apply length_replicate. }
  { intros a p. apply id_to_position_map_lt. }
  rewrite Hjoin. destruct (emitted _ _ _ _ _) as [[pairs [|e|]] w']; simpl in *; try done.
  by rewrite place_all_by_position.
Qed.

Lemma filter_position_none {A} (l : list (nat * A)) i :
  i ∉ l.*1 → filter (λ pv, pv.1 = i) l = [].
Proof.
  induction l as [|[p x] l IH]; [done|]. csimpl. rewrite not_elem_of_cons.
  intros [Hne Hnin]. rewrite filter_cons_False by (simpl; congruence). auto.
Qed.

Lemma filter_position_unique {A} (l : list (nat * A)) i v :
  NoDup l.*1 → (i, v) ∈ l → filter (λ pv, pv.1 = i) l = [(i, v)].
Proof.
  induction l as [|[p x] l IH]; [by intros _ ?%elem_of_nil|]. csimpl.
  rewrite NoDup_cons, elem_of_cons. intros [Hnin Hnd] [[= <- <-]|Hin].
  - rewrite filter_cons_True by done. by rewrite filter_position_none.
  - rewrite filter_cons_False; [by apply IH|].
    simpl. intros ->. apply Hnin. apply list_elem_of_fmap. by exists (i, v).
Qed.

Lemma place_by_position_enumerate pairs values :
  pairs ≡ₚ enumerate values → place_by_position (length values) pairs = values.
Proof.
  intros Hperm. apply list_eq. intros i.
  unfold place_by_position, value_placed_at. rewrite list_lookup_fmap.
  destruct (values !! i) as [v|] eqn:Hv.
  - rewrite lookup_seq_lt by (by eapply lookup_lt_Some). simpl.
    rewrite (filter_position_unique pairs i v); [done| |].
    + rewrite Hperm, enumerate_fst. apply NoDup_seq.
    + rewrite Hperm. unfold enumerate. apply list_elem_of_lookup. exists i.
      by rewrite list_lookup_imap, Hv.
  - apply lookup_ge_None in Hv. by rewrite lookup_seq_ge.
Qed.

(** *** The tracked futures *)

Lemma poll_loop_tracked h fuel m futures pbar w :
  sublist (tracked h (poll_loop ready task_value fuel m futures pbar w).1.2) futures.
Proof.
  revert futures w. induction fuel as [|fuel IH]; intros [|a0 l] w; try done.
  rewrite poll_loop_cons.
  destruct (ray_wait _ _ _) as [[e|[dn rest]] w1] eqn:Hw; [apply sublist_nil_l|].
  apply ray_wait_inr in Hw as (_ & Hrest & _).
  assert (sublist rest (a0 :: l)) as Hsub by (rewrite Hrest; apply sublist_filter).
  destruct (ray_get _ _ _) as [[e|values] w2]; [apply sublist_nil_l|].
  destruct (zip dn values) as [|[future v] pending].
  - by etrans; [apply IH|].
  - unfold yield_item. destruct (m !! future); [done|apply sublist_nil_l].
Qed.

Lemma gen_next_tracked fuel g w :
  sublist (tracked (heap (gen_next ready task_value fuel g w).2)
             (gen_next ready task_value fuel g w).1.2)
          (tracked (heap w) g).
Proof.
  destruct g as [futures|m futures [|[future v] pending] pbar|]; simpl.
  - destruct (heap w !! futures) as [[items| | | | |]|]; try apply sublist_nil_l.
    apply poll_loop_tracked.
  - apply poll_loop_tracked.
  - unfold yield_item. destruct (m !! future); [done|apply sublist_nil_l].
  - done.
Qed.

Lemma one_poll_cycle m futures pbar w r g' w' :
  futures ≠ [] →
  gen_next ready task_value 1 (Suspended m futures [] pbar) w = (r, g', w') →
  (∀ e, r ≠ Raise e) →
  tracked (heap w') g' = filter (λ a, reported ready w a ≠ true) futures.
Proof.
  intros Hne. destruct futures as [|a0 l]; [done|].
  cbn [gen_next]. rewrite poll_loop_cons.
  destruct (ray_wait _ _ _) as [[e|[dn rest]] w1] eqn:Hw; [naive_solver|].
  apply ray_wait_inr in Hw as (_ & <- & _).
  destruct (ray_get _ _ _) as [[e|values] w2]; [naive_solver|].
  destruct (zip dn values) as [|[future v] pending].
  - destruct rest; by intros [= <- <- <-].
  - unfold yield_item. destruct (m !! future); [by intros [= <- <- <-]|naive_solver].
Qed.

Lemma poll_loop_stop fuel m futures pbar w :
  (poll_loop ready task_value fuel m futures pbar w).1.1 = StopIteration ↔ futures = [].
Proof.
  split; [|intros ->; by destruct fuel].
  revert w. induction fuel as [|fuel IH]; intros w; (destruct futures as [|a0 l]; [done|]);
    [done|].
  rewrite poll_loop_cons.
  destruct (ray_wait _ _ _) as [[e|[dn rest]] w1] eqn:Hw; [done|].
  apply ray_wait_inr in Hw as (Hdn & Hrest & _).
  destruct (ray_get _ _ _) as [[e|values] w2] eqn:Hg; [done|].
  apply ray_get_inr in Hg as (Hvals & _).
  destruct Hvals as [|a v dn' values' Hav Hvals]; simpl.
  - assert (rest = a0 :: l) as ->; [|apply IH].
    rewrite Hrest. apply filter_none_complement. by rewrite <-Hdn.
  - unfold yield_item. by destruct (m !! a).
Qed.

(** ** The joiner: what the specification states *)

(** C7: if every future of the list is, from any wait on, reported by
    some later wait, a consumer of the generator reaches the end of the
    iteration; one poll cycle leaves tracked exactly the futures it did
    not report; no resumption makes the tracked futures grow; and the
    loop stops exactly when no future is tracked. *)
Theorem C7_polling_loop_terminates (futures : addr) (items : list addr) (w : World) :
  heap w !! futures = Some (PyList items) →
  eventually_reported ready (heap w) items →
  (∃ fuel0 run,
      run.1.2 ≠ Unfinished
      ∧ ∀ fuel, fuel0 ≤ fuel →
          emitted ready task_value fuel (join_ray_futures_iter futures w).1 w = run)
  ∧ (∀ m l pbar w0 r g' w',
      l ≠ [] →
      gen_next ready task_value 1 (Suspended m l [] pbar) w0 = (r, g', w') →
      (∀ e, r ≠ Raise e) →
      tracked (heap w') g' = filter (λ a, reported ready w0 a ≠ true) l)
  ∧ (∀ fuel g w0,
      sublist (tracked (heap (gen_next ready task_value fuel g w0).2)
                 (gen_next ready task_value fuel g w0).1.2)
              (tracked (heap w0) g))
  ∧ (∀ fuel m l pbar w0,
      (poll_loop ready task_value fuel m l pbar w0).1.1 = StopIteration ↔ l = []).
Proof.
  intros Hl Hev. split_and!.
  - by eapply created_terminates.
  - intros m l pbar w0 r g' w'. apply one_poll_cycle.
  - apply gen_next_tracked.
  - apply poll_loop_stop.
Qed.

(** C2, amended: for a list of handles no two of which name the same
    remote object, each with a value and each eventually reported, the
    generator emits, for every future, the pair of the position the
    future holds in the list and its value, each exactly once, and then
    stops; the identity map sends every handle to its position; and it
    never stops before every future has been fetched. *)
Theorem C2_join_ray_futures_iter (futures : addr) (items : list addr)
    (values : list PyVal) (w : World) :
  heap w !! futures = Some (PyList items) →
  distinct_futures (heap w) items →
  mapM (future_value task_value (heap w)) items = Some values →
  eventually_reported ready (heap w) items →
  (∃ fuel0 pairs w',
      (∀ fuel, fuel0 ≤ fuel →
         emitted ready task_value fuel (join_ray_futures_iter futures w).1 w
           = (pairs, Exhausted, w'))
      ∧ length pairs = length items
      ∧ NoDup pairs.*1
      ∧ pairs ≡ₚ enumerate values)
  ∧ (∀ i a, items !! i = Some a → id_to_position_map items !! a = Some i)
  ∧ (∀ fuel pairs w',
      emitted ready task_value fuel (join_ray_futures_iter futures w).1 w
        = (pairs, Exhausted, w') →
      pairs ≡ₚ enumerate values ∧ fetched w' ≡ₚ fetched w ++ items).
Proof.
  intros Hl Hdist Hvals Hev. unfold join_ray_futures_iter. simpl fst. split_and!.
  - destruct (created_terminates futures items w Hl Hev) as (fuel0 & [[pairs e] w'] & Hfin & Hrun).
    exists (S fuel0), pairs, w'.
    assert (e = Exhausted) as ->.
    { specialize (Hrun (S fuel0) ltac:(lia)). destruct e as [|e|]; [done| |done].
      by eapply run_of_distinct_futures_not_raised in Hrun. }
    destruct (run_of_distinct_futures (S fuel0) futures items values w pairs w' Hl Hdist Hvals)
      as (Hperm & _); [apply Hrun; lia|].
    split_and!; [intros fuel ?; apply Hrun; lia| | |done].
    + rewrite Hperm. unfold enumerate. rewrite length_imap.
      symmetry. apply mapM_Some in Hvals. by eapply Forall2_length.
    + rewrite Hperm, enumerate_fst. apply NoDup_seq.
  - intros i a. apply id_to_position_map_NoDup. by eapply distinct_futures_NoDup.
  - intros fuel pairs w' Hrun.
    by destruct (run_of_distinct_futures fuel futures items values w pairs w' Hl Hdist Hvals Hrun)
      as (? & ? & _).
Qed.

(** C1, amended: for a list of [N] handles no two of which name the same
    remote object, each with a value and each eventually reported, the
    eager join returns, whatever the order of completion, the list of
    the [N] values, the one of the [i]-th future at index [i]. *)
Theorem C1_join_ray_futures (futures : addr) (items : list addr)
    (values : list PyVal) (w : World) :
  heap w !! futures = Some (PyList items) →
  distinct_futures (heap w) items →
  mapM (future_value task_value (heap w)) items = Some values →
  eventually_reported ready (heap w) items →
  (∃ fuel0 w', ∀ fuel, fuel0 ≤ fuel →
      join_ray_futures ready task_value fuel futures w = (Returned values, w'))
  ∧ length values = length items
  ∧ ∀ i a, items !! i = Some a → values !! i = future_value task_value (heap w) a.
Proof.
  intros Hl Hdist Hvals Hev.
  assert (Forall2 (λ a v, future_value task_value (heap w) a = Some v) items values) as Hall
    by (by apply mapM_Some).
  split_and!.
  - destruct (created_terminates futures items w Hl Hev) as (fuel0 & [[pairs e] w'] & Hfin & Hrun).
    exists fuel0, w'. intros fuel Hfuel.
    rewrite (join_ray_futures_eager_of_lazy _ _ _ _ Hl), (Hrun fuel Hfuel).
    specialize (Hrun fuel Hfuel).
    destruct e as [|e|]; [|exfalso|done].
    + destruct (run_of_distinct_futures fuel futures items values w pairs w' Hl Hdist Hvals Hrun)
        as (Hperm & _).
      simpl. rewrite (Forall2_length _ _ _ Hall).
      by rewrite place_by_position_enumerate.
    + by eapply run_of_distinct_futures_not_raised in Hrun.
  - symmetry. by eapply Forall2_length.
  - intros i a Ha. destruct (Forall2_lookup_l _ _ _ _ _ Hall Ha) as (v & -> & Hv). done.
Qed.

(** C8: on every list of futures and for every completion order, the
    eager call ends as the lazy run does, and when the run is exhausted
    it returns the list that has each emitted value at its position. *)
Theorem C8_eager_refines_lazy (fuel : nat) (futures : addr) (items : list addr) (w : World) :
  heap w !! futures = Some (PyList items) →
  join_ray_futures ready task_value fuel futures w =
  eager_of_lazy (length items)
    (emitted ready task_value fuel (join_ray_futures_iter futures w).1 w).
Proof. apply join_ray_futures_eager_of_lazy. Qed.
End JoinerRuns.

(** ** The joiner on the small cluster *)

(** Scenario 4 of the specification: five futures, the one at index 3 is
    the last to complete; its pair is the last the lazy mode emits, and the
    eager mode has its value at index 3. *)
Example scenario_4 :
  (emitted Scenario.ready Scenario.task_value 8 (Created 1) Scenario.world).1
    = ([(0, VInt 100); (1, VInt 101); (2, VInt 102); (4, VInt 104); (3, VInt 103)], Exhausted)
  ∧ (join_ray_futures Scenario.ready Scenario.task_value 8 1 Scenario.world).1
    = Returned [VInt 100; VInt 101; VInt 102; VInt 103; VInt 104].
Proof. split; by vm_compute. Qed.

(** An override whose truth test raises: [execute] raises with it. *)
Example input_task_ambiguous_override :
  InputTask_execute Examples.hooks (InputTask_init (Some (VInt 5))) (Some (VObject 8))
  = inl ValueError.
Proof. reflexivity. Qed.

Lemma C5_input_task_execute_witness :
  let task := InputTask_init (Some (VInt 5)) in
  (Falsy Examples.hooks (VObject 7)
   ∧ InputTask_execute Examples.hooks task (Some (VObject 7)) = inr (VInt 5))
  ∧ (Truthy Examples.hooks (VObject 9)
     ∧ InputTask_execute Examples.hooks task (Some (VObject 9)) = inr (VObject 9)).
Proof.
  intros task.
  assert (Falsy Examples.hooks (VObject 7)) as Hfalsy
    by (apply Falsy_len_returns_zero; reflexivity).
  assert (Truthy Examples.hooks (VObject 9)) as Htruthy
    by (apply Truthy_bool_returns_True; reflexivity).
  exact (conj
           (conj Hfalsy
              (proj1 (C5_input_task_execute Examples.hooks (VInt 5) (VObject 7)) Hfalsy))
           (conj Htruthy
              (proj1 (proj2 (C5_input_task_execute Examples.hooks (VInt 5) (VObject 9)))
                 Htruthy))).
Defined.

Lemma C1_join_ray_futures_witness :
  let items := [10; 11; 12; 13; 14] in
  let values := [VInt 100; VInt 101; VInt 102; VInt 103; VInt 104] in
  (heap Scenario.world !! 1 = Some (PyList items)
   ∧ distinct_futures (heap Scenario.world) items
   ∧ mapM (future_value Scenario.task_value (heap Scenario.world)) items = Some values
   ∧ eventually_reported Scenario.ready (heap Scenario.world) items)
  ∧ (∃ fuel0 w', ∀ fuel, fuel0 ≤ fuel →
        join_ray_futures Scenario.ready Scenario.task_value fuel 1 Scenario.world
          = (Returned values, w'))
  ∧ length values = length items
  ∧ ∀ i a, items !! i = Some a →
      values !! i = future_value Scenario.task_value (heap Scenario.world) a.
Proof.
  intros items values.
  assert (heap Scenario.world !! 1 = Some (PyList items)) as Hl
    by (vm_compute; reflexivity).
  assert (distinct_futures (heap Scenario.world) items) as Hdist.
  { exists [0; 1; 2; 3; 4]. split; [vm_compute; reflexivity|].
    apply (bool_decide_unpack _). vm_compute. exact I. }
  assert (mapM (future_value Scenario.task_value (heap Scenario.world)) items = Some values)
    as Hvals by (vm_compute; reflexivity).
  assert (eventually_reported Scenario.ready (heap Scenario.world) items) as Hev.
  { intros a r _ _ k. exists (k + Scenario.due r). split; [lia|].
    unfold Scenario.ready. apply bool_decide_eq_true. lia. }
  split; [done|].
  exact (C1_join_ray_futures Scenario.ready Scenario.task_value 1 items values
           Scenario.world Hl Hdist Hvals Hev).
Defined.

(** C1 as the specification states it fails on a list that holds one
    handle twice:
    the wait rejects the list and the call raises instead of returning;
    and the identity map knows the handle under position 1 only, so that
    nothing could be placed at index 0 whatever the wait did. *)
Lemma C1_counterexample_repeated_handle :
  heap Scenario.world !! 3 = Some (PyList [10; 10])
  ∧ (¬ ∃ fuel results w',
        join_ray_futures Scenario.ready Scenario.task_value fuel 3 Scenario.world
          = (Returned results, w'))
  ∧ (join_ray_futures Scenario.ready Scenario.task_value 2 3 Scenario.world).1
      = Failed ValueError
  ∧ id_to_position_map [10; 10] !! 10 = Some 1.
Proof.
  split_and!; [by vm_compute| |by vm_compute..].
  intros ([|[|fuel]] & results & w' & Hrun); vm_compute in Hrun; discriminate.
Qed.

Lemma C2_join_ray_futures_iter_witness :
  let items := [10; 11; 12; 13; 14] in
  let values := [VInt 100; VInt 101; VInt 102; VInt 103; VInt 104] in
  (heap Scenario.world !! 1 = Some (PyList items)
   ∧ distinct_futures (heap Scenario.world) items
   ∧ mapM (future_value Scenario.task_value (heap Scenario.world)) items = Some values
   ∧ eventually_reported Scenario.ready (heap Scenario.world) items)
  ∧ (∃ fuel0 pairs w',
        (∀ fuel, fuel0 ≤ fuel →
           emitted Scenario.ready Scenario.task_value fuel
             (join_ray_futures_iter 1 Scenario.world).1 Scenario.world
             = (pairs, Exhausted, w'))
        ∧ length pairs = length items
        ∧ NoDup pairs.*1
        ∧ pairs ≡ₚ enumerate values)
  ∧ (∀ i a, items !! i = Some a → id_to_position_map items !! a = Some i)
  ∧ (∀ fuel pairs w',
        emitted Scenario.ready Scenario.task_value fuel
          (join_ray_futures_iter 1 Scenario.world).1 Scenario.world
          = (pairs, Exhausted, w') →
        pairs ≡ₚ enumerate values ∧ fetched w' ≡ₚ fetched Scenario.world ++ items).
Proof.
  intros items values.
  assert (heap Scenario.world !! 1 = Some (PyList items)) as Hl
    by (vm_compute; reflexivity).
  assert (distinct_futures (heap Scenario.world) items) as Hdist.
  { exists [0; 1; 2; 3; 4]. split; [vm_compute; reflexivity|].
    apply (bool_decide_unpack _). vm_compute. exact I. }
  assert (mapM (future_value Scenario.task_value (heap Scenario.world)) items = Some values)
    as Hvals by (vm_compute; reflexivity).
  assert (eventually_reported Scenario.ready (heap Scenario.world) items) as Hev.
  { intros a r _ _ k. exists (k + Scenario.due r). split; [lia|].
    unfold Scenario.ready. apply bool_decide_eq_true. lia. }
  split; [done|].
  exact (C2_join_ray_futures_iter Scenario.ready Scenario.task_value 1 items values
           Scenario.world Hl Hdist Hvals Hev).
Defined.

(** C2 as the specification states it fails on a list that holds one
    handle twice:
    the generator raises at its first wait and emits no pair at all, where
    two are expected, one for each position; and the identity map has the
    handle under position 1 only, so that position 0 could not be emitted
    whatever the wait did. *)
Lemma C2_counterexample_repeated_handle :
  heap Scenario.world !! 3 = Some (PyList [10; 10])
  ∧ (¬ ∃ fuel pairs w',
        emitted Scenario.ready Scenario.task_value fuel
          (join_ray_futures_iter 3 Scenario.world).1 Scenario.world
          = (pairs, Exhausted, w'))
  ∧ (emitted Scenario.ready Scenario.task_value 2
       (join_ray_futures_iter 3 Scenario.world).1 Scenario.world).1
      = ([], Raised ValueError)
  ∧ id_to_position_map [10; 10] !! 10 = Some 1.
Proof.
  split_and!; [by vm_compute| |by vm_compute..].
  intros ([|[|fuel]] & pairs & w' & Hrun); vm_compute in Hrun; discriminate.
Qed.

Lemma C3_joiners_empty_the_given_list_witness :
  let emptied := <[1 := PyList []]> (heap Scenario.world) in
  heap Scenario.world !! 1 = Some (PyList [10; 11; 12; 13; 14])
  ∧ heap (gen_next Scenario.ready Scenario.task_value 8
            (join_ray_futures_iter 1 Scenario.world).1 Scenario.world).2 = emptied
  ∧ heap (emitted Scenario.ready Scenario.task_value 9
            (join_ray_futures_iter 1 Scenario.world).1 Scenario.world).2 = emptied
  ∧ heap (join_ray_futures Scenario.ready Scenario.task_value 9 1 Scenario.world).2 = emptied
  ∧ emptied !! 1 = Some (PyList [])
  ∧ ∀ other, other ≠ 1 → emptied !! other = heap Scenario.world !! other.
Proof.
  intros emptied.
  assert (heap Scenario.world !! 1 = Some (PyList [10; 11; 12; 13; 14])) as Hl
    by (vm_compute; reflexivity).
  split; [done|].
  exact (C3_joiners_empty_the_given_list Scenario.ready Scenario.task_value 8 1
           [10; 11; 12; 13; 14] Scenario.world Hl).
Defined.

Lemma C7_polling_loop_terminates_witness :
  let items := [10; 11; 12; 13; 14] in
  (heap Scenario.world !! 1 = Some (PyList items)
   ∧ eventually_reported Scenario.ready (heap Scenario.world) items)
  ∧ ∃ fuel0 run,
      run.1.2 ≠ Unfinished
      ∧ ∀ fuel, fuel0 ≤ fuel →
          emitted Scenario.ready Scenario.task_value fuel
            (join_ray_futures_iter 1 Scenario.world).1 Scenario.world = run.
Proof.
  intros items.
  assert (heap Scenario.world !! 1 = Some (PyList items)) as Hl
    by (vm_compute; reflexivity).
  assert (eventually_reported Scenario.ready (heap Scenario.world) items) as Hev.
  { intros a r _ _ k. exists (k + Scenario.due r). split; [lia|].
    unfold Scenario.ready. apply bool_decide_eq_true. lia. }
  split; [done|].
  exact (proj1 (C7_polling_loop_terminates Scenario.ready Scenario.task_value 1 items
                  Scenario.world Hl Hev)).
Defined.

Lemma C8_eager_refines_lazy_witness :
  heap Scenario.world !! 1 = Some (PyList [10; 11; 12; 13; 14])
  ∧ join_ray_futures Scenario.ready Scenario.task_value 8 1 Scenario.world
    = eager_of_lazy 5
        (emitted Scenario.ready Scenario.task_value 8
           (join_ray_futures_iter 1 Scenario.world).1 Scenario.world)
  ∧ (join_ray_futures Scenario.ready Scenario.task_value 8 1 Scenario.world).1
    = Returned [VInt 100; VInt 101; VInt 102; VInt 103; VInt 104].
Proof.
  assert (heap Scenario.world !! 1 = Some (PyList [10; 11; 12; 13; 14])) as Hl
    by (vm_compute; reflexivity).
  split_and!; [done| |vm_compute; reflexivity].
  exact (C8_eager_refines_lazy Scenario.ready Scenario.task_value 8 1
           [10; 11; 12; 13; 14] Scenario.world Hl).
Defined.


(** ** The joiner: more of its behaviour *)

Section JoinerMore.
Variable ready : nat → ref → bool.
Variable task_value : ref → option PyVal.

(** One resumption at a poll point, when the tracked futures are distinct
    handles: the only way to fail is a task that raised. *)
Lemma poll_loop_sound h m fuel futures pbar w :
  heap w = h →
  distinct_futures h futures →
  (∀ a, a ∈ futures → is_Some (m !! a)) →
  match poll_loop ready task_value fuel m futures pbar w with
  | (StopIteration, _, _) => futures = []
  | (Polling, _, _) => True
  | (Raise e, _, _) =>
    e = RayTaskError ∧ ¬ Forall (λ a, is_Some (future_value task_value h a)) futures
  | (Yield _, g, w1) =>
    ∃ a pend rest,
      g = Suspended m rest pend (S pbar)
      ∧ heap w1 = h
      ∧ a :: pend.*1 ++ rest ≡ₚ futures
      ∧ sublist rest futures
      ∧ Forall (λ a, is_Some (future_value task_value h a)) (a :: pend.*1)
  end.
Proof.
  revert w. induction fuel as [|fuel IH]; intros w Hh Hdist Hdom;
    (destruct futures as [|a0 l]; [done|]); [done|].
  rewrite poll_loop_cons.
  destruct (ray_wait ready w (a0 :: l)) as [[e|[dn rest]] w1] eqn:Hw.
  { apply ray_wait_inl in Hw. by rewrite Hh in Hw. }
  pose proof Hw as Hw'. apply ray_wait_inr in Hw' as (Hdn & Hrest & _).
  apply ray_wait_world in Hw as (Hh1 & Hc1 & Hf1).
  assert (dn ++ rest ≡ₚ a0 :: l) as Hperm by (rewrite Hdn, Hrest; apply filter_app_complement).
  assert (sublist dn (a0 :: l)) as Hsubdn by (rewrite Hdn; apply sublist_filter).
  assert (sublist rest (a0 :: l)) as Hsubrest by (rewrite Hrest; apply sublist_filter).
  destruct (ray_get task_value w1 dn) as [[e|values] w2] eqn:Hg.
  { pose proof Hg as Hg'. apply ray_get_inl in Hg'. rewrite Hh1, Hh in Hg'.
    unfold ray_get in Hg. destruct (mapM _ dn); simplify_eq. split; [done|].
    intros Hall. apply Hg'. rewrite Forall_forall in Hall |- *.
    intros a Ha. by apply Hall, (sublist_subseteq _ _ Hsubdn). }
  apply ray_get_inr in Hg as (Hvals & Hh2 & Hc2 & Hf2).
  rewrite Hh1, Hh in Hvals.
  assert (Forall (λ a, is_Some (future_value task_value h a)) dn) as Hdnval.
  { clear -Hvals. induction Hvals; constructor; eauto. }
  destruct Hvals as [|a v dn' values' Hav Hvals]; simpl.
  - assert (rest = a0 :: l) as ->.
    { rewrite Hrest. apply filter_none_complement. by rewrite <-Hdn. }
    apply IH; [congruence|done..].
  - apply Forall2_zip_fst in Hvals as [_ Hfst].
    unfold yield_item.
    destruct (Hdom a) as [position Hpos].
    { apply (sublist_subseteq _ _ Hsubdn). left. }
    rewrite Hpos. exists a, (zip dn' values'), rest.
    rewrite Hfst. split_and!; try done; congruence.
Qed.

(** A run from a suspended generator over distinct handles: it is exhausted
    only if every tracked future has a value, and it raises only because a
    task raised. *)
Lemma emitted_sound h m fuel futures pending pbar w :
  heap w = h →
  distinct_futures h futures →
  (∀ a, a ∈ futures ∨ a ∈ pending.*1 → is_Some (m !! a)) →
  match emitted ready task_value fuel (Suspended m futures pending pbar) w with
  | (_, Exhausted, _) => Forall (λ a, is_Some (future_value task_value h a)) futures
  | (_, Raised e, _) =>
    e = RayTaskError ∧ ¬ Forall (λ a, is_Some (future_value task_value h a)) futures
  | (_, Unfinished, _) => True
  end.
Proof.
  revert futures pending pbar w.
  induction fuel as [|fuel IH]; intros futures pending pbar w Hh Hdist Hdom; [done|].
  cbn [emitted gen_next]. destruct pending as [|[a v] pending].
  - pose proof (poll_loop_sound h m fuel futures pbar w Hh Hdist ltac:(naive_solver)) as Hpoll.
    destruct (poll_loop _ _ _ _ _ _ _) as [[[item| |e|] g] w1]; [| |done..].
    + destruct Hpoll as (a & pend & rest & -> & Hh1 & Hperm & Hsub & Hval).
      assert (distinct_futures h rest) as Hdist' by (by eapply distinct_futures_sublist).
      assert (∀ x, x ∈ rest ∨ x ∈ pend.*1 → is_Some (m !! x)) as Hdom'.
      { intros x Hx. apply Hdom. left. rewrite <-Hperm.
        rewrite elem_of_cons, elem_of_app. tauto. }
      specialize (IH rest pend (S pbar) w1 Hh1 Hdist' Hdom').
      destruct (emitted _ _ _ _ _) as [[items [|e|]] w']; [| |done].
      * rewrite <-Hperm. rewrite app_comm_cons. by apply Forall_app.
      * destruct IH as [-> Hno]. split; [done|]. intros Hall. apply Hno.
        rewrite Forall_forall in Hall |- *.
        intros x Hx. by apply Hall, (sublist_subseteq _ _ Hsub).
    + by subst.
  - unfold yield_item. destruct (Hdom a) as [position Hpos]; [right; left|].
    rewrite Hpos.
    specialize (IH futures pending (S pbar) w Hh Hdist).
    destruct (emitted _ _ _ _ _) as [[items [|e|]] w']; [| |done];
      apply IH; intros x [Hx|Hx]; apply Hdom; (by left) || (right; by right).
Qed.

(** What a run of the generator from its creation says about the list:
    the first wait fails unless the entries are distinct handles. *)
Lemma first_wait_rejects fuel futures items w :
  heap w !! futures = Some (PyList items) →
  ¬ distinct_futures (heap w) items →
  ∃ e w1,
    (e = TypeError ∨ e = ValueError)
    ∧ gen_next ready task_value (S fuel) (Created futures) w = (Raise e, Closed, w1).
Proof.
  intros Hl Hnd. cbn [gen_next]. rewrite Hl. unfold _make_copy_and_empty_given.
  destruct items as [|a0 l].
  { destruct Hnd. exists []. split; [done|constructor]. }
  rewrite poll_loop_cons.
  destruct (ray_wait _ _ _) as [[e|[dn rest]] w1] eqn:Hw.
  - exists e, w1. split; [|done]. unfold ray_wait in Hw.
    destruct (mapM _ _); [case_decide|]; simplify_eq; auto.
  - apply ray_wait_inr in Hw as (_ & _ & Hd). destruct Hnd. simpl in Hd.
    destruct Hd as (refs & Hrefs & Hnodup). exists refs. split; [|done].
    rewrite <-Hrefs. apply mapM_ext. intros a. symmetry. by eapply deref_future_emptied.
Qed.

Lemma distinct_futures_dec h l : Decision (distinct_futures h l).
Proof.
  unfold distinct_futures. destruct (mapM (deref_future h) l) as [refs|].
  - destruct (decide (NoDup refs)) as [Hn|Hn]; [left; eauto|].
    right. intros (refs' & [= <-] & ?). done.
  - right. intros (refs' & [=] & _).
Qed.

(** The lazy run without preconditions: if the generator is exhausted, the
    list was one of distinct handles with values, and the pairs emitted are
    those of its futures. *)
Lemma exhausted_run fuel futures items w pairs w' :
  heap w !! futures = Some (PyList items) →
  emitted ready task_value fuel (Created futures) w = (pairs, Exhausted, w') →
  distinct_futures (heap w) items
  ∧ ∃ values,
      mapM (future_value task_value (heap w)) items = Some values
      ∧ pairs ≡ₚ enumerate values.
Proof.
  intros Hl Hrun.
  assert (distinct_futures (heap w) items) as Hdist.
  { destruct (distinct_futures_dec (heap w) items) as [|Hnd]; [done|exfalso].
    destruct fuel as [|[|fuel]]; [done| |].
    - cbn [emitted gen_next] in Hrun. rewrite Hl in Hrun. simpl in Hrun.
      destruct items; [|done]. destruct Hnd. exists []. split; [done|constructor].
    - destruct (first_wait_rejects fuel futures items w Hl Hnd) as (e & w1 & _ & Hnext).
      cbn [emitted] in Hrun. by rewrite Hnext in Hrun. }
  split; [done|].
  assert (Forall (λ a, is_Some (future_value task_value (heap w) a)) items) as Hval.
  { destruct fuel as [|fuel]; [done|].
    rewrite (emitted_created _ _ _ _ _ _ Hl) in Hrun.
    pose proof (emitted_sound (<[futures := PyList []]> (heap w)) (id_to_position_map items)
                  (S fuel) items [] 0 (_make_copy_and_empty_given futures items w).2
                  eq_refl) as Hok.
    rewrite Hrun in Hok. eapply Forall_impl; [apply Hok|].
    - by eapply distinct_futures_emptied.
    - intros a [Ha|Ha]; [by apply id_to_position_map_elem_of|by apply elem_of_nil in Ha].
    - intros a Ha. simpl in Ha. by rewrite (future_value_emptied _ _ _ _ _ Hl) in Ha. }
  apply (mapM_is_Some_2 (future_value task_value (heap w))) in Hval as [values Hvals].
  exists values. split; [done|].
  by destruct (run_of_distinct_futures ready task_value fuel futures items values w pairs w'
                 Hl Hdist Hvals Hrun) as (? & _).
Qed.

(** X1: whatever the oracle and the fuel, if the eager join returns a list,
    the given list was one of distinct handles, the list returned holds the
    value of the [i]-th future at index [i], and the given list has been
    emptied. *)
Theorem join_ray_futures_sound (fuel : nat) (futures : addr) (items : list addr)
    (results : list PyVal) (w w' : World) :
  heap w !! futures = Some (PyList items) →
  join_ray_futures ready task_value fuel futures w = (Returned results, w') →
  distinct_futures (heap w) items
  ∧ mapM (future_value task_value (heap w)) items = Some results
  ∧ heap w' = <[futures := PyList []]> (heap w).
Proof.
  intros Hl Hjoin.
  rewrite (join_ray_futures_eager_of_lazy _ _ _ _ _ _ Hl) in Hjoin.
  destruct (emitted _ _ _ _ _) as [[pairs [|e|]] w1] eqn:Hrun; simplify_eq/=.
  destruct (exhausted_run _ _ _ _ _ _ Hl Hrun) as (Hdist & values & Hvals & Hperm).
  destruct (run_of_distinct_futures ready task_value fuel futures items values w pairs w'
              Hl Hdist Hvals Hrun) as (_ & _ & Hheap).
  split_and!; [done| |done].
  rewrite Hvals. f_equal. symmetry.
  apply mapM_Some, Forall2_length in Hvals. rewrite Hvals.
  by apply place_by_position_enumerate.
Qed.

(** X2: a list that holds an entry that is no handle, or that names a
    remote object twice, makes the eager join raise at its first wait,
    [TypeError] in the first case and [ValueError] in the second; by then
    the given list has been emptied. *)
Theorem join_ray_futures_rejects (fuel : nat) (futures : addr) (items : list addr)
    (w : World) :
  heap w !! futures = Some (PyList items) →
  ¬ distinct_futures (heap w) items →
  ∃ w1,
    join_ray_futures ready task_value (S (S fuel)) futures w
      = (Failed (match mapM (deref_future (heap w)) items with
                 | None => TypeError
                 | Some _ => ValueError
                 end), w1)
    ∧ heap w1 = <[futures := PyList []]> (heap w).
Proof.
  intros Hl Hnd.
  unfold join_ray_futures, py_len, join_ray_futures_iter. rewrite Hl.
  cbn [join_loop gen_next]. rewrite Hl.
  unfold _make_copy_and_empty_given.
  destruct items as [|a0 l].
  { destruct Hnd. exists []. split; [done|constructor]. }
  rewrite poll_loop_cons. unfold ray_wait. simpl heap.
  rewrite (mapM_ext _ (deref_future (heap w)))
    by (intros a; by eapply deref_future_emptied).
  destruct (mapM _ _) as [refs|] eqn:Hrefs.
  - rewrite decide_False by (intros Hn; apply Hnd; by exists refs).
    by eexists.
  - by eexists.
Qed.

Lemma join_fails_with_the_task futures items w :
  heap w !! futures = Some (PyList items) →
  distinct_futures (heap w) items →
  eventually_reported ready (heap w) items →
  Exists (λ a, future_value task_value (heap w) a = None) items →
  ∃ fuel0 w', ∀ fuel, fuel0 ≤ fuel →
    join_ray_futures ready task_value fuel futures w = (Failed RayTaskError, w').
Proof.
  intros Hl Hdist Hev Hfail.
  destruct (created_terminates ready task_value futures items w Hl Hev)
    as (fuel0 & [[pairs e] w'] & Hfin & Hrun).
  exists (S fuel0), w'. intros fuel Hfuel.
  rewrite (join_ray_futures_eager_of_lazy _ _ _ _ _ _ Hl), (Hrun fuel) by lia.
  specialize (Hrun fuel ltac:(lia)).
  destruct e as [|e|]; [exfalso| |done].
  - destruct (exhausted_run _ _ _ _ _ _ Hl Hrun) as (_ & values & Hvals & _).
    apply mapM_Some in Hvals. apply Exists_exists in Hfail as (a & Ha & Hnone).
    apply list_elem_of_lookup in Ha as [i Hi].
    destruct (Forall2_lookup_l _ _ _ _ _ Hvals Hi) as (v & _ & Hv). congruence.
  - destruct fuel as [|fuel]; [lia|].
    rewrite (emitted_created _ _ _ _ _ _ Hl) in Hrun.
    pose proof (emitted_sound (<[futures := PyList []]> (heap w)) (id_to_position_map items)
                  (S fuel) items [] 0 (_make_copy_and_empty_given futures items w).2
                  eq_refl) as Hok.
    rewrite Hrun in Hok. destruct Hok as [-> _]; [| |done].
    + by eapply distinct_futures_emptied.
    + intros a [Ha|Ha]; [by apply id_to_position_map_elem_of|by apply elem_of_nil in Ha].
Qed.

(** X3: when the futures are distinct handles that all complete but the
    task of one of them raised, the eager join raises [RayTaskError]: the
    values of the other futures are not returned. *)
Theorem join_ray_futures_task_failure (futures : addr) (items : list addr) (w : World) :
  heap w !! futures = Some (PyList items) →
  distinct_futures (heap w) items →
  eventually_reported ready (heap w) items →
  Exists (λ a, future_value task_value (heap w) a = None) items →
  ∃ fuel0 w', ∀ fuel, fuel0 ≤ fuel →
    join_ray_futures ready task_value fuel futures w = (Failed RayTaskError, w').
Proof. apply join_fails_with_the_task. Qed.


Lemma poll_loop_accounted fuel m futures pbar w r m' rest pend pbar' w' :
  poll_loop ready task_value fuel m futures pbar w = (r, Suspended m' rest pend pbar', w') →
  pbar' + length pend + length rest = pbar + length futures
  ∧ pbar' = pbar + (if r is Yield _ then 1 else 0).
Proof.
  revert futures w. induction fuel as [|fuel IH]; intros [|a0 l] w; try done.
  { intros [= <- <- <- <- <- <-]. simpl. lia. }
  rewrite poll_loop_cons.
  destruct (ray_wait _ _ _) as [[e|[dn rest0]] w1] eqn:Hw; [done|].
  apply ray_wait_inr in Hw as (Hdn & Hrest & _).
  pose proof (filter_partition_length (λ a, reported ready w a = true) (a0 :: l)) as Hlen.
  rewrite <-Hdn, <-Hrest in Hlen.
  destruct (ray_get _ _ _) as [[e|values] w2] eqn:Hg; [done|].
  apply ray_get_inr in Hg as (Hvals & _).
  destruct Hvals as [|a v dn' values' Hav Hvals]; simpl.
  - intros Hrec. apply IH in Hrec. simpl in *. lia.
  - unfold yield_item. destruct (m !! a); [|done].
    intros [= <- <- <- <- <- <-]. rewrite length_zip.
    apply Forall2_length in Hvals. simpl in *. lia.
Qed.

Lemma gen_next_accounted fuel g w r m' rest pend pbar' w' :
  gen_next ready task_value fuel g w = (r, Suspended m' rest pend pbar', w') →
  accounted (heap w') (Suspended m' rest pend pbar') = accounted (heap w) g
  ∧ pbar' = progress g + (if r is Yield _ then 1 else 0).
Proof.
  destruct g as [futures|m tr [|[future v] pending] pbar|]; cbn [gen_next]; [| | |done].
  - destruct (heap w !! futures) as [[items| | | | |]|] eqn:Hl; try done.
    unfold _make_copy_and_empty_given. intros Hpoll%poll_loop_accounted.
    simpl. rewrite Hl. lia.
  - intros Hpoll%poll_loop_accounted. simpl. lia.
  - unfold yield_item. destruct (m !! future); [|done].
    intros [= <- <- <- <- <- <-]. simpl. lia.
Qed.

(** X5: after [k] pairs have been taken from the generator of a list of
    [N] futures, the progress bar stands at [k], and the pairs emitted, the
    values fetched but not yet emitted and the futures still waited for add
    up to [N]; so the bar never passes the total it was created with. *)
Theorem progress_bar_counts_emitted (fuel k : nat) (futures : addr) (items : list addr)
    (w : World) (g' : Generator) (w' : World) :
  heap w !! futures = Some (PyList items) →
  resumed ready task_value fuel k (join_ray_futures_iter futures w).1 w = Some (g', w') →
  progress g' = k
  ∧ accounted (heap w') g' = length items
  ∧ k ≤ length items.
Proof.
  intros Hl. unfold join_ray_futures_iter. simpl fst.
  assert (∀ g w0, accounted (heap w0) g = length items →
            resumed ready task_value fuel k g w0 = Some (g', w') →
            progress g' = progress g + k ∧ accounted (heap w') g' = length items) as Hgen.
  { induction k as [|k IH]; intros g w0 Hacc; cbn [resumed].
    - intros [= <- <-]. split; [lia|done].
    - destruct (gen_next _ _ _ _ _) as [[[item| |e|] g1] w1] eqn:Hnext; try done.
      destruct g1 as [arg|m1 rest1 pend1 pbar1|].
      + by destruct (gen_next_not_created ready task_value fuel g w0 arg); rewrite Hnext.
      + apply gen_next_accounted in Hnext as [Hacc1 Hpb].
        intros Hres. apply IH in Hres; [|congruence]. simpl in *. lia.
      + destruct k; cbn [resumed gen_next]; [|done].
        intros [= <- <-]. exfalso. clear -Hnext. destruct item as [position result].
        destruct g as [futures|m tr [|[future v] pending] pbar|]; cbn [gen_next] in Hnext.
        * destruct (heap w0 !! futures) as [[its| | | | |]|]; try done.
          unfold _make_copy_and_empty_given in Hnext.
          by apply poll_loop_yield in Hnext as [_ (? & ? & ? & ?)].
        * by apply poll_loop_yield in Hnext as [_ (? & ? & ? & ?)].
        * unfold yield_item in Hnext. by destruct (m !! future).
        * done. }
  intros Hres. destruct (Hgen (Created futures) w) as [Hp Ha]; [simpl; by rewrite Hl|done|].
  simpl in Hp. split_and!; [done..|].
  destruct g' as [arg|m' rest pend pbar'|]; simpl in *; [|lia|lia].
  destruct (heap w' !! arg) as [[its| | | | |]|]; lia.
Qed.

Lemma join_ray_futures_returns futures items values w :
  heap w !! futures = Some (PyList items) →
  distinct_futures (heap w) items →
  mapM (future_value task_value (heap w)) items = Some values →
  eventually_reported ready (heap w) items →
  ∃ fuel0 w',
    (∀ fuel, fuel0 ≤ fuel →
       join_ray_futures ready task_value fuel futures w = (Returned values, w'))
    ∧ heap w' = <[futures := PyList []]> (heap w).
Proof.
  intros Hl Hdist Hvals Hev.
  destruct (created_terminates ready task_value futures items w Hl Hev)
    as (fuel0 & [[pairs e] w'] & Hfin & Hrun).
  exists fuel0, w'.
  pose proof (Hrun fuel0 ltac:(lia)) as Hrun0.
  destruct e as [|e|]; [| |done].
  - destruct (run_of_distinct_futures ready task_value fuel0 futures items values w pairs w'
                Hl Hdist Hvals Hrun0) as (Hperm & _ & Hheap).
    split; [|done]. intros fuel Hfuel.
    rewrite (join_ray_futures_eager_of_lazy _ _ _ _ _ _ Hl), (Hrun fuel Hfuel). simpl.
    apply mapM_Some, Forall2_length in Hvals. rewrite Hvals.
    by rewrite place_by_position_enumerate.
  - by eapply run_of_distinct_futures_not_raised in Hrun0.
Qed.
End JoinerMore.

(** ** Submitting tasks *)

Lemma refs_in_spec h r : r ∈ refs_in h ↔ ∃ a, h !! a = Some (PyObjectRef r).
Proof.
  unfold refs_in. rewrite elem_of_list_to_set, list_elem_of_omap. split.
  - intros ([a o] & Hin%elem_of_map_to_list & Ho). simpl in Ho.
    destruct o; simplify_eq. eauto.
  - intros [a Ha]. exists (a, PyObjectRef r). split; [|done].
    by apply elem_of_map_to_list.
Qed.

Lemma zip_star_lookup {A} (params : list (list A)) i row :
  zip_star params !! i = Some row ↔
  params ≠ [] ∧ Forall2 (λ p x, p !! i = Some x) params row.
Proof.
  destruct params as [|p ps].
  { split; [done|]. by intros [? _]. }
  unfold zip_star. set (n := foldr _ _ _).
  assert (∀ j, j < n ↔ Forall (λ q, j < length q) (p :: ps)) as Hn.
  { intros j. subst n. rewrite Forall_cons. induction ps as [|q ps IH]; simpl.
    - rewrite Forall_nil. tauto.
    - rewrite Forall_cons, Nat.min_glb_lt_iff, IH. tauto. }
  assert (∀ (l : list (list A)) k,
            Forall2 (λ q x, q !! i = Some x) l k → omap (λ q, q !! i) l = k) as Hrow.
  { induction 1 as [|q x l k Hq _ IH]; [done|]. cbn. rewrite Hq. simpl. by f_equal. }
  assert (∀ l : list (list A),
            Forall (λ q, i < length q) l →
            Forall2 (λ q x, q !! i = Some x) l (omap (λ q, q !! i) l)) as Hall'.
  { induction 1 as [|q l Hq _ IH]; [constructor|].
    apply lookup_lt_is_Some in Hq as [x Hx]. cbn. rewrite Hx. simpl. by constructor. }
  rewrite list_lookup_fmap. split.
  - destruct (seq 0 n !! i) as [j|] eqn:Hj; [|done].
    apply lookup_seq in Hj as [-> Hi]. simpl. intros [= <-]. split; [done|].
    apply Hn in Hi. by apply (Hall' (p :: ps)).
  - intros [_ Hall]. rewrite lookup_seq_lt.
    + simpl. f_equal. by apply (Hrow (p :: ps)).
    + apply Hn. generalize (p :: ps) row Hall. clear.
      induction 1 as [|q x l k Hq _ IH]; constructor; [|done].
      by eapply lookup_lt_Some.
Qed.

Lemma zip_star_nil {A} (columns : list (list A)) : [] ∈ columns → zip_star columns = [].
Proof.
  intros Hin. destruct (zip_star columns) as [|row rows] eqn:Hz; [done|].
  assert (zip_star columns !! 0 = Some row) as H0 by (by rewrite Hz).
  apply zip_star_lookup in H0 as [_ Hall].
  apply list_elem_of_lookup in Hin as [k Hk].
  destruct (Forall2_lookup_l _ _ _ _ _ Hall Hk) as (x & _ & Hx). done.
Qed.

Lemma zip_star_cons {A} (heads : list A) (tails : list (list A)) :
  heads ≠ [] → length heads = length tails →
  zip_star (zip_with cons heads tails) = heads :: zip_star tails.
Proof.
  intros Hne Hlen.
  assert (∀ i row, Forall2 (λ p x, p !! S i = Some x) (zip_with cons heads tails) row
                   ↔ Forall2 (λ p x, p !! i = Some x) tails row) as Htl.
  { intros i. revert tails Hlen. clear Hne.
    induction heads as [|x heads IH]; intros [|t tails] Hlen row; simplify_eq/=;
      [split; inversion 1; constructor|].
    split; intros Hall; inversion Hall; subst; constructor; try done; by apply (IH tails). }
  assert (Forall2 (λ p x, p !! 0 = Some x) (zip_with cons heads tails) heads) as Hhd.
  { clear Htl Hne. revert tails Hlen.
    induction heads as [|x heads IH]; intros [|t tails] Hlen;
      simplify_eq/=; constructor; [done|]. by apply IH. }
  assert (zip_with cons heads tails ≠ []) as Hcols.
  { destruct heads, tails; simplify_eq/=; done. }
  assert (tails ≠ []) as Htails by (destruct heads, tails; simplify_eq/=; done).
  apply list_eq. intros [|i].
  - simpl. by apply zip_star_lookup.
  - simpl. destruct (zip_star tails !! i) as [row|] eqn:Hrow.
    + apply zip_star_lookup. split; [done|]. apply Htl.
      by apply zip_star_lookup in Hrow as [_ ?].
    + destruct (zip_star (zip_with cons heads tails) !! S i) as [row|] eqn:Hrow'; [|done].
      apply zip_star_lookup in Hrow' as [_ Hall%Htl].
      assert (zip_star tails !! i = Some row) as Hr by (by apply zip_star_lookup).
      congruence.
Qed.

Lemma columns_cases {A} (columns : list (list A)) :
  [] ∈ columns
  ∨ ∃ heads tails, columns = zip_with cons heads tails ∧ length heads = length tails.
Proof.
  induction columns as [|[|x c] columns IH].
  - right. by exists [], [].
  - left. left.
  - destruct IH as [Hin|(heads & tails & -> & Hlen)]; [left; by right|].
    right. exists (x :: heads), (c :: tails). simpl. by rewrite Hlen.
Qed.

Lemma zip_pull_sequences_some heads tails h :
  length heads = length tails →
  zip_pull (SequenceIterator <$> zip_with cons heads tails) h
  = (Some heads, SequenceIterator <$> tails, h).
Proof.
  revert tails. induction heads as [|x heads IH]; intros [|t tails] Hlen; simplify_eq/=; [done|].
  change (list_fmap _ _ SequenceIterator) with (fmap (M:=list) SequenceIterator).
  by rewrite (IH tails).
Qed.

Lemma zip_pull_sequences_none columns h :
  [] ∈ columns → ∃ srcs, zip_pull (SequenceIterator <$> columns) h = (None, srcs, h).
Proof.
  induction columns as [|[|x c] columns IH]; intros Hin.
  - by apply elem_of_nil in Hin.
  - by eexists.
  - apply elem_of_cons in Hin as [?|Hin]; [done|].
    destruct (IH Hin) as [srcs Hsrcs]. rewrite fmap_cons. cbn [zip_pull pull].
    rewrite Hsrcs. by eexists.
Qed.

(** The parameters that are lists, tuples or other collections are
    iterated from new iterators. *)
Lemma zip_init_sequences h params columns :
  Forall2 (λ p column, ∃ o, h !! p = Some o ∧ sequence_items o = Some column)
    params columns →
  zip_init h params = Some (inr (SequenceIterator <$> columns)).
Proof.
  induction 1 as [|p column params columns (o & Hp & Ho) _ IH]; [done|].
  simpl. rewrite IH.
  assert (py_iter h p = Some (inr (SequenceIterator column))) as ->; [|done].
  unfold py_iter. rewrite Hp.
  destruct o as [| | | | |[]]; simplify_eq/=; done.
Qed.

Section RemoteFacts.
Context {A : Type}.
Variable binds : A → bool.
Variable function : A → option PyVal.

(** What submitting a batch of calls that bind leaves behind: the old
    objects as they were, one new handle for each call, naming a new remote
    object that holds the outcome of the call. *)
Lemma remote_all_spec calls h table :
  Forall (λ args, binds args = true) calls →
  ∃ refs futures h2 table2,
    remote_all binds function calls h table = (inr futures, h2, table2)
    ∧ h ⊆ h2
    ∧ Forall2 (λ a r, h2 !! a = Some (PyObjectRef r) ∧ h !! a = None) futures refs
    ∧ NoDup refs
    ∧ Forall (λ r, r ∉ refs_in h) refs
    ∧ Forall2 (λ r args, table2 !! r = Some (function args)) refs calls
    ∧ (∀ r, r ∈ refs_in h → table2 !! r = table !! r)
    ∧ dom h2 = dom h ∪ list_to_set futures.
Proof.
  intros Hbinds. revert h table.
  induction Hbinds as [|args calls Hb _ IH]; intros h table.
  { exists [], [], h, table. simpl. split_and!; try done; [constructor..|set_solver]. }
  cbn [remote_all]. unfold remote. rewrite Hb.
  set (r := fresh (refs_in h)). set (a := fresh (dom h)).
  assert (h !! a = None) as Ha by (apply not_elem_of_dom, is_fresh).
  assert (r ∉ refs_in h) as Hr by apply is_fresh.
  destruct (IH (<[a := PyObjectRef r]> h) (<[r := function args]> table))
    as (refs & futures & h2 & table2 & -> & Hsub & Hnew & Hnd & Hfresh & Htab & Hold & Hdom).
  assert (h ⊆ h2) as Hsub' by (etrans; [by apply insert_subseteq|done]).
  assert (r ∈ refs_in (<[a := PyObjectRef r]> h)) as Hrin.
  { apply refs_in_spec. exists a. apply lookup_insert_eq. }
  assert (∀ r0, r0 ∈ refs_in h → r0 ∈ refs_in (<[a := PyObjectRef r]> h)) as Hmono.
  { intros r0 [a0 Ha0]%refs_in_spec. apply refs_in_spec. exists a0.
    rewrite lookup_insert_ne; [done|]. intros ->. congruence. }
  exists (r :: refs), (a :: futures), h2, table2. split_and!.
  - done.
  - done.
  - constructor.
    + split; [|done]. eapply lookup_weaken; [|exact Hsub]. apply lookup_insert_eq.
    + eapply Forall2_impl; [done|]. intros a1 r1 [H1 H2]. split; [done|].
      destruct (decide (a = a1)) as [->|Hne]; [done|]. by rewrite lookup_insert_ne in H2.
  - constructor; [|done]. intros Hin. rewrite Forall_forall in Hfresh. by apply (Hfresh r).
  - constructor; [done|]. eapply Forall_impl; [done|]. intros r1 H1 H2. by apply H1, Hmono.
  - constructor; [|done]. rewrite Hold by done. apply lookup_insert_eq.
  - intros r0 Hr0. rewrite Hold by (by apply Hmono). apply lookup_insert_ne. congruence.
  - rewrite Hdom, dom_insert_L. set_solver.
Qed.

Section Join.
Variable ready : nat → ref → bool.
Variable task_value : ref → option PyVal.

(** The store and the cluster as they are handed to the joiner. *)
Lemma submitted_futures calls w :
  Forall (λ args, binds args = true) calls →
  ∃ refs items h1 table,
    remote_all binds function calls (heap w) ∅ = (inr items, h1, table)
    ∧ let futures := fresh (dom h1) in
      let h := <[futures := PyList items]> h1 in
      h !! futures = Some (PyList items)
      ∧ heap w ⊆ h
      ∧ heap w !! futures = None
      ∧ mapM (deref_future h) items = Some refs
      ∧ NoDup refs
      ∧ mapM (future_value (submitted_value table task_value) h) items
        = mapM function calls.
Proof.
  intros Hbinds.
  destruct (remote_all_spec calls (heap w) ∅ Hbinds)
    as (refs & items & h1 & table & Hrun & Hsub & Hnew & Hnd & _ & Htab & _ & _).
  exists refs, items, h1, table. split; [done|].
  set (futures := fresh (dom h1)).
  assert (h1 !! futures = None) as Hfut by (apply not_elem_of_dom, is_fresh).
  assert (∀ a r, h1 !! a = Some (PyObjectRef r) →
            deref_future (<[futures := PyList items]> h1) a = Some r) as Hderef.
  { intros a r Ha. unfold deref_future. rewrite lookup_insert_ne by congruence. by rewrite Ha. }
  simpl. split_and!.
  - apply lookup_insert_eq.
  - etrans; [done|]. by apply insert_subseteq.
  - destruct (heap w !! futures) eqn:Hw; [|done].
    eapply lookup_weaken in Hw; [|done]. congruence.
  - apply mapM_Some. eapply Forall2_impl; [done|]. intros a r [Ha _]. by apply Hderef.
  - done.
  - revert Hderef. generalize (<[futures := PyList items]> h1) as h. intros h Hderef.
    clear Hnd Hfut Hrun Hbinds. revert refs Hnew Htab. generalize calls as cs.
    generalize items as l.
    induction l as [|a l IH]; intros cs refs Hnew Htab.
    + inversion Hnew; subst. by inversion Htab.
    + inversion Hnew as [|? r ? refs' [Ha _] Hnew']; subst.
      inversion Htab as [|? args ? cs' Hr Htab']; subst.
      assert (∀ {X Y} (f : X → option Y) x k,
                mapM f (x :: k) = y ← f x; ys ← mapM f k; mret (y :: ys)) as Hcons by done.
      rewrite !Hcons, (IH cs' refs') by done.
      unfold future_value. rewrite (Hderef a r Ha). simpl.
      unfold submitted_value. by rewrite Hr.
Qed.

(** The join of the handles of calls that all bind and all give a value. *)
Lemma join_submitted_returns calls values w :
  (∀ r k, ∃ k', k ≤ k' ∧ ready k' r = true) →
  Forall (λ args, binds args = true) calls →
  mapM function calls = Some values →
  ∃ items h1 table,
    remote_all binds function calls (heap w) ∅ = (inr items, h1, table)
    ∧ ∃ fuel0 w',
        (∀ fuel, fuel0 ≤ fuel →
           join_submitted ready task_value fuel items h1 table w = (Returned values, w'))
        ∧ heap w ⊆ heap w'.
Proof.
  intros Hfair Hbinds Hvals.
  destruct (submitted_futures calls w Hbinds)
    as (refs & items & h1 & table & Hrun & Hl & Hsub & Hnone & Hrefs & Hnd & Hfv).
  exists items, h1, table. split; [done|]. unfold join_submitted.
  set (futures := fresh (dom h1)) in *.
  set (w1 := {| heap := <[futures := PyList items]> h1; clock := clock w; fetched := fetched w |}).
  destruct (join_ray_futures_returns ready (submitted_value table task_value)
              futures items values w1) as (fuel0 & w' & Hjoin & Hheap).
  - done.
  - by exists refs.
  - simpl. by rewrite Hfv.
  - intros a r _ _ k. apply Hfair.
  - exists fuel0, w'. split; [done|].
    rewrite Hheap. simpl. apply map_subseteq_spec. intros a o Ha.
    assert (a ≠ futures) as Hne by (intros Heq; rewrite Heq in Ha; congruence).
    rewrite lookup_insert_ne by done.
    by eapply lookup_weaken; [exact Ha|exact Hsub].
Qed.


Lemma submit_and_join_returns calls values w :
  (∀ r k, ∃ k', k ≤ k' ∧ ready k' r = true) →
  Forall (λ args, binds args = true) calls →
  mapM function calls = Some values →
  ∃ fuel0 w',
    (∀ fuel, fuel0 ≤ fuel →
       submit_and_join binds function ready task_value fuel calls w = (Returned values, w'))
    ∧ heap w ⊆ heap w'.
Proof.
  intros Hfair Hbinds Hvals. unfold submit_and_join.
  destruct (join_submitted_returns calls values w Hfair Hbinds Hvals)
    as (items & h1 & table & -> & Hjoin). done.
Qed.
End Join.
End RemoteFacts.

(** The lazy comprehension over the rows of collections submits the rows of
    [zip_star], as the comprehension over the list of these rows would. *)
Lemma submit_rows_sequences binds function fuel columns h table :
  length (zip_star columns) < fuel →
  submit_rows binds function fuel (SequenceIterator <$> columns) h table
  = let '(outcome, h2, table2) :=
      remote_all (λ row, binds (length row)) function (zip_star columns) h table in
    (Some outcome, h2, table2).
Proof.
  revert columns h table. induction fuel as [|fuel IH]; intros columns h table Hfuel; [lia|].
  cbn [submit_rows].
  destruct columns as [|c columns]; [done|].
  change (zip_next (SequenceIterator <$> c :: columns) h)
    with (zip_pull (SequenceIterator <$> c :: columns) h).
  destruct (columns_cases (c :: columns)) as [Hin|(heads & tails & Heq & Hlen)].
  - destruct (zip_pull_sequences_none _ h Hin) as [srcs ->].
    by rewrite (zip_star_nil _ Hin).
  - rewrite Heq in *. rewrite zip_pull_sequences_some by done.
    assert (heads ≠ []) as Hne by (destruct heads, tails; simplify_eq/=; done).
    rewrite zip_star_cons in * by done. cbn [remote_all].
    destruct (remote _ _ heads h table) as [e|[[future h2] table2]]; [done|].
    rewrite IH by (simpl in Hfuel; lia).
    by destruct (remote_all _ _ _ _ _) as [[outcome h3] table3].
Qed.

Section Callers.
Variable ready : nat → ref → bool.
Variable task_value : ref → option PyVal.

(** The rows of collections have one entry for each parameter. *)
Lemma zip_star_rows_bind {A} (binds : nat → bool) (columns : list (list A)) :
  binds (length columns) = true →
  Forall (λ row, binds (length row) = true) (zip_star columns).
Proof.
  intros Hb. apply Forall_lookup. intros i row Hrow.
  apply zip_star_lookup in Hrow as [_ Hall]. apply Forall2_length in Hall.
  by rewrite <- Hall.
Qed.

(** X6: [parallelize_with_ray] on a connected cluster where every task
    completes, when the parameters are lists, tuples or other collections
    of the store: if [function] can be called with as many arguments as
    there are parameters and gives a value on every row of
    [zip( *params )], the call returns these values in the order of the
    rows, row [i] being made of the [i]-th item of each parameter; and
    every object the store held before, the parameters among them, is
    still there, unchanged. *)
Theorem parallelize_with_ray_in_order
    (binds : nat → bool) (function : list PyVal → option PyVal) (params : list addr)
    (columns : list (list PyVal)) (values : list PyVal) (w : World) :
  (∀ r k, ∃ k', k ≤ k' ∧ ready k' r = true) →
  Forall2 (λ p column, ∃ o, heap w !! p = Some o ∧ sequence_items o = Some column)
    params columns →
  binds (length params) = true →
  mapM function (zip_star columns) = Some values →
  (∃ fuel0 w',
      (∀ fuel, fuel0 ≤ fuel →
         parallelize_with_ray ready task_value fuel true binds function params w
           = Some (Returned values, w'))
      ∧ heap w ⊆ heap w')
  ∧ ∀ i row, zip_star columns !! i = Some row →
      Forall2 (λ column x, column !! i = Some x) columns row
      ∧ values !! i = function row.
Proof.
  intros Hfair Hparams Hbinds Hvals. split.
  - rewrite (Forall2_length _ _ _ Hparams) in Hbinds.
    destruct (join_submitted_returns (λ row, binds (length row)) function ready task_value
                (zip_star columns) values w Hfair (zip_star_rows_bind _ _ Hbinds) Hvals)
      as (items & h1 & table & Hrun & fuel0 & w' & Hjoin & Hsub).
    exists (max fuel0 (S (length (zip_star columns)))), w'. split; [|done].
    intros fuel Hfuel. unfold parallelize_with_ray.
    rewrite (zip_init_sequences _ _ _ Hparams), submit_rows_sequences by lia.
    rewrite Hrun. rewrite Hjoin by lia. done.
  - intros i row Hrow. split; [by apply zip_star_lookup in Hrow as [_ ?]|].
    apply mapM_Some in Hvals.
    destruct (Forall2_lookup_l _ _ _ _ _ Hvals Hrow) as (v & -> & Hv). done.
Qed.


(** X18: [parallelize_with_ray] on collections that give at least one row,
    when [function] cannot be called with as many arguments as there are
    parameters: the first submission raises [TypeError] in the caller; no
    task is submitted, no wait is issued and nothing changes. *)
Theorem parallelize_with_ray_binding_failure
    (binds : nat → bool) (function : list PyVal → option PyVal) (params : list addr)
    (columns : list (list PyVal)) (fuel : nat) (w : World) :
  Forall2 (λ p column, ∃ o, heap w !! p = Some o ∧ sequence_items o = Some column)
    params columns →
  zip_star columns ≠ [] →
  binds (length params) = false →
  parallelize_with_ray ready task_value (S fuel) true binds function params w
    = Some (Failed TypeError, w).
Proof.
  intros Hparams Hrows Hbinds.
  rewrite (Forall2_length _ _ _ Hparams) in Hbinds.
  unfold parallelize_with_ray. rewrite (zip_init_sequences _ _ _ Hparams).
  cbn [submit_rows].
  destruct columns as [|c columns]; [done|].
  change (zip_next (SequenceIterator <$> c :: columns) (heap w))
    with (zip_pull (SequenceIterator <$> c :: columns) (heap w)).
  destruct (columns_cases (c :: columns)) as [Hin|(heads & tails & Heq & Hlen)].
  { by rewrite (zip_star_nil _ Hin) in Hrows. }
  rewrite Heq in *. rewrite zip_pull_sequences_some by done.
  unfold remote.
  assert (length heads = length (zip_with cons heads tails)) as ->.
  { rewrite length_zip_with. lia. }
  rewrite Hbinds. by destruct w.
Qed.

(** X8: [RayExecutor._run_execution] on [N] processing arguments whose
    workflows all complete with a result: it returns exactly the [N]
    results, the one of the [i]-th argument at index [i], and leaves every
    object the store held before unchanged. *)
Theorem run_execution_in_submission_order
    (_execute_workflow : PyVal → option PyVal) (processing_args results : list PyVal)
    (w : World) :
  (∀ r k, ∃ k', k ≤ k' ∧ ready k' r = true) →
  mapM _execute_workflow processing_args = Some results →
  (∃ fuel0 w',
      (∀ fuel, fuel0 ≤ fuel →
         RayExecutor_run_execution ready task_value _execute_workflow fuel processing_args w
           = (Returned results, w'))
      ∧ heap w ⊆ heap w')
  ∧ length results = length processing_args
  ∧ ∀ i args, processing_args !! i = Some args → results !! i = _execute_workflow args.
Proof.
  intros Hfair Hvals. split_and!.
  - apply submit_and_join_returns; [done| |done]. by apply Forall_forall.
  - apply mapM_Some in Hvals. symmetry. by eapply Forall2_length.
  - intros i args Hi. apply mapM_Some in Hvals.
    destruct (Forall2_lookup_l _ _ _ _ _ Hvals Hi) as (v & -> & Hv). done.
Qed.
End Callers.

(** ** Iterators as parameters *)

(** The join of handles that name distinct remote objects holding the
    outcomes of calls that all give a value. *)
Lemma join_of_submitted {A} (function : A → option PyVal) ready task_value
    items refs calls values h1 table w :
  (∀ r k, ∃ k', k ≤ k' ∧ ready k' r = true) →
  Forall2 (λ a r, h1 !! a = Some (PyObjectRef r)) items refs →
  NoDup refs →
  Forall2 (λ r args, table !! r = Some (function args)) refs calls →
  mapM function calls = Some values →
  ∃ fuel0 w',
    (∀ fuel, fuel0 ≤ fuel →
       join_submitted ready task_value fuel items h1 table w = (Returned values, w'))
    ∧ heap w' = <[fresh (dom h1) := PyList []]> h1.
Proof.
  intros Hfair Hnew Hnd Htab Hvals. unfold join_submitted.
  set (futures := fresh (dom h1)).
  assert (h1 !! futures = None) as Hfut by (apply not_elem_of_dom, is_fresh).
  set (h := <[futures := PyList items]> h1).
  assert (∀ a r, h1 !! a = Some (PyObjectRef r) → deref_future h a = Some r) as Hderef.
  { intros a r Ha. unfold deref_future, h. rewrite lookup_insert_ne by congruence.
    by rewrite Ha. }
  assert (∀ h0 : gmap addr PyObj,
            (∀ a r, h1 !! a = Some (PyObjectRef r) → deref_future h0 a = Some r) →
            ∀ l refs0 cs,
              Forall2 (λ a r, h1 !! a = Some (PyObjectRef r)) l refs0 →
              Forall2 (λ r args, table !! r = Some (function args)) refs0 cs →
              mapM (future_value (submitted_value table task_value) h0) l
              = mapM function cs) as Hfv'.
  { intros h0 Hd. induction l as [|a l IH]; intros refs0 cs Hn Ht.
    - inversion Hn; subst. by inversion Ht.
    - inversion Hn as [|? r ? refs' Ha Hn']; subst.
      inversion Ht as [|? args ? cs' Hr Ht']; subst.
      assert (∀ {X Y} (f : X → option Y) x k,
                mapM f (x :: k) = y ← f x; ys ← mapM f k; mret (y :: ys)) as Hcons by done.
      rewrite !Hcons, (IH refs' cs') by done.
      unfold future_value. rewrite (Hd a r Ha). simpl.
      unfold submitted_value. by rewrite Hr. }
  pose proof (Hfv' h Hderef items refs calls Hnew Htab) as Hfv.
  set (w1 := {| heap := h; clock := clock w; fetched := fetched w |}).
  destruct (join_ray_futures_returns ready (submitted_value table task_value)
              futures items values w1) as (fuel0 & w' & Hjoin & Hheap).
  - apply lookup_insert_eq.
  - exists refs. split; [|done]. apply mapM_Some.
    eapply Forall2_impl; [done|]. intros a r Ha. by apply Hderef.
  - simpl. rewrite <- Hvals. by apply Hfv.
  - intros a r _ _ k. apply Hfair.
  - exists fuel0, w'. split; [done|]. rewrite Hheap. simpl. unfold h.
    by rewrite insert_insert_eq.
Qed.

(** The columns that all have a first item. *)
Lemma columns_heads_tails {A} (columns : list (list A)) heads :
  mapM head columns = Some heads →
  columns = zip_with cons heads (tail <$> columns)
  ∧ length heads = length (tail <$> columns).
Proof.
  revert heads. induction columns as [|c columns IH]; intros heads.
  { by intros [= <-]. }
  assert (∀ {X Y} (f : X → option Y) x k,
            mapM f (x :: k) = y ← f x; ys ← mapM f k; mret (y :: ys)) as Hcons by done.
  rewrite Hcons, fmap_cons. destruct c as [|x c]; [done|]. intros Hh. simpl in Hh.
  destruct (mapM head columns) as [hs|]; [|done]. injection Hh as <-.
  destruct (IH hs eq_refl) as [Heq Hlen]. cbn [zip_with length tail].
  by rewrite <- Heq, Hlen.
Qed.

Lemma columns_no_head {A} (columns : list (list A)) :
  mapM head columns = None → [] ∈ columns.
Proof.
  intros Hnone. apply mapM_None in Hnone.
  apply Exists_exists in Hnone as ([|x c] & Hin & Hc); done.
Qed.

Lemma zip_leftover_exhausted {A} (columns : list (list A)) :
  mapM head columns = None →
  zip_leftover columns
  = imap (λ i c,
            drop (if bool_decide (Forall (λ c', 0 < length c') (take (S i) columns))
                  then 1 else 0) c) columns.
Proof.
  intros Hin%columns_no_head. unfold zip_leftover. by rewrite (zip_star_nil _ Hin).
Qed.

Lemma zip_leftover_drawn {A} (columns : list (list A)) heads :
  columns ≠ [] →
  mapM head columns = Some heads →
  zip_star columns = heads :: zip_star (tail <$> columns)
  ∧ zip_leftover columns = zip_leftover (tail <$> columns)
  ∧ imap (λ i c,
            drop (if bool_decide (Forall (λ c', 0 < length c') (take (S i) columns))
                  then 1 else 0) c) columns
    = tail <$> columns.
Proof.
  intros Hne Hheads.
  destruct (columns_heads_tails columns heads Hheads) as [Heq Hlen].
  assert (heads ≠ []) as Hh.
  { intros ->. destruct columns; [done|]. by rewrite length_fmap in Hlen. }
  assert (zip_star columns = heads :: zip_star (tail <$> columns)) as Hstar.
  { rewrite Heq at 1. by apply zip_star_cons. }
  assert (Forall (λ c, c ≠ []) columns) as Hall.
  { apply Forall_forall. intros c Hin ->.
    assert (mapM head columns = None) as Hnone; [|congruence].
    apply mapM_None, Exists_exists. by exists []. }
  split; [done|]. split.
  - unfold zip_leftover. rewrite Hstar. cbn [length].
    set (n := length (zip_star (tail <$> columns))).
    apply list_eq. intros i. rewrite !list_lookup_imap, list_lookup_fmap.
    destruct (columns !! i) as [c|] eqn:Hc; [|done]. simpl. f_equal.
    assert (Forall (λ c0 : list A, c0 ≠ []) (take (S i) columns)) as Hne'
      by (by apply Forall_take).
    assert (Forall (λ c0, S n < length c0) (take (S i) columns)
            ↔ Forall (λ c0, n < length c0) (take (S i) (tail <$> columns))) as Hiff.
    { rewrite <- fmap_take, Forall_fmap. split; intros H.
      - eapply Forall_impl; [apply Forall_and; split; [exact H|exact Hne']|].
        intros [|x c0] [? ?]; simpl in *; [done|lia].
      - eapply Forall_impl; [apply Forall_and; split; [exact H|exact Hne']|].
        intros [|x c0] [? ?]; simpl in *; [done|lia]. }
    rewrite (bool_decide_ext _ _ Hiff).
    assert (c ≠ []) as Hcne.
    { rewrite Forall_forall in Hall. apply Hall. by eapply list_elem_of_lookup_2. }
    destruct c as [|x c]; [done|]. by destruct (bool_decide _).
  - apply list_eq. intros i. rewrite list_lookup_imap, list_lookup_fmap.
    destruct (columns !! i) as [c|] eqn:Hc; [|done]. simpl. f_equal.
    rewrite bool_decide_eq_true_2; [by destruct c|].
    eapply Forall_impl; [by apply Forall_take|].
    intros [|x c0] ?; simpl; [done|lia].
Qed.

(** One row drawn from distinct iterator objects: the row is made of the
    first items when every iterator has one; the iterators up to the first
    exhausted one have given an item, and nothing else has changed. *)
Lemma zip_pull_iterators params columns h :
  NoDup params →
  Forall2 (λ p c, h !! p = Some (PyIterator c)) params columns →
  ∃ srcs h',
    zip_pull (IteratorObject <$> params) h
      = (fmap VObject <$> mapM head columns, srcs, h')
    ∧ (is_Some (mapM head columns) → srcs = IteratorObject <$> params)
    ∧ Forall2 (λ p c, h' !! p = Some (PyIterator c)) params
        (imap (λ i c,
                 drop (if bool_decide (Forall (λ c', 0 < length c') (take (S i) columns))
                       then 1 else 0) c) columns)
    ∧ (∀ a, a ∉ params → h' !! a = h !! a).
Proof.
  assert (∀ {X Y} (f : X → option Y) x k,
            mapM f (x :: k) = y ← f x; ys ← mapM f k; mret (y :: ys)) as Hcons by done.
  revert columns h. induction params as [|p ps IH]; intros columns h Hnd Hall.
  { apply Forall2_nil_inv_l in Hall as ->. exists [], h.
    split_and!; [done|done|constructor|done]. }
  apply Forall2_cons_inv_l in Hall as (c & cs & Hp & Hps & ->).
  apply NoDup_cons in Hnd as [Hp_notin Hnd].
  rewrite fmap_cons. cbn [zip_pull pull]. rewrite Hp, Hcons.
  destruct c as [|x c].
  - exists (IteratorObject p :: (IteratorObject <$> ps)), h.
    split_and!; [done|by intros [? ?]| |done].
    assert (imap (λ i c1,
              drop (if bool_decide (Forall (λ c', 0 < length c') (take (S i) ([] :: cs)))
                    then 1 else 0) c1) ([] :: cs) = [] :: cs) as ->.
    { assert (∀ i, bool_decide (Forall (λ c' : list addr, 0 < length c')
                                  (take (S i) ([] :: cs))) = false) as Hb.
      { intros i. apply bool_decide_eq_false_2. intros Hf.
        apply Forall_cons in Hf as [Hf _]. simpl in Hf. lia. }
      apply list_eq. intros i. rewrite list_lookup_imap.
      destruct (([] :: cs) !! i) as [ci|] eqn:Hci; [|done].
      cbn [fmap option_fmap option_map]. by rewrite Hb. }
    by constructor.
  - set (h1 := <[p := PyIterator c]> h).
    assert (Forall2 (λ p' c', h1 !! p' = Some (PyIterator c')) ps cs) as Hps'.
    { apply Forall2_same_length_lookup. split; [by eapply Forall2_length|].
      intros i p' c' Hi Hc'. unfold h1. rewrite lookup_insert_ne.
      - by apply (Forall2_lookup_lr _ _ _ _ _ _ Hps Hi Hc').
      - intros ->. apply Hp_notin. by eapply list_elem_of_lookup_2. }
    destruct (IH cs h1 Hnd Hps') as (srcs & h' & Hpull & Hsrcs & Hleft & Hframe).
    rewrite Hpull.
    exists (IteratorObject p :: srcs), h'. split_and!.
    + simpl. by destruct (mapM head cs).
    + simpl. destruct (mapM head cs); [|by intros [? ?]]. intros _.
      rewrite Hsrcs; [done|by eexists].
    + rewrite imap_cons. constructor.
      * rewrite bool_decide_eq_true_2.
        2:{ rewrite firstn_cons, take_0. constructor; [simpl; lia|constructor]. }
        simpl. rewrite Hframe by done. apply lookup_insert_eq.
      * erewrite imap_ext; [exact Hleft|]. intros i ci _. simpl.
        assert (Forall (λ c' : list addr, 0 < length c') ((x :: c) :: take (S i) cs)
                ↔ Forall (λ c' : list addr, 0 < length c') (take (S i) cs)) as Hiff.
        { rewrite Forall_cons. simpl. split; [by intros [_ ?]|]. intros ?. split; [lia|done]. }
        by rewrite (bool_decide_ext _ _ Hiff).
    + intros a Ha. apply not_elem_of_cons in Ha as [Hne Ha].
      rewrite Hframe by done. by apply lookup_insert_ne.
Qed.

(** Once the comprehension has come to its end, more fuel changes
    nothing. *)
Lemma submit_rows_more_fuel binds function fuel fuel' srcs h table outcome h2 table2 :
  submit_rows binds function fuel srcs h table = (Some outcome, h2, table2) →
  fuel ≤ fuel' →
  submit_rows binds function fuel' srcs h table = (Some outcome, h2, table2).
Proof.
  revert fuel' srcs h table outcome h2 table2.
  induction fuel as [|fuel IH]; intros fuel' srcs h table outcome h2 table2; [done|].
  destruct fuel' as [|fuel']; [lia|]. cbn [submit_rows]. intros Hrun Hle.
  destruct (zip_next srcs h) as [[[row|] srcs'] h1]; [|done].
  destruct (remote _ _ row h1 table) as [e|[[future h3] table3]]; [done|].
  destruct (submit_rows binds function fuel srcs' h3 table3) as [[[o|] h4] table4] eqn:Hrec;
    [|done].
  rewrite (IH fuel' _ _ _ _ _ _ Hrec) by lia. done.
Qed.

(** The lazy comprehension over distinct iterator objects: a handle for
    each row, naming a new remote object that holds the outcome of its
    call; the iterators are left with what [zip] did not draw, and nothing
    else has changed. *)
Lemma submit_rows_iterators binds function params :
  NoDup params →
  binds (length params) = true →
  ∀ fuel columns h table,
    Forall2 (λ p c, h !! p = Some (PyIterator c)) params columns →
    length (zip_star columns) < fuel →
    ∃ refs futures h2 table2,
      submit_rows binds function fuel (IteratorObject <$> params) h table
        = (Some (inr futures), h2, table2)
      ∧ Forall2 (λ a r, h2 !! a = Some (PyObjectRef r) ∧ h !! a = None) futures refs
      ∧ NoDup refs
      ∧ Forall (λ r, r ∉ refs_in h) refs
      ∧ Forall2 (λ r row, table2 !! r = Some (function (VObject <$> row))) refs
          (zip_star columns)
      ∧ (∀ r, r ∈ refs_in h → table2 !! r = table !! r)
      ∧ Forall2 (λ p c, h2 !! p = Some (PyIterator c)) params (zip_leftover columns)
      ∧ (∀ a, a ∉ params → a ∉ futures → h2 !! a = h !! a).
Proof.
  intros Hnd Hbinds fuel.
  induction fuel as [|fuel IH]; intros columns h table Hall Hfuel; [lia|].
  cbn [submit_rows].
  destruct params as [|p0 ps0] eqn:Hparams.
  { apply Forall2_nil_inv_l in Hall as ->. exists [], [], h, table.
    split_and!; by (done || constructor || apply NoDup_nil_2). }
  rewrite <- Hparams in *.
  assert (params ≠ []) as Hne by (by rewrite Hparams).
  assert (columns ≠ []) as Hcne.
  { intros ->. apply Forall2_nil_inv_r in Hall. done. }
  assert (zip_next (IteratorObject <$> params) h = zip_pull (IteratorObject <$> params) h)
    as -> by (by rewrite Hparams).
  clear Hparams p0 ps0.
  destruct (zip_pull_iterators params columns h Hnd Hall)
    as (srcs & h1 & -> & Hsrcs & Hleft & Hframe).
  destruct (mapM head columns) as [heads|] eqn:Hheads; simpl.
  2:{ exists [], [], h1, table. rewrite (zip_star_nil columns) by (by apply columns_no_head).
      rewrite zip_leftover_exhausted by done.
      split_and!; try done; try (by constructor). intros a0 Ha0 _. by apply Hframe. }
  rewrite Hsrcs by (by eexists).
  destruct (zip_leftover_drawn columns heads Hcne Hheads) as (Hstar & Hlo & Htails).
  rewrite Htails in Hleft. rewrite Hstar, Hlo. rewrite Hstar in Hfuel.
  set (tails := tail <$> columns) in *.
  unfold remote. rewrite length_fmap.
  assert (length heads = length params) as ->.
  { apply mapM_Some, Forall2_length in Hheads. apply Forall2_length in Hall. lia. }
  rewrite Hbinds.
  set (r := fresh (refs_in h1)). set (a := fresh (dom h1)).
  assert (h1 !! a = None) as Ha by (apply not_elem_of_dom, is_fresh).
  assert (r ∉ refs_in h1) as Hr by apply is_fresh.
  assert (∀ p, p ∈ params → ∃ c, h1 !! p = Some (PyIterator c)) as Hiter1.
  { intros p Hp. apply list_elem_of_lookup in Hp as [i Hi].
    destruct (Forall2_lookup_l _ _ _ _ _ Hleft Hi) as (c & _ & Hc). by exists c. }
  assert (∀ p, p ∈ params → ∃ c, h !! p = Some (PyIterator c)) as Hiter.
  { intros p Hp. apply list_elem_of_lookup in Hp as [i Hi].
    destruct (Forall2_lookup_l _ _ _ _ _ Hall Hi) as (c & _ & Hc). by exists c. }
  assert (a ∉ params) as Ha_params.
  { intros Hin. destruct (Hiter1 a Hin) as [c Hc]. congruence. }
  assert (∀ r0, r0 ∈ refs_in h → r0 ∈ refs_in h1) as Hmono.
  { intros r0 [a0 Ha0]%refs_in_spec. apply refs_in_spec. exists a0.
    rewrite Hframe; [done|]. intros Hin. destruct (Hiter a0 Hin) as [c Hc]. congruence. }
  set (h1' := <[a := PyObjectRef r]> h1).
  assert (∀ r0, r0 ∈ refs_in h1 → r0 ∈ refs_in h1') as Hmono'.
  { intros r0 [a0 Ha0]%refs_in_spec. apply refs_in_spec. exists a0.
    unfold h1'. rewrite lookup_insert_ne; [done|]. intros ->. congruence. }
  assert (r ∈ refs_in h1') as Hrin.
  { apply refs_in_spec. exists a. apply lookup_insert_eq. }
  assert (Forall2 (λ p c, h1' !! p = Some (PyIterator c)) params tails) as Hleft'.
  { eapply Forall2_impl; [exact Hleft|]. intros p c Hp. unfold h1'.
    rewrite lookup_insert_ne; [done|]. intros ->. congruence. }
  destruct (IH tails h1' (<[r := function (VObject <$> heads)]> table) Hleft')
    as (refs & futures & h2 & table2 & -> & Hnew & Hndr & Hfresh & Htab & Hold & Hfin & Hfr).
  { simpl in Hfuel. lia. }
  assert (a ∉ futures) as Ha_futures.
  { intros Hin. apply list_elem_of_lookup in Hin as [i Hi].
    destruct (Forall2_lookup_l _ _ _ _ _ Hnew Hi) as (r1 & _ & _ & Hnone).
    unfold h1' in Hnone. by rewrite lookup_insert_eq in Hnone. }
  exists (r :: refs), (a :: futures), h2, table2. simpl. split_and!.
  - done.
  - constructor.
    + split.
      * rewrite Hfr by done. apply lookup_insert_eq.
      * by rewrite <- Hframe.
    + eapply Forall2_impl; [exact Hnew|]. intros a1 r1 [H1 H2]. split; [done|].
      unfold h1' in H2. destruct (decide (a = a1)) as [->|Hne1].
      { by rewrite lookup_insert_eq in H2. }
      rewrite lookup_insert_ne in H2 by done.
      rewrite <- Hframe; [done|]. intros Hin. destruct (Hiter1 a1 Hin) as [c Hc]. congruence.
  - constructor; [|done]. intros Hin. rewrite Forall_forall in Hfresh. by apply (Hfresh r).
  - constructor; [by intros ?%Hmono|].
    eapply Forall_impl; [exact Hfresh|]. intros r1 H1 H2. by apply H1, Hmono', Hmono.
  - constructor; [|done]. rewrite Hold by done. apply lookup_insert_eq.
  - intros r0 Hr0. rewrite Hold by (by apply Hmono', Hmono).
    apply lookup_insert_ne. intros ->. by apply Hr, Hmono.
  - done.
  - intros a1 Hp Hf. apply not_elem_of_cons in Hf as [Hne1 Hf].
    rewrite Hfr by done. unfold h1'. rewrite lookup_insert_ne by done. by apply Hframe.
Qed.

Section IteratorsAsParameters.
Variable ready : nat → ref → bool.
Variable task_value : ref → option PyVal.

(** X20: [parallelize_with_ray] consumes the iterators it is given.  On a
    connected cluster where every task completes, when the parameters are
    pairwise distinct iterator objects and [function] accepts as many
    arguments as there are parameters and gives a value on every row, the
    call returns the values in the order of the rows; afterwards each
    iterator has lost as many items as there are rows, the iterators
    before the first that [zip] found exhausted one more, and every other
    object the store held is unchanged. *)
Theorem parallelize_with_ray_consumes_iterators
    (binds : nat → bool) (function : list PyVal → option PyVal) (params : list addr)
    (columns : list (list addr)) (values : list PyVal) (w : World) :
  (∀ r k, ∃ k', k ≤ k' ∧ ready k' r = true) →
  NoDup params →
  Forall2 (λ p c, heap w !! p = Some (PyIterator c)) params columns →
  binds (length params) = true →
  mapM (λ row, function (VObject <$> row)) (zip_star columns) = Some values →
  ∃ fuel0 w',
    (∀ fuel, fuel0 ≤ fuel →
       parallelize_with_ray ready task_value fuel true binds function params w
         = Some (Returned values, w'))
    ∧ Forall2 (λ p c, heap w' !! p = Some (PyIterator c)) params (zip_leftover columns)
    ∧ ∀ a o, a ∉ params → heap w !! a = Some o → heap w' !! a = Some o.
Proof.
  intros Hfair Hnd Hall Hbinds Hvals.
  assert (zip_init (heap w) params = Some (inr (IteratorObject <$> params))) as Hinit.
  { clear Hnd Hbinds Hvals. induction Hall as [|p c ps cs Hp _ IH]; [done|].
    simpl. unfold py_iter at 1. rewrite Hp, IH. done. }
  destruct (submit_rows_iterators binds function params Hnd Hbinds
              (S (length (zip_star columns))) columns (heap w) ∅ Hall ltac:(lia))
    as (refs & futures & h2 & table2 & Hrun & Hnew & Hndr & _ & Htab & _ & Hfin & Hfr).
  destruct (join_of_submitted (λ row, function (VObject <$> row)) ready task_value
              futures refs (zip_star columns) values h2 table2 w Hfair)
    as (fuel0 & w' & Hjoin & Hheap); [|done..|].
  { eapply Forall2_impl; [exact Hnew|]. by intros a r [? _]. }
  assert (h2 !! fresh (dom h2) = None) as Hfut by (apply not_elem_of_dom, is_fresh).
  exists (max fuel0 (S (length (zip_star columns)))), w'. split_and!.
  - intros fuel Hfuel. unfold parallelize_with_ray. rewrite Hinit.
    rewrite (submit_rows_more_fuel _ _ _ fuel _ _ _ _ _ _ Hrun) by lia.
    apply f_equal, Hjoin. lia.
  - rewrite Hheap. eapply Forall2_impl; [exact Hfin|]. intros p c Hp.
    rewrite lookup_insert_ne; [done|]. intros <-. congruence.
  - intros a o Ha Hw. rewrite Hheap.
    assert (a ∉ futures) as Haf.
    { intros Hin. apply list_elem_of_lookup in Hin as [i Hi].
      destruct (Forall2_lookup_l _ _ _ _ _ Hnew Hi) as (r1 & _ & _ & Hnone). congruence. }
    assert (h2 !! a = Some o) as Ha2 by (by rewrite Hfr).
    rewrite lookup_insert_ne; [done|]. intros <-. congruence.
Qed.
End IteratorsAsParameters.

(** ** The order in which the lazy mode emits *)

Lemma before_app_r {X} (l0 l : list X) x y : before l x y → before (l0 ++ l) x y.
Proof. intros (l1 & l2 & l3 & ->). exists (l0 ++ l1), l2, l3. by rewrite <-app_assoc. Qed.

Lemma before_app_l {X} (l l0 : list X) x y : before l x y → before (l ++ l0) x y.
Proof.
  intros (l1 & l2 & l3 & ->). exists l1, l2, (l3 ++ l0).
  by rewrite <-!app_assoc, <-!app_comm_cons, <-!app_assoc.
Qed.

Lemma before_app_mid {X} (l1 l2 : list X) x y : x ∈ l1 → y ∈ l2 → before (l1 ++ l2) x y.
Proof.
  intros (k1 & k2 & ->)%list_elem_of_split (k3 & k4 & ->)%list_elem_of_split.
  exists k1, (k2 ++ k3), k4. by rewrite <-!app_assoc.
Qed.

Lemma before_filter {X} (P : X → Prop) `{∀ x, Decision (P x)} (l : list X) x y :
  before l x y → P x → P y → before (filter P l) x y.
Proof.
  intros (l1 & l2 & l3 & ->) Hx Hy.
  exists (filter P l1), (filter P l2), (filter P l3).
  rewrite filter_app, filter_cons_True, filter_app, filter_cons_True by done. done.
Qed.

Lemma before_fmap {X Y} (f : X → Y) (l : list X) x y :
  before l x y → before (f <$> l) (f x) (f y).
Proof.
  intros (l1 & l2 & l3 & ->). exists (f <$> l1), (f <$> l2), (f <$> l3).
  by rewrite fmap_app, fmap_cons, fmap_app, fmap_cons.
Qed.

Lemma before_lookup {X} (l : list X) i j x y :
  i < j → l !! i = Some x → l !! j = Some y → before l x y.
Proof.
  intros Hij Hi Hj.
  exists (take i l), (take (j - S i) (drop (S i) l)), (drop (S (j - S i)) (drop (S i) l)).
  assert (drop (S i) l !! (j - S i) = Some y) as Hj'.
  { rewrite lookup_drop. by replace (S i + (j - S i)) with j by lia. }
  rewrite (take_drop_middle _ _ _ Hj'). by rewrite (take_drop_middle _ _ _ Hi).
Qed.

Section EmissionOrder.
Variable ready : nat → ref → bool.
Variable task_value : ref → option PyVal.
Variable h : gmap addr PyObj.
Variable m : gmap addr nat.

Local Abbreviation rep k x := (reported ready {| heap := h; clock := k; fetched := [] |} x).

Lemma reported_rep w x : heap w = h → reported ready w x = rep (clock w) x.
Proof. by intros <-. Qed.

Lemma rep_ready k x r : deref_future h x = Some r → rep k x = ready k r.
Proof. unfold reported. simpl. by intros ->. Qed.

(** The wait that ends a poll: the first, from the current one on, to
    report some tracked future; the futures it reports are fetched and
    leave the tracked ones. *)
Lemma poll_loop_batch fuel futures pbar w :
  heap w = h →
  distinct_futures h futures →
  Forall (λ a, is_Some (future_value task_value h a)) futures →
  (∀ a, a ∈ futures → is_Some (m !! a)) →
  match poll_loop ready task_value fuel m futures pbar w with
  | (Yield item, g, w1) =>
    ∃ c a pend rest,
      clock w ≤ c
      ∧ (∀ k x, clock w ≤ k < c → x ∈ futures → rep k x = false)
      ∧ a :: pend.*1 = filter (λ x, rep c x = true) futures
      ∧ rest = filter (λ x, rep c x ≠ true) futures
      ∧ clock w1 = S c
      ∧ heap w1 = h
      ∧ item = emit task_value m h a
      ∧ g = Suspended m rest pend (S pbar)
      ∧ Forall (λ av, future_value task_value h av.1 = Some av.2) pend
  | (Raise _, _, _) => False
  | _ => True
  end.
Proof.
  revert w. induction fuel as [|fuel IH]; intros w Hh Hdist Hval Hdom;
    (destruct futures as [|a0 l]; [done|]); [done|].
  rewrite poll_loop_cons.
  destruct (ray_wait ready w (a0 :: l)) as [[e|[dn rest]] w1] eqn:Hw.
  { apply ray_wait_inl in Hw. by rewrite Hh in Hw. }
  pose proof Hw as Hw'. apply ray_wait_inr in Hw' as (Hdn & Hrest & _).
  apply ray_wait_world in Hw as (Hh1 & Hc1 & Hf1).
  assert (sublist dn (a0 :: l)) as Hsubdn by (rewrite Hdn; apply sublist_filter).
  destruct (ray_get task_value w1 dn) as [[e|values] w2] eqn:Hg.
  { apply ray_get_inl in Hg. destruct Hg. rewrite Hh1, Hh.
    rewrite Forall_forall in Hval |- *. intros a Ha.
    by apply Hval, (sublist_subseteq _ _ Hsubdn). }
  apply ray_get_inr in Hg as (Hvals & Hh2 & Hc2 & Hf2).
  rewrite Hh1, Hh in Hvals.
  destruct Hvals as [|a v dn' values' Hav Hvals]; simpl.
  - assert (rest = a0 :: l) as ->.
    { rewrite Hrest. apply filter_none_complement. by rewrite <-Hdn. }
    specialize (IH w2 ltac:(congruence) Hdist Hval Hdom).
    destruct (poll_loop _ _ _ _ _ _ _) as [[[item| |e|] g] w3]; [|done..].
    destruct IH as (c & a & pend & rest & Hc & Hnone & IH).
    exists c, a, pend, rest. split; [lia|]. split; [|done].
    intros k x Hk Hx. destruct (decide (k = clock w)) as [->|Hne].
    + rewrite <-(reported_rep w) by done.
      destruct (reported ready w x) eqn:Hrep; [|done].
      assert (x ∈ filter (λ a, reported ready w a = true) (a0 :: l)) as Hin
        by (by apply list_elem_of_filter).
      rewrite <-Hdn in Hin. by apply elem_of_nil in Hin.
    + apply Hnone; [lia|done].
  - apply Forall2_zip_fst in Hvals as [Hwf Hfst].
    unfold yield_item.
    destruct (Hdom a) as [position Hpos].
    { apply (sublist_subseteq _ _ Hsubdn). left. }
    rewrite Hpos. exists (clock w), a, (zip dn' values'), rest.
    unfold emit. rewrite Hpos, Hav, Hfst. simpl.
    split_and!; try done; try congruence.
    + intros k x Hk. lia.
    + rewrite Hdn. apply list_filter_iff. intros x. by rewrite (reported_rep w).
    + rewrite Hrest. apply list_filter_iff. intros x. by rewrite (reported_rep w).
Qed.

(** The order of a run from a suspended generator. *)
Lemma emitted_in_order fuel futures pending pbar w :
  heap w = h →
  distinct_futures h futures →
  Forall (λ a, is_Some (future_value task_value h a)) futures →
  Forall (λ av, future_value task_value h av.1 = Some av.2) pending →
  (∀ a, a ∈ futures ∨ a ∈ pending.*1 → is_Some (m !! a)) →
  match emitted ready task_value fuel (Suspended m futures pending pbar) w with
  | (pairs, Exhausted, _) =>
    ∃ order,
      pairs = emit task_value m h <$> (pending.*1 ++ order)
      ∧ order ≡ₚ futures
      ∧ ∀ a b ra rb ka kb,
          a ∈ futures → b ∈ futures →
          deref_future h a = Some ra → deref_future h b = Some rb →
          first_reported ready (clock w) ka ra →
          first_reported ready (clock w) kb rb →
          ka < kb ∨ (ka = kb ∧ before futures a b) →
          before order a b
  | _ => True
  end.
Proof.
  revert futures pending pbar w.
  induction fuel as [|fuel IH]; intros futures pending pbar w Hh Hdist Hval Hwf Hdom; [done|].
  cbn [emitted gen_next]. destruct pending as [|[a v] pending].
  - pose proof (poll_loop_batch fuel futures pbar w Hh Hdist Hval ltac:(naive_solver)) as Hpoll.
    pose proof (poll_loop_stop ready task_value fuel m futures pbar w) as Hstop.
    destruct (poll_loop _ _ _ _ _ _ _) as [[[item| |e|] g] w1]; [| |done..].
    + destruct Hpoll as (c & a & pend & rest & Hc & Hnone & Hdn & Hrest & Hc1 & Hh1 & -> & -> & Hwf').
      assert (sublist rest futures) as Hsub by (rewrite Hrest; apply sublist_filter).
      assert (sublist (a :: pend.*1) futures) as Hsubdn by (rewrite Hdn; apply sublist_filter).
      assert (distinct_futures h rest) as Hdist' by (by eapply distinct_futures_sublist).
      assert (Forall (λ a, is_Some (future_value task_value h a)) rest) as Hval'.
      { rewrite Forall_forall in Hval |- *. intros x Hx.
        by apply Hval, (sublist_subseteq _ _ Hsub). }
      assert (∀ x, x ∈ rest ∨ x ∈ pend.*1 → is_Some (m !! x)) as Hdom'.
      { intros x [Hx|Hx]; apply Hdom; left.
        - by apply (sublist_subseteq _ _ Hsub).
        - apply (sublist_subseteq _ _ Hsubdn). by right. }
      specialize (IH rest pend (S pbar) w1 Hh1 Hdist' Hval' Hwf' Hdom').
      destruct (emitted _ _ _ _ _) as [[items [|e|]] w']; [|done..].
      destruct IH as (order & -> & Hperm & Hord).
      exists (a :: pend.*1 ++ order). split; [done|]. split.
      { rewrite app_comm_cons, Hperm, Hdn, Hrest. apply filter_app_complement. }
      intros x y rx ry kx ky Hx Hy Hrx Hry (Hcx & Hx1 & Hx2) (Hcy & Hy1 & Hy2) Hlt.
      assert (c ≤ kx) as Hckx.
      { destruct (decide (c ≤ kx)) as [|Hn]; [done|].
        specialize (Hnone kx x ltac:(lia) Hx). rewrite (rep_ready _ _ _ Hrx) in Hnone.
        congruence. }
      assert (c ≤ ky) as Hcky.
      { destruct (decide (c ≤ ky)) as [|Hn]; [done|].
        specialize (Hnone ky y ltac:(lia) Hy). rewrite (rep_ready _ _ _ Hry) in Hnone.
        congruence. }
      assert (∀ z rz kz, z ∈ futures → deref_future h z = Some rz → ready kz rz = true →
                (∀ k', clock w ≤ k' < kz → ready k' rz = false) → c ≤ kz →
                (kz = c ∧ z ∈ a :: pend.*1)
                ∨ (c < kz ∧ z ∈ rest ∧ first_reported ready (clock w1) kz rz)) as Hcase.
      { intros z rz kz Hz Hrz Hz1 Hz2 Hckz.
        destruct (decide (kz = c)) as [->|Hne].
        - left. split; [done|]. rewrite Hdn. apply list_elem_of_filter. split; [|done].
          by rewrite (rep_ready _ _ _ Hrz).
        - right. split; [lia|]. split.
          + rewrite Hrest. apply list_elem_of_filter. split; [|done].
            rewrite (rep_ready _ _ _ Hrz), Hz2 by lia. done.
          + rewrite Hc1. split_and!; [lia|done|]. intros k' Hk'. apply Hz2. lia. }
      destruct (Hcase x rx kx Hx Hrx Hx1 Hx2 Hckx) as [[-> Hxin]|(Hxc & Hxin & Hxf)];
        destruct (Hcase y ry ky Hy Hry Hy1 Hy2 Hcky) as [[-> Hyin]|(Hyc & Hyin & Hyf)].
      * destruct Hlt as [?|[_ Hbef]]; [lia|].
        rewrite app_comm_cons. apply before_app_l.
        rewrite Hdn. apply before_filter; [done|..].
        -- by rewrite (rep_ready _ _ _ Hrx).
        -- by rewrite (rep_ready _ _ _ Hry).
      * rewrite app_comm_cons. apply before_app_mid; [done|]. by rewrite Hperm.
      * destruct Hlt as [?|[? _]]; lia.
      * rewrite app_comm_cons. apply before_app_r. apply (Hord x y rx ry kx ky); try done.
        destruct Hlt as [?|[-> Hbef]]; [by left|right]. split; [done|].
        rewrite Hrest. apply before_filter; [done|..].
        -- rewrite (rep_ready _ _ _ Hrx), Hx2 by lia. done.
        -- rewrite (rep_ready _ _ _ Hry), Hy2 by lia. done.
    + destruct Hstop as [Hs _]. rewrite (Hs eq_refl). exists []. split_and!; [done..|].
      intros ? ? ? ? ? ? Hin. by apply elem_of_nil in Hin.
  - apply Forall_cons in Hwf as [Hav Hwf]. simpl in Hav.
    unfold yield_item. destruct (Hdom a) as [position Hpos]; [right; left|].
    rewrite Hpos.
    specialize (IH futures pending (S pbar) w Hh Hdist Hval Hwf).
    destruct (emitted _ _ _ _ _) as [[items [|e|]] w']; [|done..].
    destruct IH as (order & -> & Hperm & Hord).
    { intros x [Hx|Hx]; apply Hdom; [by left|right; by right]. }
    exists order. split; [|done].
    csimpl. f_equal. unfold emit. by rewrite Hpos, Hav.
Qed.
End EmissionOrder.

Section EmissionOrderOfARun.
Variable ready : nat → ref → bool.
Variable task_value : ref → option PyVal.

(** X9: the lazy mode emits the results as they arrive.  In an exhausted
    run, of two futures of the list the one first reported by an earlier
    wait has its pair emitted first, and of two first reported by the same
    wait the one that stands earlier in the list. *)
Theorem pairs_emitted_in_completion_order (fuel : nat) (futures : addr)
    (items : list addr) (w : World) (pairs : list (nat * PyVal)) (w' : World) :
  heap w !! futures = Some (PyList items) →
  emitted ready task_value fuel (join_ray_futures_iter futures w).1 w
    = (pairs, Exhausted, w') →
  ∀ i j a b ra rb ka kb,
    items !! i = Some a → items !! j = Some b →
    deref_future (heap w) a = Some ra → deref_future (heap w) b = Some rb →
    first_reported ready (clock w) ka ra →
    first_reported ready (clock w) kb rb →
    ka < kb ∨ (ka = kb ∧ i < j) →
    ∃ va vb,
      task_value ra = Some va ∧ task_value rb = Some vb
      ∧ before pairs (i, va) (j, vb).
Proof.
  intros Hl Hrun i j a b ra rb ka kb Hi Hj Hra Hrb Hka Hkb Hlt.
  unfold join_ray_futures_iter in Hrun. simpl in Hrun.
  destruct (exhausted_run ready task_value fuel futures items w pairs w' Hl Hrun)
    as (Hdist & values & Hvals & _).
  pose proof (distinct_futures_NoDup _ _ Hdist) as Hnd.
  apply mapM_Some in Hvals.
  destruct (Forall2_lookup_l _ _ _ _ _ Hvals Hi) as (va & _ & Hva).
  destruct (Forall2_lookup_l _ _ _ _ _ Hvals Hj) as (vb & _ & Hvb).
  exists va, vb.
  assert (task_value ra = Some va) as Hta by (unfold future_value in Hva; by rewrite Hra in Hva).
  assert (task_value rb = Some vb) as Htb by (unfold future_value in Hvb; by rewrite Hrb in Hvb).
  split_and!; [done..|].
  destruct fuel as [|fuel]; [done|].
  rewrite (emitted_created _ _ _ _ _ _ Hl) in Hrun.
  set (h := <[futures := PyList []]> (heap w)) in *.
  assert (∀ x, deref_future h x = deref_future (heap w) x) as Hderef
    by (intros x; by eapply deref_future_emptied).
  assert (∀ x, future_value task_value h x = future_value task_value (heap w) x) as Hfv
    by (intros x; by eapply future_value_emptied).
  pose proof (emitted_in_order ready task_value h (id_to_position_map items) (S fuel) items
                [] 0 (_make_copy_and_empty_given futures items w).2 eq_refl) as Hord.
  rewrite Hrun in Hord.
  destruct Hord as (order & -> & _ & Hord).
  - by eapply distinct_futures_emptied.
  - apply Forall_forall. intros x [n Hx]%list_elem_of_lookup.
    destruct (Forall2_lookup_l _ _ _ _ _ Hvals Hx) as (v & _ & Hv). rewrite Hfv. eauto.
  - constructor.
  - intros x [Hx|Hx]; [by apply id_to_position_map_elem_of|by apply elem_of_nil in Hx].
  - assert (emit task_value (id_to_position_map items) h a = (i, va)) as <-.
    { unfold emit. by rewrite (id_to_position_map_NoDup _ _ _ Hnd Hi), Hfv, Hva. }
    assert (emit task_value (id_to_position_map items) h b = (j, vb)) as <-.
    { unfold emit. by rewrite (id_to_position_map_NoDup _ _ _ Hnd Hj), Hfv, Hvb. }
    simpl. apply before_fmap.
    apply (Hord a b ra rb ka kb).
    + by eapply list_elem_of_lookup_2.
    + by eapply list_elem_of_lookup_2.
    + by rewrite Hderef.
    + by rewrite Hderef.
    + done.
    + done.
    + destruct Hlt as [?|[-> Hij]]; [by left|right]. split; [done|].
      by eapply before_lookup.
Qed.
End EmissionOrderOfARun.

(** ** constant_pad *)

Section ConstantPad.
Import Other.
Local Open Scope Z_scope.

(** Below [2 ^ 53] the double nearest to a quotient has the integer part of
    the quotient. *)
Lemma nearest_double_small a b :
  0 < a < 2 ^ 53 → 0 < b < 2 ^ 53 →
  ∃ m e, nearest_double a b = Some (m, e)
         ∧ 0 < m ∧ -105 ≤ e ≤ 0
         ∧ m / 2 ^ (- e) = a / b.
Proof.
  intros Ha Hb. unfold nearest_double.
  pose proof (Z.log2_spec a ltac:(lia)) as Hla.
  pose proof (Z.log2_spec b ltac:(lia)) as Hlb.
  pose proof (Z.log2_nonneg a) as Hla0. pose proof (Z.log2_nonneg b) as Hlb0.
  assert (Z.log2 a < 53) as Hla53 by (apply Z.log2_lt_pow2; lia).
  assert (Z.log2 b < 53) as Hlb53 by (apply Z.log2_lt_pow2; lia).
  set (la := Z.log2 a) in *. set (lb := Z.log2 b) in *.
  set (e0 := la - lb - 53).
  assert (-105 ≤ e0 ≤ -1) as He0 by lia.
  destruct (Z.leb_spec 0 e0) as [|_]; [lia|]. cbn [fst snd].
  assert (2 ^ (- e0) * 2 ^ la = 2 ^ (53 + lb)) as Hpow.
  { rewrite <- Z.pow_add_r by lia. f_equal. lia. }
  assert (2 ^ (lb + 1) = 2 * 2 ^ lb) as Hlb1 by (rewrite Z.pow_add_r by lia; lia).
  replace (Z.succ lb) with (lb + 1) in Hlb by lia.
  assert (2 ^ (la + 1) = 2 * 2 ^ la) as Hla1 by (rewrite Z.pow_add_r by lia; lia).
  replace (Z.succ la) with (la + 1) in Hla by lia.
  assert (2 ^ (53 + lb) = 2 ^ 53 * 2 ^ lb) as Hpow' by (by rewrite Z.pow_add_r by lia).
  assert (0 < 2 ^ (- e0)) as Hp0 by (apply Z.pow_pos_nonneg; lia).
  assert (0 < 2 ^ lb) as Hplb by (apply Z.pow_pos_nonneg; lia).
  assert (0 < 2 ^ la) as Hpla by (apply Z.pow_pos_nonneg; lia).
  (* the mantissa scaled by [2 ^ (- e0)] lies between [2 ^ 52] and [2 ^ 54] *)
  assert (2 ^ 52 * b < a * 2 ^ (- e0)) as Hlow.
  { assert (2 ^ 53 * 2 ^ lb ≤ a * 2 ^ (- e0)) by nia. lia. }
  assert (a * 2 ^ (- e0) < 2 ^ 54 * b) as Hhigh.
  { assert (a * 2 ^ (- e0) < 2 * (2 ^ 53 * 2 ^ lb)) by nia. lia. }
  (* the exponent chosen, and the scaling by it *)
  assert (∃ e, -105 ≤ e ≤ 0
               ∧ (if 2 ^ 53 * b <=? a * 2 ^ (- e0) then e0 + 1 else e0) = e
               ∧ 2 ^ 52 * b ≤ a * 2 ^ (- e) < 2 ^ 53 * b) as (e & He & -> & Hnorm).
  { destruct (Z.leb_spec (2 ^ 53 * b) (a * 2 ^ (- e0))) as [Hge|Hlt].
    - exists (e0 + 1). split; [lia|]. split; [done|].
      assert (2 ^ (- e0) = 2 * 2 ^ (- (e0 + 1))) as Hhalf.
      { replace (- e0) with (1 + - (e0 + 1)) by lia. rewrite Z.pow_add_r by lia. lia. }
      lia.
    - exists e0. split; [lia|]. split; [done|]. lia. }
  rewrite Z.max_l by lia.
  set (P := 2 ^ (- e)) in *.
  assert (0 < P) as HP by (apply Z.pow_pos_nonneg; lia).
  assert ((if 0 <=? e then (a, b * 2 ^ e) else (a * P, b)) = (a * P, b)) as ->.
  { destruct (Z.leb_spec 0 e); [|done].
    assert (e = 0) as -> by lia. subst P. simpl. f_equal; lia. }
  cbn [fst snd].
  pose proof (Z.div_mod (a * P) b ltac:(lia)) as Hdm.
  pose proof (Z.mod_pos_bound (a * P) b ltac:(lia)) as Hr.
  pose proof (Z.div_mod a b ltac:(lia)) as Hdm'.
  pose proof (Z.mod_pos_bound a b ltac:(lia)) as Hr'.
  set (q := a * P / b) in *. set (r := (a * P) mod b) in *.
  set (k := a / b) in *. set (ρ := a mod b) in *.
  assert (k * P ≤ q) as Hq1 by nia.
  assert (q < (k + 1) * P) as Hq2 by nia.
  assert (2 ^ 52 ≤ q) as Hq52 by nia.
  assert (q < 2 ^ 53) as Hq53 by nia.
  set (m := if (b <? 2 * r) || (b =? 2 * r) && Z.odd q then q + 1 else q).
  assert (q ≤ m ≤ q + 1) as Hm by (subst m; destruct (_ || _); lia).
  assert (m = q + 1 → b ≤ 2 * r) as Hup.
  { subst m. destruct (Z.ltb_spec b (2 * r)); simpl; [lia|].
    destruct (Z.eqb_spec b (2 * r)); simpl; [lia|]. lia. }
  assert (m < (k + 1) * P) as Hm2.
  { destruct (decide (m = q)) as [->|Hne]; [done|].
    assert (m = q + 1) as Hm1 by lia. specialize (Hup Hm1).
    destruct (decide (q + 1 = (k + 1) * P)) as [Heq|]; [|lia].
    (* a round-up across an integer needs a divisor of at least [2 * P],
       and then the dividend is at least [2 ^ 53] *)
    assert (2 * P ≤ b) by nia.
    nia. }
  exists m, e.
  assert ((0 <=? e) && (2 ^ 1024 <=? m * 2 ^ e) = false) as ->.
  { destruct (Z.leb_spec 0 e); [|done]. simpl.
    assert (e = 0) as -> by lia. apply Z.leb_gt. simpl. lia. }
  split; [done|]. split; [lia|]. split; [lia|].
  fold P. symmetry. apply Z.div_unique_pos with (r := m - k * P); lia.
Qed.

(** Below [2 ^ 53], [int(a / b)] is the quotient truncated towards zero. *)
Lemma int_div_small a b :
  0 ≤ a < 2 ^ 53 → b ≠ 0 → - 2 ^ 53 < b < 2 ^ 53 → int_div a b = inr (a ÷ b).
Proof.
  intros Ha Hb0 Hb. unfold int_div, true_div.
  destruct (Z.eqb_spec b 0) as [|_]; [done|].
  destruct (Z.eqb_spec a 0) as [->|Ha0]; [by rewrite Z.quot_0_l|].
  rewrite (Z.abs_eq a) by lia.
  destruct (nearest_double_small a (Z.abs b) ltac:(lia) ltac:(lia))
    as (m & e & -> & Hm & He & Hdiv).
  destruct (Z.eqb_spec m 0) as [|_]; [lia|]. cbn [int_of_float].
  rewrite Z2Pos.id by lia.
  assert ((if 0 <=? e then m * 2 ^ e else m / 2 ^ (- e)) = a / Z.abs b) as ->.
  { destruct (Z.leb_spec 0 e); [|done].
    assert (e = 0) as -> by lia. simpl in *. rewrite Z.div_1_r in Hdiv. lia. }
  destruct (Z.ltb_spec a 0); [lia|]. simpl.
  destruct (Z.ltb_spec b 0).
  - rewrite Z.abs_neq by lia. f_equal.
    replace b with (- - b) at 2 by lia.
    rewrite Z.quot_opp_r by lia. by rewrite Z.quot_div_nonneg by lia.
  - rewrite Z.abs_eq by lia. by rewrite Z.quot_div_nonneg by lia.
Qed.

Lemma axis_padding_positive size multiple :
  0 ≤ size < 2 ^ 53 → 0 < multiple < 2 ^ 53 →
  ∃ p, axis_padding size multiple = inr p
       ∧ 0 ≤ p < multiple
       ∧ (size + p) mod multiple = 0
       ∧ (p = 0 ↔ size mod multiple = 0).
Proof.
  intros Hs Hm. unfold axis_padding.
  destruct (Z.eqb_spec multiple 0) as [|_]; [lia|].
  destruct (Z.eqb_spec (size mod multiple) 0) as [Hz|Hnz].
  - exists 0. rewrite Z.add_0_r. repeat split; (done || lia).
  - rewrite int_div_small by lia.
    exists ((size ÷ multiple + 1) * multiple - size).
    rewrite Z.quot_div_nonneg by lia.
    pose proof (Z.div_mod size multiple ltac:(lia)) as Hdm.
    pose proof (Z.mod_pos_bound size multiple ltac:(lia)) as Hb.
    assert ((size + ((size / multiple + 1) * multiple - size)) mod multiple = 0) as Hmul.
    { replace (size + ((size / multiple + 1) * multiple - size))
        with ((size / multiple + 1) * multiple) by lia.
      apply Z.mod_mul. lia. }
    repeat split; (done || nia).
Qed.

Lemma axis_padding_negative size multiple :
  0 ≤ size < 2 ^ 53 → - 2 ^ 53 < multiple < 0 →
  ∃ p, axis_padding size multiple = inr p ∧ p ≤ 0.
Proof.
  intros Hs Hm. unfold axis_padding.
  destruct (Z.eqb_spec multiple 0) as [|_]; [lia|].
  destruct (Z.eqb_spec (size mod multiple) 0) as [Hz|Hnz]; [by exists 0|].
  rewrite int_div_small by lia.
  eexists. split; [done|].
  replace multiple with (- - multiple) at 1 by lia.
  rewrite Z.quot_opp_r by lia. rewrite Z.quot_div_nonneg by lia.
  pose proof (Z.div_mod size (- multiple) ltac:(lia)) as Hdm.
  pose proof (Z.mod_pos_bound size (- multiple) ltac:(lia)) as Hb.
  nia.
Qed.

(** An axis whose size is a multiple already needs no padding, whatever
    the sizes. *)
Lemma axis_padding_multiple size multiple :
  multiple ≠ 0 → size mod multiple = 0 → axis_padding size multiple = inr 0.
Proof.
  intros Hm Hz. unfold axis_padding.
  destruct (Z.eqb_spec multiple 0); [done|]. by destruct (Z.eqb_spec (size mod multiple) 0).
Qed.

Lemma split_padding_none padding rule first second :
  padding ≤ 0 → split_padding padding rule first second = inr (0, 0).
Proof. intros Hp. unfold split_padding. by destruct (Z.ltb_spec 0 padding); [lia|]. Qed.

Lemma split_padding_supported padding rule first second :
  0 < padding < 2 ^ 53 →
  rule = first ∨ rule = second ∨ rule = "even"%string →
  ∃ a b, split_padding padding rule first second = inr (a, b)
         ∧ 0 ≤ a ∧ 0 ≤ b ∧ a + b = padding
         ∧ (rule = first → b = 0)
         ∧ (rule ≠ first → rule = second → a = 0)
         ∧ (rule ≠ first → rule ≠ second → a = padding / 2).
Proof.
  intros Hp Hrule. unfold split_padding.
  destruct (Z.ltb_spec 0 padding); [|lia].
  destruct (String.eqb_spec rule first) as [|Hn1].
  { exists padding, 0. repeat split; (done || lia). }
  destruct (String.eqb_spec rule second) as [|Hn2].
  { exists 0, padding. repeat split; (done || lia). }
  destruct (String.eqb_spec rule "even") as [|Hn3]; [|by destruct Hrule as [|[|]]].
  rewrite int_div_small by lia.
  rewrite Z.quot_div_nonneg by lia.
  pose proof (Z.div_mod padding 2 ltac:(lia)) as Hdm.
  pose proof (Z.mod_pos_bound padding 2 ltac:(lia)) as Hb.
  eexists _, _. repeat split; (done || lia).
Qed.

Lemma split_padding_unsupported padding rule first second :
  0 < padding →
  rule ≠ first → rule ≠ second → rule ≠ "even"%string →
  split_padding padding rule first second = inl ValueError.
Proof.
  intros Hp H1 H2 H3. unfold split_padding.
  destruct (Z.ltb_spec 0 padding); [|lia].
  destruct (String.eqb_spec rule first); [done|].
  destruct (String.eqb_spec rule second); [done|].
  by destruct (String.eqb_spec rule "even").
Qed.

Section Pad.
Context {P V : Type}.
Variable cast : P → PyExc + V.

(** Widths that are not negative and fit an index, around an array of two
    dimensions. *)
Lemma np_pad_two_dimensions (X : Array V) rows cols up down left right v value :
  shape X = [rows; cols] →
  cast v = inr value →
  0 ≤ up < 2 ^ 53 → 0 ≤ down < 2 ^ 53 → 0 ≤ left < 2 ^ 53 → 0 ≤ right < 2 ^ 53 →
  ∃ Y, np_pad cast X up down left right v = inr Y
       ∧ shape Y = [(Z.to_nat up + rows + Z.to_nat down)%nat;
                    (Z.to_nat left + cols + Z.to_nat right)%nat]
       ∧ ∀ i j,
           cell Y [i; j]
           = if decide ((Z.to_nat up ≤ i < Z.to_nat up + rows)%nat
                        ∧ (Z.to_nat left ≤ j < Z.to_nat left + cols)%nat)
             then cell X [(i - Z.to_nat up)%nat; (j - Z.to_nat left)%nat]
             else value.
Proof.
  intros Hshape Hcast Hu Hd Hl Hr. unfold np_pad.
  assert (2 ^ 53 ≤ maxsize) as Hmax by (by vm_compute).
  rewrite bool_decide_eq_false_2.
  2:{ rewrite !Exists_cons, Exists_nil. lia. }
  rewrite bool_decide_eq_false_2.
  2:{ rewrite !Exists_cons, Exists_nil. lia. }
  rewrite Hshape, Hcast. eexists. split; [done|]. split; done.
Qed.

Lemma constant_pad_supported (X : Array V) rows cols m0 m1 ud lr (v : P) :
  shape X = [rows; cols] →
  Z.of_nat rows < 2 ^ 53 → Z.of_nat cols < 2 ^ 53 →
  0 < m0 < 2 ^ 53 → 0 < m1 < 2 ^ 53 →
  ud = "up"%string ∨ ud = "down"%string ∨ ud = "even"%string →
  lr = "left"%string ∨ lr = "right"%string ∨ lr = "even"%string →
  ∃ up down left right,
    constant_pad cast X (m0, m1) ud lr v = np_pad cast X up down left right v
    ∧ 0 ≤ up ∧ 0 ≤ down ∧ 0 ≤ left ∧ 0 ≤ right
    ∧ up + down < m0 ∧ left + right < m1
    ∧ (Z.of_nat rows + (up + down)) mod m0 = 0
    ∧ (Z.of_nat cols + (left + right)) mod m1 = 0
    ∧ (ud = "up"%string → down = 0)
    ∧ (ud = "down"%string → up = 0)
    ∧ (ud = "even"%string → up = (up + down) / 2)
    ∧ (lr = "left"%string → right = 0)
    ∧ (lr = "right"%string → left = 0)
    ∧ (lr = "even"%string → left = (left + right) / 2).
Proof.
  intros Hshape Hrows Hcols Hm0 Hm1 Hud Hlr. unfold constant_pad. rewrite Hshape. simpl.
  destruct (axis_padding_positive (Z.of_nat rows) m0 ltac:(lia) Hm0)
    as (rp & -> & Hrp & Hrmod & _).
  destruct (axis_padding_positive (Z.of_nat cols) m1 ltac:(lia) Hm1)
    as (cp & -> & Hcp & Hcmod & _).
  assert (∀ p rule first second,
            0 ≤ p < 2 ^ 53 →
            first ≠ second → first ≠ "even"%string → second ≠ "even"%string →
            rule = first ∨ rule = second ∨ rule = "even"%string →
            ∃ a b, split_padding p rule first second = inr (a, b)
                   ∧ 0 ≤ a ∧ 0 ≤ b ∧ a + b = p
                   ∧ (rule = first → b = 0) ∧ (rule = second → a = 0)
                   ∧ (rule = "even"%string → a = p / 2)) as Hsplit.
  { intros p rule first second Hp Hfs Hfe Hse Hrule.
    destruct (decide (p = 0)) as [->|Hne].
    - rewrite split_padding_none by lia. exists 0, 0. repeat split; done.
    - destruct (split_padding_supported p rule first second ltac:(lia) Hrule)
        as (a & b & -> & Ha & Hb & Hab & H1 & H2 & H3).
      exists a, b. repeat split; try done.
      + intros ->. by apply H2.
      + intros ->. by apply H3. }
  destruct (Hsplit rp ud "up"%string "down"%string) as (up & down & -> & ? & ? & ? & ? & ? & ?);
    [lia|done..|].
  destruct (Hsplit cp lr "left"%string "right"%string)
    as (left & right & -> & ? & ? & ? & ? & ? & ?); [lia|done..|].
  exists up, down, left, right. subst rp cp. repeat split; try done; lia.
Qed.

(** X10: on an array of two dimensions, with sizes and positive multiples
    below [2 ^ 53], padding rules it knows and a [pad_value] that numpy
    can convert to the element type, [constant_pad] returns an array of
    two dimensions whose numbers of rows and of columns are the least
    multiples of [multiple_of[0]] and [multiple_of[1]] not below those of
    the given array. *)
Theorem constant_pad_shape (X : Array V) (rows cols : nat) (m0 m1 : Z)
    (up_down_rule left_right_rule : string) (pad_value : P) (value : V) :
  shape X = [rows; cols] →
  cast pad_value = inr value →
  Z.of_nat rows < 2 ^ 53 → Z.of_nat cols < 2 ^ 53 →
  0 < m0 < 2 ^ 53 → 0 < m1 < 2 ^ 53 →
  up_down_rule ∈ ["up"; "down"; "even"]%string →
  left_right_rule ∈ ["left"; "right"; "even"]%string →
  ∃ Y rows' cols',
    constant_pad cast X (m0, m1) up_down_rule left_right_rule pad_value = inr Y
    ∧ shape Y = [rows'; cols']
    ∧ Z.of_nat rows' mod m0 = 0
    ∧ Z.of_nat rows ≤ Z.of_nat rows' < Z.of_nat rows + m0
    ∧ Z.of_nat cols' mod m1 = 0
    ∧ Z.of_nat cols ≤ Z.of_nat cols' < Z.of_nat cols + m1.
Proof.
  intros Hshape Hcast Hrows Hcols Hm0 Hm1 Hud Hlr.
  destruct (constant_pad_supported X rows cols m0 m1 up_down_rule left_right_rule pad_value
              Hshape Hrows Hcols Hm0 Hm1)
    as (up & down & left & right & -> & Hu & Hd & Hl & Hr & Hrow & Hcol & Hrmod & Hcmod & _).
  { revert Hud. rewrite !elem_of_cons, elem_of_nil. tauto. }
  { revert Hlr. rewrite !elem_of_cons, elem_of_nil. tauto. }
  destruct (np_pad_two_dimensions X rows cols up down left right pad_value value
              Hshape Hcast)
    as (Y & -> & HY & _); [lia..|].
  eexists Y, _, _. split; [done|]. split; [exact HY|].
  replace (Z.of_nat (Z.to_nat up + rows + Z.to_nat down))
    with (Z.of_nat rows + (up + down)) by lia.
  replace (Z.of_nat (Z.to_nat left + cols + Z.to_nat right))
    with (Z.of_nat cols + (left + right)) by lia.
  repeat split; (done || lia).
Qed.

(** X11: under the same conditions, in the array [constant_pad] returns the
    given array sits as a block behind [up] rows and [left] columns of
    padding, and every cell outside the block holds [pad_value] as numpy
    converts it to the element type of the array.  The rule decides the place: with
    rule "up" (resp. "left") all the padding of the axis lies before the
    block, with "down" (resp. "right") all of it after, and "even" puts
    half of it, rounded down, before. *)
Theorem constant_pad_content (X : Array V) (rows cols : nat) (m0 m1 : Z)
    (up_down_rule left_right_rule : string) (pad_value : P) (value : V) :
  shape X = [rows; cols] →
  cast pad_value = inr value →
  Z.of_nat rows < 2 ^ 53 → Z.of_nat cols < 2 ^ 53 →
  0 < m0 < 2 ^ 53 → 0 < m1 < 2 ^ 53 →
  up_down_rule ∈ ["up"; "down"; "even"]%string →
  left_right_rule ∈ ["left"; "right"; "even"]%string →
  ∃ Y (rows' cols' up left : nat),
    constant_pad cast X (m0, m1) up_down_rule left_right_rule pad_value = inr Y
    ∧ shape Y = [rows'; cols']
    ∧ (∀ i j, (i < rows)%nat → (j < cols)%nat →
         cell Y [(up + i)%nat; (left + j)%nat] = cell X [i; j])
    ∧ (∀ i j, ¬ ((up ≤ i < up + rows)%nat ∧ (left ≤ j < left + cols)%nat) →
         cell Y [i; j] = value)
    ∧ (up + rows ≤ rows')%nat ∧ (left + cols ≤ cols')%nat
    ∧ (up_down_rule = "up"%string → (up + rows = rows')%nat)
    ∧ (up_down_rule = "down"%string → up = 0%nat)
    ∧ (up_down_rule = "even"%string → up = ((rows' - rows) / 2)%nat)
    ∧ (left_right_rule = "left"%string → (left + cols = cols')%nat)
    ∧ (left_right_rule = "right"%string → left = 0%nat)
    ∧ (left_right_rule = "even"%string → left = ((cols' - cols) / 2)%nat).
Proof.
  intros Hshape Hcast Hrows Hcols Hm0 Hm1 Hud Hlr.
  destruct (constant_pad_supported X rows cols m0 m1 up_down_rule left_right_rule pad_value
              Hshape Hrows Hcols Hm0 Hm1)
    as (up & down & left & right & -> & Hu & Hd & Hl & Hr & Hrow & Hcol & _ & _
        & Hup & Hdown & Hev & Hleft & Hright & Hevc).
  { revert Hud. rewrite !elem_of_cons, elem_of_nil. tauto. }
  { revert Hlr. rewrite !elem_of_cons, elem_of_nil. tauto. }
  destruct (np_pad_two_dimensions X rows cols up down left right pad_value value
              Hshape Hcast)
    as (Y & -> & HY & Hcell); [lia..|].
  exists Y, (Z.to_nat up + rows + Z.to_nat down)%nat,
    (Z.to_nat left + cols + Z.to_nat right)%nat, (Z.to_nat up), (Z.to_nat left).
  split; [done|]. split; [done|]. split_and!.
  - intros i j Hi Hj. rewrite Hcell, decide_True by lia. do 2 f_equal; [lia|f_equal; lia].
  - intros i j Hout. by rewrite Hcell, decide_False.
  - lia.
  - lia.
  - intros Hrule. specialize (Hup Hrule). lia.
  - intros Hrule. specialize (Hdown Hrule). lia.
  - intros Hrule. specialize (Hev Hrule).
    replace (Z.to_nat up + rows + Z.to_nat down - rows)%nat
      with (Z.to_nat (up + down)) by lia.
    apply Nat2Z.inj. rewrite Nat2Z.inj_div, !Z2Nat.id by lia. done.
  - intros Hrule. specialize (Hleft Hrule). lia.
  - intros Hrule. specialize (Hright Hrule). lia.
  - intros Hrule. specialize (Hevc Hrule).
    replace (Z.to_nat left + cols + Z.to_nat right - cols)%nat
      with (Z.to_nat (left + right)) by lia.
    apply Nat2Z.inj. rewrite Nat2Z.inj_div, !Z2Nat.id by lia. done.
Qed.

(** X12: on an array of two dimensions and with a [pad_value] that numpy
    can convert to the element type, when an axis needs no padding,
    because its size is a multiple already or because the multiple is
    negative (size and multiple below [2 ^ 53] in magnitude), its rule is
    never looked at: whatever the two rules are, known or not, the array
    comes back with its shape and its cells. *)
Theorem constant_pad_nothing_to_pad (X : Array V) (rows cols : nat) (m0 m1 : Z)
    (up_down_rule left_right_rule : string) (pad_value : P) (value : V) :
  shape X = [rows; cols] →
  cast pad_value = inr value →
  (- 2 ^ 53 < m0 < 0 ∧ Z.of_nat rows < 2 ^ 53) ∨ (m0 ≠ 0 ∧ Z.of_nat rows mod m0 = 0) →
  (- 2 ^ 53 < m1 < 0 ∧ Z.of_nat cols < 2 ^ 53) ∨ (m1 ≠ 0 ∧ Z.of_nat cols mod m1 = 0) →
  ∃ Y, constant_pad cast X (m0, m1) up_down_rule left_right_rule pad_value = inr Y
       ∧ shape Y = shape X
       ∧ ∀ i j, (i < rows)%nat → (j < cols)%nat → cell Y [i; j] = cell X [i; j].
Proof.
  intros Hshape Hcast H0 H1.
  assert (∀ size m, 0 ≤ size →
            (- 2 ^ 53 < m < 0 ∧ size < 2 ^ 53) ∨ (m ≠ 0 ∧ size mod m = 0) →
            ∃ p, axis_padding size m = inr p ∧ p ≤ 0) as Hpad.
  { intros size m Hs [[Hm Hsize]|[Hm Hz]]; [apply axis_padding_negative; lia|].
    exists 0. split; [|done]. by apply axis_padding_multiple. }
  unfold constant_pad. rewrite Hshape. simpl.
  destruct (Hpad (Z.of_nat rows) m0 ltac:(lia) H0) as (rp & -> & Hrp).
  destruct (Hpad (Z.of_nat cols) m1 ltac:(lia) H1) as (cp & -> & Hcp).
  rewrite !split_padding_none by done.
  destruct (np_pad_two_dimensions X rows cols 0 0 0 0 pad_value value Hshape Hcast)
    as (Y & -> & HY & Hcell); [lia..|].
  exists Y. split; [done|]. split.
  - rewrite HY. simpl. do 2 f_equal; [lia|f_equal; lia].
  - intros i j Hi Hj. rewrite Hcell, decide_True by (simpl; lia). simpl.
    do 2 f_equal; [lia|f_equal; lia].
Qed.

(** X13: on an array of two dimensions with sizes below [2 ^ 53],
    multiples below [2 ^ 53] in magnitude and a [pad_value] that numpy can
    convert to the element type, [constant_pad] raises the division error
    exactly when one of the multiples is zero; and with positive multiples
    it raises [ValueError] exactly when an axis that needs padding has a
    rule it does not know. *)
Theorem constant_pad_errors (X : Array V) (rows cols : nat) (m0 m1 : Z)
    (up_down_rule left_right_rule : string) (pad_value : P) (value : V) :
  shape X = [rows; cols] →
  cast pad_value = inr value →
  Z.of_nat rows < 2 ^ 53 → Z.of_nat cols < 2 ^ 53 →
  - 2 ^ 53 < m0 < 2 ^ 53 → - 2 ^ 53 < m1 < 2 ^ 53 →
  (constant_pad cast X (m0, m1) up_down_rule left_right_rule pad_value
     = inl ZeroDivisionError
   ↔ m0 = 0 ∨ m1 = 0)
  ∧ (0 < m0 → 0 < m1 →
     (constant_pad cast X (m0, m1) up_down_rule left_right_rule pad_value = inl ValueError
      ↔ (Z.of_nat rows mod m0 ≠ 0
         ∧ up_down_rule ∉ ["up"; "down"; "even"]%string)
        ∨ (Z.of_nat cols mod m1 ≠ 0
           ∧ left_right_rule ∉ ["left"; "right"; "even"]%string))).
Proof.
  intros Hshape Hcast Hrows Hcols Hm0 Hm1.
  assert (∀ size m, 0 ≤ size < 2 ^ 53 → - 2 ^ 53 < m < 2 ^ 53 → m ≠ 0 →
            ∃ p, axis_padding size m = inr p ∧ p < 2 ^ 53) as Haxis.
  { intros size m Hs Hm Hne. destruct (decide (0 < m)).
    - destruct (axis_padding_positive size m Hs ltac:(lia)) as (p & -> & ? & _).
      exists p. split; [done|lia].
    - destruct (axis_padding_negative size m Hs ltac:(lia)) as (p & -> & ?).
      exists p. split; [done|lia]. }
  assert (∀ p rule first second e,
            p < 2 ^ 53 →
            split_padding p rule first second = inl e → e = ValueError) as Hval.
  { intros p rule first second e Hp. unfold split_padding.
    destruct (Z.ltb_spec 0 p); [|done]. destruct (String.eqb rule first); [done|].
    destruct (String.eqb rule second); [done|].
    destruct (String.eqb rule "even"); [|congruence].
    rewrite int_div_small by lia. done. }
  assert (∀ p rule first second a b,
            p < 2 ^ 53 →
            split_padding p rule first second = inr (a, b) →
            0 ≤ a < 2 ^ 53 ∧ 0 ≤ b < 2 ^ 53) as Hwidths.
  { intros p rule first second a b Hp. unfold split_padding.
    destruct (Z.ltb_spec 0 p); [|intros [= <- <-]; lia].
    destruct (String.eqb rule first); [intros [= <- <-]; lia|].
    destruct (String.eqb rule second); [intros [= <- <-]; lia|].
    destruct (String.eqb rule "even"); [|done].
    rewrite int_div_small, Z.quot_div_nonneg by lia.
    pose proof (Z.div_mod p 2 ltac:(lia)) as Hdm.
    pose proof (Z.mod_pos_bound p 2 ltac:(lia)) as Hb.
    intros [= <- <-]. lia. }
  split.
  - split.
    2:{ intros [->| ->]; unfold constant_pad; rewrite Hshape; simpl; [done|].
        destruct (decide (m0 = 0)) as [->|Hne]; [done|].
        by destruct (Haxis (Z.of_nat rows) m0 ltac:(lia) Hm0 Hne) as (rp & -> & _). }
    intros Hraise.
    destruct (decide (m0 = 0)) as [|Hne0]; [by left|].
    destruct (decide (m1 = 0)) as [|Hne1]; [by right|]. exfalso.
    revert Hraise. unfold constant_pad. rewrite Hshape. simpl.
    destruct (Haxis (Z.of_nat rows) m0 ltac:(lia) Hm0 Hne0) as (rp & -> & Hrp).
    destruct (Haxis (Z.of_nat cols) m1 ltac:(lia) Hm1 Hne1) as (cp & -> & Hcp).
    destruct (split_padding rp _ _ _) as [e|[a b]] eqn:Hs1.
    { by apply Hval in Hs1 as ->. }
    destruct (split_padding cp _ _ _) as [e|[c d]] eqn:Hs2.
    { by apply Hval in Hs2 as ->. }
    apply Hwidths in Hs1; [|done]. apply Hwidths in Hs2; [|done].
    by destruct (np_pad_two_dimensions X rows cols a b c d pad_value value Hshape Hcast)
      as (Y & -> & _); [lia..|].
  - intros Hp0 Hp1. unfold constant_pad. rewrite Hshape. simpl.
    destruct (axis_padding_positive (Z.of_nat rows) m0 ltac:(lia) ltac:(lia))
      as (rp & -> & Hrp & _ & Hrz).
    destruct (axis_padding_positive (Z.of_nat cols) m1 ltac:(lia) ltac:(lia))
      as (cp & -> & Hcp & _ & Hcz).
    assert (∀ p rule first second,
              0 ≤ p < 2 ^ 53 →
              (∃ e, split_padding p rule first second = inl e)
              ↔ p ≠ 0 ∧ rule ∉ [first; second; "even"%string]) as Hbad.
    { intros p rule first second Hp. rewrite !not_elem_of_cons. split.
      - intros [e He]. destruct (decide (p = 0)) as [->|Hne].
        + by rewrite split_padding_none in He.
        + split; [done|]. split_and!; [| |  |apply not_elem_of_nil]; intros ->;
            unfold split_padding in He; destruct (0 <? p); try done;
            rewrite ?String.eqb_refl in He; try done;
            repeat (destruct (String.eqb _ _); try done);
            rewrite int_div_small in He by lia; done.
      - intros (Hne & H1 & H2 & H3 & _). exists ValueError.
        apply split_padding_unsupported; [lia|done..]. }
    specialize (Hbad rp up_down_rule "up"%string "down"%string ltac:(lia)) as Hbr.
    specialize (Hbad cp left_right_rule "left"%string "right"%string ltac:(lia)) as Hbc.
    destruct (split_padding rp _ _ _) as [e|[a b]] eqn:Hs1.
    { pose proof (Hval rp _ _ _ _ ltac:(lia) Hs1) as ->. split; [|done].
      intros _. left. destruct Hbr as [Hbr _]. destruct Hbr as [Hne Hr]; [by eexists|].
      split; [|done]. intros Hz. by apply Hrz in Hz. }
    destruct (split_padding cp _ _ _) as [e|[c d]] eqn:Hs2.
    { pose proof (Hval cp _ _ _ _ ltac:(lia) Hs2) as ->. split; [|done].
      intros _. right. destruct Hbc as [Hbc _]. destruct Hbc as [Hne Hr]; [by eexists|].
      split; [|done]. intros Hz. by apply Hcz in Hz. }
    apply Hwidths in Hs1; [|lia]. apply Hwidths in Hs2; [|lia].
    destruct (np_pad_two_dimensions X rows cols a b c d pad_value value Hshape Hcast)
      as (Y & -> & _); [lia..|].
    split; [done|]. intros [[Hz Hr]|[Hz Hr]]; exfalso.
    + destruct Hbr as [_ Hbr]. destruct Hbr as [e He]; [|done].
      split; [|done]. intros ->. by apply Hz, Hrz.
    + destruct Hbc as [_ Hbc]. destruct Hbc as [e He]; [|done].
      split; [|done]. intros ->. by apply Hz, Hcz.
Qed.

(** X19: [constant_pad] returns an array only when it is given an array of
    exactly two dimensions: with fewer, reading the shape raises; with
    more, as with the shape (rows, columns, channels), numpy refuses the
    two pairs of widths. *)
Theorem constant_pad_two_dimensions_only (X Y : Array V) (multiple_of : Z * Z)
    (up_down_rule left_right_rule : string) (pad_value : P) :
  constant_pad cast X multiple_of up_down_rule left_right_rule pad_value = inr Y →
  ∃ rows cols, shape X = [rows; cols].
Proof.
  unfold constant_pad.
  destruct (shape X) as [|rows [|cols rest]] eqn:Hshape; [done| |].
  { by destruct (axis_padding _ _). }
  destruct (axis_padding _ _); [done|]. destruct (axis_padding _ _); [done|].
  destruct (split_padding _ _ _ _) as [|[a b]]; [done|].
  destruct (split_padding _ _ _ _) as [|[c d]]; [done|].
  unfold np_pad. repeat (destruct (bool_decide _); [done|]).
  rewrite Hshape. destruct rest; [|done]. by exists rows, cols.
Qed.
End Pad.
End ConstantPad.

(** ** generate_uid *)

Lemma string_app_length (s t : string) :
  String.length (s ++ t) = String.length s + String.length t.
Proof. induction s as [|c s IH]; simpl; [done|by rewrite IH]. Qed.

Lemma string_app_inj (s1 s2 t1 t2 : string) :
  String.length s1 = String.length s2 →
  (s1 ++ t1 = s2 ++ t2)%string → s1 = s2 ∧ t1 = t2.
Proof.
  revert s2. induction s1 as [|c s1 IH]; intros [|c' s2]; simpl; try done.
  intros [= Hlen] [= -> Heq]. destruct (IH s2 Hlen Heq) as [-> ->]. done.
Qed.

Lemma substring_length n (s : string) :
  String.length (String.substring 0 n s) = min n (String.length s).
Proof.
  revert s. induction n as [|n IH]; intros [|c s]; simpl; try done.
  by rewrite IH.
Qed.

(** X14: an identifier [generate_uid] makes from two UUIDs has the prefix,
    a dash, the first 20 hexadecimal digits of the first UUID, a dash and
    the first 12 of the second, 34 characters after the prefix; and two
    identifiers with the same prefix are equal only if both parts agree. *)
Theorem generate_uid_unique (prefix u1 u4 u1' u4' : string) :
  String.length u1 = 32 → String.length u4 = 32 →
  String.length u1' = 32 → String.length u4' = 32 →
  String.length (Other.generate_uid prefix u1 u4) = String.length prefix + 34
  ∧ (Other.generate_uid prefix u1 u4 = Other.generate_uid prefix u1' u4'
     ↔ Other.drop_last 12 u1 = Other.drop_last 12 u1'
       ∧ Other.take_first 12 u4 = Other.take_first 12 u4').
Proof.
  intros H1 H4 H1' H4'. unfold Other.generate_uid.
  assert (String.length (Other.drop_last 12 u1) = 20) as Ht
    by (unfold Other.drop_last; rewrite substring_length, H1; done).
  assert (String.length (Other.drop_last 12 u1') = 20) as Ht'
    by (unfold Other.drop_last; rewrite substring_length, H1'; done).
  assert (String.length (Other.take_first 12 u4) = 12) as Hr
    by (unfold Other.take_first; rewrite substring_length, H4; done).
  split.
  - rewrite !string_app_length, Ht, Hr. simpl. lia.
  - split; [|by intros [-> ->]].
    intros Heq. apply string_app_inj in Heq as [_ Heq]; [|done].
    change ("-" ++ ?x)%string with (String "-"%char x) in Heq.
    injection Heq as Heq.
    apply string_app_inj in Heq as [Htime Heq]; [|congruence].
    change ("-" ++ ?x)%string with (String "-"%char x) in Heq.
    by injection Heq as Heq.
Qed.

(** ** Node descriptions *)

Import EOExecutorVisualization.

(** The characters of a string. *)
Lemma chars_app (s t : string) :
  String.list_ascii_of_string (s ++ t) = String.list_ascii_of_string s ++ String.list_ascii_of_string t.
Proof. induction s as [|c s IH]; simpl; [done|by rewrite IH]. Qed.

Lemma replace_char_chars old new s c :
  c ∈ String.list_ascii_of_string (replace_char old new s) →
  c ∈ String.list_ascii_of_string new ∨ (c ∈ String.list_ascii_of_string s ∧ c ≠ old).
Proof.
  induction s as [|a s IH]; simpl; [by intros ?%elem_of_nil|].
  destruct (Ascii.eqb_spec a old) as [->|Hne].
  - rewrite chars_app, elem_of_app. intros [?|Hin]; [by left|].
    destruct (IH Hin) as [?|[? ?]]; [by left|right]. split; [by right|done].
  - simpl. rewrite elem_of_cons. intros [->|Hin].
    + right. split; [by left|done].
    + destruct (IH Hin) as [?|[? ?]]; [by left|right]. split; [by right|done].
Qed.

Lemma replace_char_absent old new s :
  old ∉ String.list_ascii_of_string s → replace_char old new s = s.
Proof.
  induction s as [|a s IH]; simpl; [done|].
  rewrite not_elem_of_cons. intros [Hne Hin].
  destruct (Ascii.eqb_spec a old) as [->|_]; [done|]. by rewrite IH.
Qed.

Lemma replace_char_app old new s t :
  replace_char old new (s ++ t) = (replace_char old new s ++ replace_char old new t)%string.
Proof.
  induction s as [|a s IH]; simpl; [done|].
  destruct (Ascii.eqb a old); rewrite IH; [|done].
  generalize (replace_char old new s) (replace_char old new t). clear.
  intros u v. induction new as [|b new IH]; [done|].
  change (String b (new ++ (u ++ v)) = String b ((new ++ u) ++ v))%string.
  by rewrite IH.
Qed.

Lemma escape_no_angle_brackets value c :
  c ∈ String.list_ascii_of_string (escape value) → c ≠ "<"%char ∧ c ≠ ">"%char.
Proof.
  unfold escape. intros [Hin|[Hin Hgt]]%replace_char_chars.
  - simpl in Hin. rewrite !elem_of_cons, elem_of_nil in Hin.
    destruct Hin as [->|[->|[->|[->|[]]]]]; done.
  - split; [|done]. apply replace_char_chars in Hin as [Hin|[_ ?]]; [|done].
    simpl in Hin. rewrite !elem_of_cons, elem_of_nil in Hin.
    destruct Hin as [->|[->|[->|[->|[]]]]]; done.
Qed.

Lemma escape_clean value :
  "<"%char ∉ String.list_ascii_of_string value →
  ">"%char ∉ String.list_ascii_of_string value → escape value = value.
Proof.
  intros Hlt Hgt. unfold escape.
  rewrite (replace_char_absent "<"%char) by done. by apply replace_char_absent.
Qed.

Lemma escape_app s t : escape (s ++ t) = (escape s ++ escape t)%string.
Proof. unfold escape. by rewrite !replace_char_app. Qed.

Lemma occurrences_cons x y l :
  occurrences x (y :: l) = (if decide (y = x) then 1 else 0) + occurrences x l.
Proof.
  unfold occurrences. rewrite filter_cons. by destruct (decide (y = x)).
Qed.

Section DescriptionFacts.
Variable get_custom_name : string → nat → string.

Lemma describe_all_length nodes counts :
  length (describe_all get_custom_name nodes counts) = length nodes.
Proof.
  revert counts. induction nodes as [|n nodes IH]; intros counts; simpl; [done|].
  by rewrite IH.
Qed.

Lemma describe_all_lookup nodes counts i node :
  nodes !! i = Some node →
  describe_all get_custom_name nodes counts !! i
  = Some (describe get_custom_name node
            (default 0 (counts !! node_name node)
             + occurrences (node_name node) (node_name <$> take i nodes))).
Proof.
  revert counts i. induction nodes as [|n nodes IH]; intros counts i; [done|].
  destruct i as [|i]; cbn -[fmap occurrences].
  - intros [= ->]. unfold occurrences. simpl. by rewrite Nat.add_0_r.
  - intros Hi. rewrite (IH _ _ Hi). do 2 f_equal.
    rewrite fmap_cons, occurrences_cons.
    generalize (occurrences (node_name node) (node_name <$> take i nodes)).
    intros occ. destruct (decide (node_name n = node_name node)) as [Heq|Hne].
    + rewrite Heq, lookup_insert_eq. simpl. lia.
    + rewrite lookup_insert_ne by done. lia.
Qed.

(** X15: the description of the node at position [i] is built with the
    number of earlier nodes of the same name: [get_custom_name] gets, for
    each node, how many nodes before it in the workflow carry its name, and
    there is one description per node, in the order of the nodes. *)
Theorem node_descriptions_numbered (nodes : list Node) :
  length (_get_node_descriptions get_custom_name nodes) = length nodes
  ∧ ∀ i node, nodes !! i = Some node →
      _get_node_descriptions get_custom_name nodes !! i
      = Some (describe get_custom_name node
                (occurrences (node_name node) (node_name <$> take i nodes))).
Proof.
  split; [apply describe_all_length|].
  intros i node Hi. unfold _get_node_descriptions.
  by rewrite (describe_all_lookup _ _ _ _ Hi), lookup_empty.
Qed.

Lemma describe_all_elem nodes counts d :
  d ∈ describe_all get_custom_name nodes counts →
  ∃ node count, node ∈ nodes ∧ d = describe get_custom_name node count.
Proof.
  revert counts. induction nodes as [|n nodes IH]; intros counts; simpl.
  - by intros ?%elem_of_nil.
  - rewrite elem_of_cons. intros [->|Hin].
    + eexists _, _. split; [by left|done].
    + destruct (IH _ Hin) as (node & count & ? & ->).
      eexists _, _. split; [by right|done].
Qed.

(** X16: in every description the initialisation arguments keep their keys
    and their order, no argument value contains an angle bracket, and a
    value that had none is shown as it was. *)
Theorem node_descriptions_escaped (nodes : list Node) (d : Description) :
  d ∈ _get_node_descriptions get_custom_name nodes →
  ∃ node, node ∈ nodes
    ∧ uid d = node_uid node
    ∧ (args d).*1 = (init_args node).*1
    ∧ (∀ key value c, (key, value) ∈ args d →
         c ∈ String.list_ascii_of_string value → c ≠ "<"%char ∧ c ≠ ">"%char)
    ∧ (∀ j key value, init_args node !! j = Some (key, value) →
         "<"%char ∉ String.list_ascii_of_string value →
         ">"%char ∉ String.list_ascii_of_string value →
         args d !! j = Some (key, value)).
Proof.
  intros (node & count & Hnode & ->)%describe_all_elem.
  exists node. split; [done|]. split; [done|]. simpl. split; [|split].
  - rewrite <- list_fmap_compose. by apply list_fmap_ext.
  - intros key value c ([k v] & [= -> ->] & _)%list_elem_of_fmap.
    apply escape_no_angle_brackets.
  - intros j key value Hj Hlt Hgt. rewrite list_lookup_fmap, Hj. simpl.
    by rewrite escape_clean.
Qed.
End DescriptionFacts.

(** X17: escaping works piece by piece, [escape (s ++ t)] is
    [escape s ++ escape t], and it leaves the ampersand alone: an already
    escaped text and the raw text it stands for are shown alike. *)
Theorem escape_concatenation (s t : string) :
  escape (s ++ t) = (escape s ++ escape t)%string
  ∧ escape (s ++ "<" ++ t) = escape (s ++ "&lt;" ++ t).
Proof.
  split; [apply escape_app|]. by rewrite !escape_app.
Qed.

(** ** The properties above on the sample inputs *)



Lemma scenario_fair : ∀ r k, ∃ k', k ≤ k' ∧ Scenario.ready k' r = true.
Proof.
  intros r k. exists (k + Scenario.due r). split; [lia|].
  unfold Scenario.ready. apply bool_decide_eq_true. lia.
Qed.

Lemma join_ray_futures_sound_witness :
  let items := [10; 11; 12; 13; 14] in
  let results := [VInt 100; VInt 101; VInt 102; VInt 103; VInt 104] in
  let w' := (join_ray_futures Scenario.ready Scenario.task_value 8 1 Scenario.world).2 in
  (heap Scenario.world !! 1 = Some (PyList items)
   ∧ join_ray_futures Scenario.ready Scenario.task_value 8 1 Scenario.world
     = (Returned results, w'))
  ∧ distinct_futures (heap Scenario.world) items
  ∧ mapM (future_value Scenario.task_value (heap Scenario.world)) items = Some results
  ∧ heap w' = <[1 := PyList []]> (heap Scenario.world).
Proof.
  intros items results w'.
  assert (heap Scenario.world !! 1 = Some (PyList items)) as Hl
    by (vm_compute; reflexivity).
  assert (join_ray_futures Scenario.ready Scenario.task_value 8 1 Scenario.world
          = (Returned results, w')) as Hjoin by (vm_compute; reflexivity).
  exact (conj (conj Hl Hjoin)
           (join_ray_futures_sound Scenario.ready Scenario.task_value 8 1 items results
              Scenario.world w' Hl Hjoin)).
Defined.

Lemma join_ray_futures_rejects_witness :
  (heap Scenario.world !! 3 = Some (PyList [10; 10])
   ∧ ¬ distinct_futures (heap Scenario.world) [10; 10])
  ∧ ∃ w1,
      join_ray_futures Scenario.ready Scenario.task_value 2 3 Scenario.world
        = (Failed (match mapM (deref_future (heap Scenario.world)) [10; 10] with
                   | None => TypeError
                   | Some _ => ValueError
                   end), w1)
      ∧ heap w1 = <[3 := PyList []]> (heap Scenario.world).
Proof.
  assert (heap Scenario.world !! 3 = Some (PyList [10; 10])) as Hl
    by (vm_compute; reflexivity).
  assert (¬ distinct_futures (heap Scenario.world) [10; 10]) as Hnd.
  { intros (refs & Hrefs & Hnd). vm_compute in Hrefs. injection Hrefs as <-.
    apply NoDup_cons in Hnd as [Hin _]. apply Hin. left. }
  exact (conj (conj Hl Hnd)
           (join_ray_futures_rejects Scenario.ready Scenario.task_value 0 3 [10; 10]
              Scenario.world Hl Hnd)).
Defined.

Lemma join_ray_futures_task_failure_witness :
  let items := [10; 11; 12; 13; 14] in
  (heap Scenario.world !! 1 = Some (PyList items)
   ∧ distinct_futures (heap Scenario.world) items
   ∧ eventually_reported Scenario.ready (heap Scenario.world) items
   ∧ Exists (λ a, future_value Examples.failing_task_value (heap Scenario.world) a = None)
       items)
  ∧ ∃ fuel0 w', ∀ fuel, fuel0 ≤ fuel →
      join_ray_futures Scenario.ready Examples.failing_task_value fuel 1 Scenario.world
        = (Failed RayTaskError, w').
Proof.
  intros items.
  assert (heap Scenario.world !! 1 = Some (PyList items)) as Hl
    by (vm_compute; reflexivity).
  assert (distinct_futures (heap Scenario.world) items) as Hdist.
  { exists [0; 1; 2; 3; 4]. split; [vm_compute; reflexivity|].
    apply (bool_decide_unpack _). vm_compute. exact I. }
  assert (eventually_reported Scenario.ready (heap Scenario.world) items) as Hev.
  { intros a r _ _ k. apply scenario_fair. }
  assert (Exists (λ a, future_value Examples.failing_task_value (heap Scenario.world) a = None)
            items) as Hfail.
  { apply Exists_cons_tl, Exists_cons_tl, Exists_cons_hd. vm_compute. reflexivity. }
  exact (conj (conj Hl (conj Hdist (conj Hev Hfail)))
           (join_ray_futures_task_failure Scenario.ready Examples.failing_task_value 1 items
              Scenario.world Hl Hdist Hev Hfail)).
Defined.

Lemma progress_bar_counts_emitted_witness :
  let items := [10; 11; 12; 13; 14] in
  let r := resumed Scenario.ready Scenario.task_value 8 4
             (join_ray_futures_iter 1 Scenario.world).1 Scenario.world in
  let g' := (default (Closed, Scenario.world) r).1 in
  let w' := (default (Closed, Scenario.world) r).2 in
  (heap Scenario.world !! 1 = Some (PyList items) ∧ r = Some (g', w'))
  ∧ progress g' = 4
  ∧ accounted (heap w') g' = length items
  ∧ 4 ≤ length items.
Proof.
  intros items r g' w'.
  assert (heap Scenario.world !! 1 = Some (PyList items)) as Hl
    by (vm_compute; reflexivity).
  assert (r = Some (g', w')) as Hr by (vm_compute; reflexivity).
  exact (conj (conj Hl Hr)
           (progress_bar_counts_emitted Scenario.ready Scenario.task_value 8 4 1 items
              Scenario.world g' w' Hl Hr)).
Defined.

Lemma parallelize_with_ray_in_order_witness :
  let params := [20; 21] in
  let columns := [[VInt 1; VInt 2; VInt 3]; [VInt 10; VInt 20]] in
  let values := [VInt 11; VInt 22] in
  let w := Examples.params_world in
  ((∀ r k, ∃ k', k ≤ k' ∧ Scenario.ready k' r = true)
   ∧ Forall2 (λ p column, ∃ o, heap w !! p = Some o ∧ sequence_items o = Some column)
       params columns
   ∧ Examples.add_binds (length params) = true
   ∧ mapM Examples.add (zip_star columns) = Some values)
  ∧ (∃ fuel0 w',
        (∀ fuel, fuel0 ≤ fuel →
           parallelize_with_ray Scenario.ready Scenario.task_value fuel true
             Examples.add_binds Examples.add params w = Some (Returned values, w'))
        ∧ heap w ⊆ heap w')
  ∧ ∀ i row, zip_star columns !! i = Some row →
      Forall2 (λ column x, column !! i = Some x) columns row
      ∧ values !! i = Examples.add row.
Proof.
  intros params columns values w.
  assert (Forall2 (λ p column, ∃ o, heap w !! p = Some o ∧ sequence_items o = Some column)
            params columns) as Hparams.
  { repeat constructor; eexists; (split; [vm_compute; reflexivity|reflexivity]). }
  assert (Examples.add_binds (length params) = true) as Hbinds by reflexivity.
  assert (mapM Examples.add (zip_star columns) = Some values) as Hvals
    by (vm_compute; reflexivity).
  exact (conj (conj scenario_fair (conj Hparams (conj Hbinds Hvals)))
           (parallelize_with_ray_in_order Scenario.ready Scenario.task_value
              Examples.add_binds Examples.add params columns values w
              scenario_fair Hparams Hbinds Hvals)).
Defined.


Lemma parallelize_with_ray_binding_failure_witness :
  let params := [20] in
  let columns := [[VInt 1; VInt 2; VInt 3]] in
  let w := Examples.params_world in
  (Forall2 (λ p column, ∃ o, heap w !! p = Some o ∧ sequence_items o = Some column)
     params columns
   ∧ zip_star columns ≠ []
   ∧ Examples.add_binds (length params) = false)
  ∧ parallelize_with_ray Scenario.ready Scenario.task_value 1 true
      Examples.add_binds Examples.add params w = Some (Failed TypeError, w).
Proof.
  intros params columns w.
  assert (Forall2 (λ p column, ∃ o, heap w !! p = Some o ∧ sequence_items o = Some column)
            params columns) as Hparams.
  { repeat constructor; eexists; (split; [vm_compute; reflexivity|reflexivity]). }
  assert (zip_star columns ≠ []) as Hrows by (vm_compute; discriminate).
  assert (Examples.add_binds (length params) = false) as Hbinds by reflexivity.
  exact (conj (conj Hparams (conj Hrows Hbinds))
           (parallelize_with_ray_binding_failure Scenario.ready Scenario.task_value
              Examples.add_binds Examples.add params columns 0 w Hparams Hrows Hbinds)).
Defined.

Lemma parallelize_with_ray_consumes_iterators_witness :
  let params := [40; 41] in
  let columns := [[31; 32; 33]; [34; 35]] in
  let values := [VInt 5; VInt 7] in
  let w := Examples.iterators_world in
  ((∀ r k, ∃ k', k ≤ k' ∧ Scenario.ready k' r = true)
   ∧ NoDup params
   ∧ Forall2 (λ p c, heap w !! p = Some (PyIterator c)) params columns
   ∧ Examples.add_binds (length params) = true
   ∧ mapM (λ row, Examples.add_objects (VObject <$> row)) (zip_star columns) = Some values)
  ∧ ∃ fuel0 w',
      (∀ fuel, fuel0 ≤ fuel →
         parallelize_with_ray Scenario.ready Scenario.task_value fuel true
           Examples.add_binds Examples.add_objects params w = Some (Returned values, w'))
      ∧ Forall2 (λ p c, heap w' !! p = Some (PyIterator c)) params (zip_leftover columns)
      ∧ ∀ a o, a ∉ params → heap w !! a = Some o → heap w' !! a = Some o.
Proof.
  intros params columns values w.
  assert (NoDup params) as Hnd by (apply (bool_decide_unpack _); vm_compute; exact I).
  assert (Forall2 (λ p c, heap w !! p = Some (PyIterator c)) params columns) as Hall
    by (repeat constructor).
  assert (Examples.add_binds (length params) = true) as Hbinds by reflexivity.
  assert (mapM (λ row, Examples.add_objects (VObject <$> row)) (zip_star columns)
          = Some values) as Hvals by (vm_compute; reflexivity).
  exact (conj (conj scenario_fair (conj Hnd (conj Hall (conj Hbinds Hvals))))
           (parallelize_with_ray_consumes_iterators Scenario.ready Scenario.task_value
              Examples.add_binds Examples.add_objects params columns values w
              scenario_fair Hnd Hall Hbinds Hvals)).
Defined.

(** What is left of the two iterators of the example: nothing of either;
    the first has given an item for which there was no row. *)
Example zip_leftover_example :
  zip_leftover [[31; 32; 33]; [34; 35]] = [[]; []]
  ∧ zip_leftover [[34; 35]; [31; 32; 33]] = [[]; [33]].
Proof. split; reflexivity. Qed.

Lemma run_execution_in_submission_order_witness :
  let processing_args := [VInt 1; VInt 2; VInt 3] in
  let results := [VInt 2; VInt 4; VInt 6] in
  ((∀ r k, ∃ k', k ≤ k' ∧ Scenario.ready k' r = true)
   ∧ mapM Examples.double processing_args = Some results)
  ∧ (∃ fuel0 w',
        (∀ fuel, fuel0 ≤ fuel →
           RayExecutor_run_execution Scenario.ready Scenario.task_value Examples.double fuel
             processing_args Scenario.world = (Returned results, w'))
        ∧ heap Scenario.world ⊆ heap w')
  ∧ length results = length processing_args
  ∧ ∀ i args, processing_args !! i = Some args → results !! i = Examples.double args.
Proof.
  intros processing_args results.
  assert (mapM Examples.double processing_args = Some results) as Hvals
    by (vm_compute; reflexivity).
  exact (conj (conj scenario_fair Hvals)
           (run_execution_in_submission_order Scenario.ready Scenario.task_value
              Examples.double processing_args results Scenario.world scenario_fair Hvals)).
Defined.

Lemma pairs_emitted_in_completion_order_witness :
  let items := [10; 11; 12; 13; 14] in
  let pairs := [(0, VInt 100); (1, VInt 101); (2, VInt 102); (4, VInt 104); (3, VInt 103)] in
  let w' := (emitted Scenario.ready Scenario.task_value 8
               (join_ray_futures_iter 1 Scenario.world).1 Scenario.world).2 in
  (heap Scenario.world !! 1 = Some (PyList items)
   ∧ emitted Scenario.ready Scenario.task_value 8
       (join_ray_futures_iter 1 Scenario.world).1 Scenario.world = (pairs, Exhausted, w')
   ∧ items !! 4 = Some 14 ∧ items !! 3 = Some 13
   ∧ deref_future (heap Scenario.world) 14 = Some 4
   ∧ deref_future (heap Scenario.world) 13 = Some 3
   ∧ first_reported Scenario.ready (clock Scenario.world) 2 4
   ∧ first_reported Scenario.ready (clock Scenario.world) 4 3)
  ∧ ∃ va vb,
      Scenario.task_value 4 = Some va ∧ Scenario.task_value 3 = Some vb
      ∧ before pairs (4, va) (3, vb).
Proof.
  intros items pairs w'.
  assert (heap Scenario.world !! 1 = Some (PyList items)) as Hl
    by (vm_compute; reflexivity).
  assert (emitted Scenario.ready Scenario.task_value 8
            (join_ray_futures_iter 1 Scenario.world).1 Scenario.world
          = (pairs, Exhausted, w')) as Hrun by (vm_compute; reflexivity).
  assert (items !! 4 = Some 14) as Hi by reflexivity.
  assert (items !! 3 = Some 13) as Hj by reflexivity.
  assert (deref_future (heap Scenario.world) 14 = Some 4) as Ha
    by (vm_compute; reflexivity).
  assert (deref_future (heap Scenario.world) 13 = Some 3) as Hb
    by (vm_compute; reflexivity).
  assert (first_reported Scenario.ready (clock Scenario.world) 2 4) as Hka.
  { split; [simpl; lia|]. split; [reflexivity|].
    intros k' Hk'. apply bool_decide_eq_false. simpl in *. lia. }
  assert (first_reported Scenario.ready (clock Scenario.world) 4 3) as Hkb.
  { split; [simpl; lia|]. split; [reflexivity|].
    intros k' Hk'. apply bool_decide_eq_false. simpl in *. lia. }
  assert (2 < 4 ∨ (2 = 4 ∧ 4 < 3)) as Hlt by (left; lia).
  exact (conj (conj Hl (conj Hrun (conj Hi (conj Hj (conj Ha (conj Hb (conj Hka Hkb)))))))
           (pairs_emitted_in_completion_order Scenario.ready Scenario.task_value 8 1 items
              Scenario.world pairs w' Hl Hrun 4 3 14 13 4 3 2 4 Hi Hj Ha Hb Hka Hkb
              Hlt)).
Defined.

Section ConstantPadWitnesses.
Import Other.
Local Open Scope Z_scope.

Lemma constant_pad_shape_witness :
  (shape Examples.image = [3%nat; 5%nat]
   ∧ Examples.int8 0 = inr 0
   ∧ Z.of_nat 3 < 2 ^ 53 ∧ Z.of_nat 5 < 2 ^ 53
   ∧ 0 < 4 < 2 ^ 53
   ∧ "even"%string ∈ ["up"; "down"; "even"]%string
   ∧ "left"%string ∈ ["left"; "right"; "even"]%string)
  ∧ ∃ Y rows' cols',
      constant_pad Examples.int8 Examples.image (4, 4) "even" "left" 0 = inr Y
      ∧ shape Y = [rows'; cols']
      ∧ Z.of_nat rows' mod 4 = 0
      ∧ Z.of_nat 3 ≤ Z.of_nat rows' < Z.of_nat 3 + 4
      ∧ Z.of_nat cols' mod 4 = 0
      ∧ Z.of_nat 5 ≤ Z.of_nat cols' < Z.of_nat 5 + 4.
Proof.
  assert (shape Examples.image = [3%nat; 5%nat]) as Hshape by reflexivity.
  assert (Examples.int8 0 = inr 0) as Hcast by reflexivity.
  assert (Z.of_nat 3 < 2 ^ 53) as Hrows by reflexivity.
  assert (Z.of_nat 5 < 2 ^ 53) as Hcols by reflexivity.
  assert (0 < 4 < 2 ^ 53) as Hm by (split; reflexivity).
  assert ("even"%string ∈ ["up"; "down"; "even"]%string) as Hud
    by (apply (bool_decide_unpack _); vm_compute; exact I).
  assert ("left"%string ∈ ["left"; "right"; "even"]%string) as Hlr
    by (apply (bool_decide_unpack _); vm_compute; exact I).
  exact (conj (conj Hshape (conj Hcast (conj Hrows (conj Hcols (conj Hm (conj Hud Hlr))))))
           (constant_pad_shape Examples.int8 Examples.image 3 5 4 4 "even" "left" 0 0
              Hshape Hcast Hrows Hcols Hm Hm Hud Hlr)).
Defined.

Lemma constant_pad_content_witness :
  let X := Examples.image in
  (shape X = [3%nat; 5%nat]
   ∧ Examples.int8 300 = inr 44
   ∧ Z.of_nat 3 < 2 ^ 53 ∧ Z.of_nat 5 < 2 ^ 53
   ∧ 0 < 2 < 2 ^ 53 ∧ 0 < 4 < 2 ^ 53
   ∧ "up"%string ∈ ["up"; "down"; "even"]%string
   ∧ "even"%string ∈ ["left"; "right"; "even"]%string)
  ∧ ∃ Y (rows' cols' up left : nat),
      constant_pad Examples.int8 X (2, 4) "up" "even" 300 = inr Y
      ∧ shape Y = [rows'; cols']
      ∧ (∀ i j, (i < 3)%nat → (j < 5)%nat →
           cell Y [(up + i)%nat; (left + j)%nat] = cell X [i; j])
      ∧ (∀ i j, ¬ ((up ≤ i < up + 3)%nat ∧ (left ≤ j < left + 5)%nat) →
           cell Y [i; j] = 44)
      ∧ (up + 3 ≤ rows')%nat ∧ (left + 5 ≤ cols')%nat
      ∧ ("up"%string = "up"%string → (up + 3 = rows')%nat)
      ∧ ("up"%string = "down"%string → up = 0%nat)
      ∧ ("up"%string = "even"%string → up = ((rows' - 3) / 2)%nat)
      ∧ ("even"%string = "left"%string → (left + 5 = cols')%nat)
      ∧ ("even"%string = "right"%string → left = 0%nat)
      ∧ ("even"%string = "even"%string → left = ((cols' - 5) / 2)%nat).
Proof.
  intros X.
  assert (shape X = [3%nat; 5%nat]) as Hshape by reflexivity.
  assert (Examples.int8 300 = inr 44) as Hcast by reflexivity.
  assert (Z.of_nat 3 < 2 ^ 53) as Hrows by reflexivity.
  assert (Z.of_nat 5 < 2 ^ 53) as Hcols by reflexivity.
  assert (0 < 2 < 2 ^ 53) as Hm0 by (split; reflexivity).
  assert (0 < 4 < 2 ^ 53) as Hm1 by (split; reflexivity).
  assert ("up"%string ∈ ["up"; "down"; "even"]%string) as Hud
    by (apply (bool_decide_unpack _); vm_compute; exact I).
  assert ("even"%string ∈ ["left"; "right"; "even"]%string) as Hlr
    by (apply (bool_decide_unpack _); vm_compute; exact I).
  exact (conj
           (conj Hshape
              (conj Hcast (conj Hrows (conj Hcols (conj Hm0 (conj Hm1 (conj Hud Hlr)))))))
           (constant_pad_content Examples.int8 X 3 5 2 4 "up" "even" 300 44
              Hshape Hcast Hrows Hcols Hm0 Hm1 Hud Hlr)).
Defined.

Lemma constant_pad_nothing_to_pad_witness :
  let X := Examples.image in
  (shape X = [3%nat; 5%nat]
   ∧ Examples.int8 0 = inr 0
   ∧ ((- 2 ^ 53 < -2 < 0 ∧ Z.of_nat 3 < 2 ^ 53) ∨ (-2 ≠ 0 ∧ Z.of_nat 3 mod (-2) = 0))
   ∧ ((- 2 ^ 53 < 5 < 0 ∧ Z.of_nat 5 < 2 ^ 53) ∨ (5 ≠ 0 ∧ Z.of_nat 5 mod 5 = 0)))
  ∧ ∃ Y, constant_pad Examples.int8 X (-2, 5) "sideways" "anywhere" 0 = inr Y
         ∧ shape Y = shape X
         ∧ ∀ i j, (i < 3)%nat → (j < 5)%nat → cell Y [i; j] = cell X [i; j].
Proof.
  intros X.
  assert (shape X = [3%nat; 5%nat]) as Hshape by reflexivity.
  assert (Examples.int8 0 = inr 0) as Hcast by reflexivity.
  assert ((- 2 ^ 53 < -2 < 0 ∧ Z.of_nat 3 < 2 ^ 53) ∨ (-2 ≠ 0 ∧ Z.of_nat 3 mod (-2) = 0))
    as H0 by (left; repeat split; reflexivity).
  assert ((- 2 ^ 53 < 5 < 0 ∧ Z.of_nat 5 < 2 ^ 53) ∨ (5 ≠ 0 ∧ Z.of_nat 5 mod 5 = 0))
    as H1 by (right; split; [lia|reflexivity]).
  exact (conj (conj Hshape (conj Hcast (conj H0 H1)))
           (constant_pad_nothing_to_pad Examples.int8 X 3 5 (-2) 5 "sideways" "anywhere" 0 0
              Hshape Hcast H0 H1)).
Defined.

Lemma constant_pad_errors_witness :
  let X := Examples.image in
  (shape X = [3%nat; 5%nat]
   ∧ Examples.int8 0 = inr 0
   ∧ Z.of_nat 3 < 2 ^ 53 ∧ Z.of_nat 5 < 2 ^ 53
   ∧ - 2 ^ 53 < 2 < 2 ^ 53 ∧ - 2 ^ 53 < 5 < 2 ^ 53
   ∧ 0 < 2 ∧ 0 < 5)
  ∧ (constant_pad Examples.int8 X (2, 5) "sideways" "even" 0 = inl ValueError
     ↔ (Z.of_nat 3 mod 2 ≠ 0
        ∧ "sideways"%string ∉ ["up"; "down"; "even"]%string)
       ∨ (Z.of_nat 5 mod 5 ≠ 0
          ∧ "even"%string ∉ ["left"; "right"; "even"]%string)).
Proof.
  intros X.
  assert (shape X = [3%nat; 5%nat]) as Hshape by reflexivity.
  assert (Examples.int8 0 = inr 0) as Hcast by reflexivity.
  assert (Z.of_nat 3 < 2 ^ 53) as Hrows by reflexivity.
  assert (Z.of_nat 5 < 2 ^ 53) as Hcols by reflexivity.
  assert (- 2 ^ 53 < 2 < 2 ^ 53) as Hm0 by (split; reflexivity).
  assert (- 2 ^ 53 < 5 < 2 ^ 53) as Hm1 by (split; reflexivity).
  assert (0 < 2) as Hp0 by reflexivity.
  assert (0 < 5) as Hp1 by reflexivity.
  exact (conj
           (conj Hshape
              (conj Hcast (conj Hrows (conj Hcols (conj Hm0 (conj Hm1 (conj Hp0 Hp1)))))))
           (proj2 (constant_pad_errors Examples.int8 X 3 5 2 5 "sideways" "even" 0 0
                     Hshape Hcast Hrows Hcols Hm0 Hm1) Hp0 Hp1)).
Defined.

Lemma constant_pad_two_dimensions_only_witness :
  let Y := match constant_pad Examples.int8 Examples.image (4, 4) "even" "left" 0 with
           | inr Y => Y
           | inl _ => Examples.image
           end in
  constant_pad Examples.int8 Examples.image (4, 4) "even" "left" 0 = inr Y
  ∧ ∃ rows cols, shape Examples.image = [rows; cols].
Proof.
  intros Y.
  assert (constant_pad Examples.int8 Examples.image (4, 4) "even" "left" 0 = inr Y) as Hpad
    by reflexivity.
  exact (conj Hpad
           (constant_pad_two_dimensions_only Examples.int8 Examples.image Y (4, 4)
              "even" "left" 0 Hpad)).
Defined.
End ConstantPadWitnesses.

Lemma generate_uid_unique_witness :
  let u1 := "0123456789abcdef0123000000000000"%string in
  let u4 := "fedcba9876543210fedcba9876543210"%string in
  let u1' := "0123456789abcdef0123111111111111"%string in
  let u4' := "fedcba987654ffffffffffffffffffff"%string in
  (String.length u1 = 32 ∧ String.length u4 = 32
   ∧ String.length u1' = 32 ∧ String.length u4' = 32)
  ∧ String.length (Other.generate_uid "output" u1 u4) = String.length "output" + 34
  ∧ (Other.generate_uid "output" u1 u4 = Other.generate_uid "output" u1' u4'
     ↔ Other.drop_last 12 u1 = Other.drop_last 12 u1'
       ∧ Other.take_first 12 u4 = Other.take_first 12 u4').
Proof.
  intros u1 u4 u1' u4'.
  assert (String.length u1 = 32) as H1 by reflexivity.
  assert (String.length u4 = 32) as H4 by reflexivity.
  assert (String.length u1' = 32) as H1' by reflexivity.
  assert (String.length u4' = 32) as H4' by reflexivity.
  exact (conj (conj H1 (conj H4 (conj H1' H4')))
           (generate_uid_unique "output" u1 u4 u1' u4' H1 H4 H1' H4')).
Defined.


Lemma node_descriptions_numbered_witness :
  Examples.nodes !! 2
    = Some {| node_name := "LoadTask"; node_uid := "LoadTask-2"; init_args := [] |}
  ∧ _get_node_descriptions Examples.numbered Examples.nodes !! 2
    = Some (describe Examples.numbered
              {| node_name := "LoadTask"; node_uid := "LoadTask-2"; init_args := [] |}
              (occurrences "LoadTask" (node_name <$> take 2 Examples.nodes))).
Proof.
  assert (Examples.nodes !! 2
          = Some {| node_name := "LoadTask"; node_uid := "LoadTask-2"; init_args := [] |})
    as Hi by reflexivity.
  exact (conj Hi
           (proj2 (node_descriptions_numbered Examples.numbered Examples.nodes) 2 _ Hi)).
Defined.

Lemma node_descriptions_escaped_witness :
  let d := describe Examples.numbered
             {| node_name := "LoadTask"; node_uid := "LoadTask-1";
                init_args := [("path"%string, "'<tmp>'"%string)] |} 0 in
  d ∈ _get_node_descriptions Examples.numbered Examples.nodes
  ∧ ∃ node, node ∈ Examples.nodes
      ∧ uid d = node_uid node
      ∧ (args d).*1 = (init_args node).*1
      ∧ (∀ key value c, (key, value) ∈ args d →
           c ∈ String.list_ascii_of_string value → c ≠ "<"%char ∧ c ≠ ">"%char)
      ∧ (∀ j key value, init_args node !! j = Some (key, value) →
           "<"%char ∉ String.list_ascii_of_string value →
           ">"%char ∉ String.list_ascii_of_string value →
           args d !! j = Some (key, value)).
Proof.
  intros d.
  assert (d ∈ _get_node_descriptions Examples.numbered Examples.nodes) as Hd
    by (vm_compute; left).
  exact (conj Hd (node_descriptions_escaped Examples.numbered Examples.nodes d Hd)).
Defined.
